(** * sl-server: the signal codec, the filesystem helpers and the
    per-connection session, embedded from [src/signal.js], [src/utils.js]
    and the worker module, with the properties of the specification
    stated and settled against them. *)

From Stdlib Require Import ZArith NArith Lia.
From Stdlib Require Import Strings.Byte Strings.Ascii Strings.String.
From stdpp Require Import base option list strings pretty gmap.

Local Open Scope N_scope.

(** ** JavaScript primitives used by the codec *)

(** A [Buffer] is a sequence of bytes. *)
Abbreviation Buffer := (list byte).

Definition byte_eqb (a b : byte) : bool := Byte.eqb a b.

#[global] Instance byte_eq_decision : EqDecision byte := Byte.byte_eq_dec.

(** [buf.length] as a JavaScript number. *)
Definition blen (b : Buffer) : N := N.of_nat (length b).

Module Js.

(** One hexadecimal digit, as [Number.prototype.toString(16)] prints it. *)
Definition hexChar (d : N) : ascii :=
  match d with
  | 0 => "0" | 1 => "1" | 2 => "2" | 3 => "3" | 4 => "4"
  | 5 => "5" | 6 => "6" | 7 => "7" | 8 => "8" | 9 => "9"
  | 10 => "a" | 11 => "b" | 12 => "c" | 13 => "d" | 14 => "e"
  | _ => "f"
  end%char.

(** The value of a character that [parseInt(_, 16)] accepts as a digit. *)
Definition hexVal (c : ascii) : option N :=
  let n := N_of_ascii c in
  if (48 <=? n) && (n <=? 57) then Some (n - 48)
  else if (97 <=? n) && (n <=? 102) then Some (n - 87)
  else if (65 <=? n) && (n <=? 70) then Some (n - 55)
  else None.

(** [n.toString(16)] for a non-negative integer: the digits are produced
    from the least significant one; [fuel] bounds the number of digits. *)
Fixpoint toString16_loop (fuel : nat) (n : N) (acc : string) : string :=
  match fuel with
  | O => acc
  | S fuel' =>
      let acc' := String (hexChar (n mod 16)) acc in
      if n / 16 =? 0 then acc' else toString16_loop fuel' (n / 16) acc'
  end.

Definition toString16 (n : N) : string :=
  toString16_loop (S (N.to_nat (N.size n))) n EmptyString.

(** [parseInt(s, 16)] on a string without sign, blank or [0x] prefix (the
    codec only parses strings of digits it has printed itself): the longest
    prefix of hexadecimal digits; [None] stands for [NaN]. *)
Fixpoint parseInt16_loop (s : string) (acc : N) (seen : bool) : option N :=
  match s with
  | EmptyString => if seen then Some acc else None
  | String c s' =>
      match hexVal c with
      | Some d => parseInt16_loop s' (acc * 16 + d) true
      | None => if seen then Some acc else None
      end
  end.

Definition parseInt16 (s : string) : option N := parseInt16_loop s 0 false.

(** [n.toString()] in base ten. *)
Definition toString10 (n : N) : string := pretty n.

(** A value flowing through the [reduce] callback of the decoder: the
    first accumulator is a number, the following ones are strings. *)
Inductive value :=
| Num (n : N)
| Str (s : string).

(** [v.toString(16)]: the radix is ignored by [String.prototype.toString]. *)
Definition value_toString16 (v : value) : string :=
  match v with
  | Num n => toString16 n
  | Str s => s
  end.

(** [parseInt(v, 16)]: a number is first converted with [String(v)]. *)
Definition value_parseInt16 (v : value) : option N :=
  match v with
  | Num n => parseInt16 (toString10 n)
  | Str s => parseInt16 s
  end.

(** [arr.reduce(f)] without an initial value: [None] stands for the
    [TypeError] raised on an empty array. *)
Definition reduce (f : value -> N -> value) (l : list N) : option value :=
  match l with
  | [] => None
  | x :: xs => Some (fold_left f xs (Num x))
  end.

(** [s.slice(from, to)] and [s.slice(from)] on strings, for indices
    that are not negative. *)
Definition str_slice (from to : nat) (s : string) : string :=
  String.substring from (to - from) s.

Definition str_slice_from (from : nat) (s : string) : string :=
  String.substring from (String.length s - from) s.

(** Storing a number into a [Uint8Array] slot: [NaN] becomes 0, an
    integer is reduced modulo 256. *)
Definition toUint8 (v : option N) : byte :=
  match v with
  | None => x00
  | Some n => default x00 (Byte.of_N (n mod 256))
  end.

(** A relative index of [slice]: negative counts from the end, and the
    result is clamped to the length. *)
Definition clamp (len : nat) (i : Z) : nat :=
  if (i <? 0)%Z then Z.to_nat (Z.max 0 (Z.of_nat len + i))
  else Nat.min (Z.to_nat i) len.

(** [buf.slice(from, to)] and [buf.slice(from)]. *)
Definition slice {A} (from to : Z) (l : list A) : list A :=
  let a := clamp (length l) from in
  let b := clamp (length l) to in
  take (b - a) (drop a l).

Definition slice_from {A} (from : Z) (l : list A) : list A :=
  drop (clamp (length l) from) l.

(** [a.equals(b)] on buffers. *)
Definition equals (a b : Buffer) : bool := bool_decide (a = b).

(** Does [l] start with [pat]? *)
Fixpoint startsWith (pat l : Buffer) : bool :=
  match pat, l with
  | [], _ => true
  | _ :: _, [] => false
  | p :: pat', x :: l' => byte_eqb p x && startsWith pat' l'
  end.

(** [buf.indexOf(pat)]: the first position where [pat] occurs, or -1. *)
Fixpoint indexOf_from (pat l : Buffer) (i : Z) : Z :=
  if startsWith pat l then i
  else match l with
       | [] => (-1)%Z
       | _ :: l' => indexOf_from pat l' (i + 1)%Z
       end.

Definition indexOf (pat l : Buffer) : Z := indexOf_from pat l 0%Z.

End Js.

(** ** The signal protocol ([src/signal.js]) *)

Module Signal.
Import Js.

Definition START : Buffer := [x12; x23; x33].
Definition END : Buffer := [xab; xcd; xef].
Definition BOUNDARY : Buffer := [x10; x03].
Definition JOINT : Buffer := END ++ START.
Definition MAX : N := 5.
Definition MAX_INFO_SIZE : N := MAX * 1024 * 1024.

(** The reassembly area of a connection: the socket object itself, whose
    [cache] property is [undefined] until first written. *)
Record Zone := { cache : option Buffer }.

(** What the inner [decode] returns: a frame [{type, content, note}],
    where [type] is [cache[6]] (so [undefined] when out of range), or an
    object flagged [incomplete]. *)
Inductive Decoded :=
| Frame (type : option byte) (content note : Buffer)
| Incomplete.

Definition incomplete (d : Decoded) : bool :=
  match d with
  | Frame _ _ _ => false
  | Incomplete => true
  end.

(** [zeroFillBuffers]: the loop runs at most [length] times. *)
Fixpoint zeroFillBuffers_loop (fuel : nat) (content : string) (length : nat)
  : string :=
  match fuel with
  | O => content
  | S fuel' =>
      if (String.length content <? length)%nat
      then zeroFillBuffers_loop fuel' (String "0" content) length
      else content
  end.

Definition zeroFillBuffers (content : string) (length : nat) : string :=
  zeroFillBuffers_loop length content length.

(** [split]: the pieces in the order [cut] pushes them. Every recursive
    call of [cut] is on a strictly shorter buffer, so the length of the
    data is enough fuel. *)
Fixpoint cut (fuel : nat) (data : Buffer) : list Buffer :=
  let index := indexOf JOINT data in
  if (index =? -1)%Z then [data]
  else
    match fuel with
    | O => [data]
    | S fuel' =>
        let slice_ := slice 0 (index + Z.of_N (blen END)) data in
        let surplus := slice_from (index + Z.of_N (blen END)) data in
        slice_ :: cut fuel' surplus
    end.

Definition split (data : Buffer) : list Buffer := cut (length data) data.

(** The length the decoder reads back from the three length bytes. *)
Definition declared (lengthBytes : Buffer) : option (option N) :=
  value_parseInt16 <$>
    reduce (fun result next => Str (value_toString16 result +:+ toString16 next))
           (Byte.to_N <$> lengthBytes).

(** [MAX_INFO_SIZE < length], false when [length] is [NaN]. *)
Definition exceeds (length : option N) : bool :=
  match length with
  | Some n => MAX_INFO_SIZE <? n
  | None => false
  end.

(** The inner [decode]: the outcome ([None] when the call throws) and the
    zone as the call leaves it. *)
Definition decode (data : Buffer) (zone : Zone) : option Decoded * Zone :=
  let cache_ := default [] (cache zone) ++ data in
  let zone := {| cache := Some cache_ |} in
  if negb (equals START (slice 0 3 cache_))
     || negb (equals END (slice_from (Z.of_nat (length cache_) - 3) cache_))
  then (Some Incomplete, zone)
  else
    let type := cache_ !! 6%nat in
    match declared (slice 3 6 cache_) with
    | None => (None, zone)
    | Some length_ =>
        if exceeds length_ then (Some Incomplete, zone)
        else
          let cache_ := slice 7 (Z.of_nat (length cache_) - 3) cache_ in
          let index := indexOf BOUNDARY cache_ in
          let note := slice 0 index cache_ in
          let content := slice_from (index + Z.of_N (blen BOUNDARY)) cache_ in
          (Some (Frame type content note), {| cache := Some [] |})
    end.

(** [chunks.map(chunk => decode(chunk, zone))], threading the zone. *)
Fixpoint decode_each (chunks : list Buffer) (zone : Zone)
  : option (list Decoded) * Zone :=
  match chunks with
  | [] => (Some [], zone)
  | chunk :: rest =>
      match decode chunk zone with
      | (None, zone') => (None, zone')
      | (Some d, zone') =>
          let '(ds, zone'') := decode_each rest zone' in
          (cons d <$> ds, zone'')
      end
  end.

Module exports.

(* client signals 0~127 *)
Definition CLIENT_INIT : byte := x00.
Definition CLIENT_FILE_CHANGE : byte := x01.
Definition CLIENT_FILE_DELETE : byte := x02.
Definition CLIENT_FILE_CHECK : byte := x03.
Definition CLIENT_FILE_SYNC : byte := x04.
Definition CLIENT_NUMBER_OF_CHECK_FILES : byte := x05.
Definition CLIENT_DEVELOPMENT : byte := x06.
Definition CLIENT_BUILD : byte := x07.
Definition CLIENT_SYNC_FILES_MD5 : byte := x08.

(* server signals 128~255 *)
Definition SERVER_INIT_DONE : Buffer := [xff].
Definition SERVER_FILE_UPDATE : Buffer := [xfe].
Definition SERVER_CHECK_OFF : Buffer := [xfd].
Definition SERVER_DEV_SERVER_START : Buffer := [xfc].
Definition SERVER_BUILD_FILE_SYNC : Buffer := [xfb].
Definition SERVER_CONSOLE : Buffer := [xbb].
Definition SERVER_FIN : Buffer := [x80].

(** [decode(data, zone)]: the frames completed by this chunk. *)
Definition decode (data : Buffer) (zone : Zone)
  : option (list Decoded) * Zone :=
  let '(ds, zone') := decode_each (split data) zone in
  (filter (fun data => negb (incomplete data)) <$> ds, zone').

(** [encode(signal, content, note)]: [None] is the empty object
    returned when the frame would exceed the size limit; a missing or
    non-buffer [content] or [note] is [None]. *)
Definition encode (signal : Buffer) (content note : option Buffer)
  : option Buffer :=
  let content := default [] content in
  let note := default [] note in
  let length_ :=
    blen START + 3 + 1 + blen note + blen BOUNDARY + blen content + blen END in
  let length_x16 := zeroFillBuffers (toString16 length_) 6 in
  if MAX_INFO_SIZE <? length_ then None
  else
    let length_buf :=
      [ toUint8 (parseInt16 (str_slice 0 2 length_x16));
        toUint8 (parseInt16 (str_slice 2 4 length_x16));
        toUint8 (parseInt16 (str_slice_from 4 length_x16)) ] in
    Some (START ++ length_buf ++ signal ++ note ++ BOUNDARY ++ content ++ END).

End exports.

End Signal.

(** ** Reference definitions for the codec *)

Module CodecSpec.
Import Js Signal.

(** What re-joining un-padded hexadecimal texts computes: a byte below 16
    contributes one digit, so the bytes before it are shifted by 16
    instead of 256. *)
Definition hexWidth (x : N) : N := if x <? 16 then 16 else 256.

Definition rejoin (x0 x1 x2 : N) : N :=
  (x0 * hexWidth x1 + x1) * hexWidth x2 + x2.

(** The three bytes rendered by [encode] for a length. *)
Definition lengthBytes (n : N) : Buffer :=
  let length_x16 := zeroFillBuffers (toString16 n) 6 in
  [ toUint8 (parseInt16 (str_slice 0 2 length_x16));
    toUint8 (parseInt16 (str_slice 2 4 length_x16));
    toUint8 (parseInt16 (str_slice_from 4 length_x16)) ].

(** A run of [k] zero digits, the padding of [zeroFillBuffers]. *)
Fixpoint zeros (k : nat) : string :=
  match k with
  | O => ""
  | S k' => String "0" (zeros k')
  end.

(** The [k] low hexadecimal digits of [n], most significant first. *)
Fixpoint fixedHex (k : nat) (n : N) : string :=
  match k with
  | O => ""
  | S k' => fixedHex k' (n / 16) +:+ String (hexChar (n mod 16)) ""
  end.

(** The total length [encode] computes: the markers, three length bytes
    and one signal byte, whatever the length of [signal]. *)
Definition frameLength (content note : Buffer) : N :=
  blen START + 3 + 1 + blen note + blen BOUNDARY + blen content + blen END.

(** An empty reassembly buffer: never written, or reset. *)
Definition emptyZone (zone : Zone) : Prop :=
  cache zone = None \/ cache zone = Some [].

(** A length has a byte below 16 with a non-zero byte before it: the
    un-padded digit of that byte shifts the digits before it. *)
Definition shifted (n : N) : Prop :=
  ((n / 256) mod 256 < 16 /\ 0 < n / 65536) \/ (n mod 256 < 16 /\ 0 < n / 256).

(** Successive [decode] calls on the chunks of a stream, with the same
    zone: the frames of all calls, in order. *)
Fixpoint decode_chunks (chunks : list Buffer) (zone : Zone)
  : option (list Decoded) * Zone :=
  match chunks with
  | [] => (Some [], zone)
  | chunk :: rest =>
      match exports.decode chunk zone with
      | (None, zone') => (None, zone')
      | (Some frames, zone') =>
          let '(more, zone'') := decode_chunks rest zone' in
          (app frames <$> more, zone'')
      end
  end.

End CodecSpec.

(** ** The worker: one connection ([onConnect], [handle] and the handlers) *)

Module Worker.
Import Signal.

(** *** What lies outside the worker *)

(** The parsed payload of an init message; a property that is missing or
    not a string is [None]. *)
Record InitInfo := {
  info_uid : option string;
  info_project : option string;
  info_builder : option string
}.

(** A JavaScript number as the countdown of the check barrier uses it: an
    integer (exact within the safe range) or a value that subtracting one
    never brings to zero ([NaN], a fraction, an infinity). *)
Inductive Number :=
| Int (z : Z)
| NotAnInteger.

(** The texts sent to the client console. *)
Inductive Text :=
| ConnectionInitialized
| DirectoryCheckFailed
| FileWriteFailed
| FailedToLoadNpm
| Installing
| FailedToInstall
| Installed
| CompletedProjectSync
| WaitingForSync
| FailedToReadFile (relative : string)
| BuildDone
| FailedToBuild.

(** The collaborators of the worker: hashing, string and JSON conversion,
    [path], [chalk], [require] and the configuration. *)
Record Env := {
  md5 : Buffer -> Buffer;
  toString : Buffer -> string;
  fromString : string -> Buffer;
  (** [JSON.parse] of an init payload followed by the destructuring of
      [init]; [None] when either throws. *)
  parseInit : string -> option InitInfo;
  (** [JSON.parse] of a hash set: [None] when it throws, [Some None] for
      [null], else the truthiness of each property. *)
  parseIgnore : string -> option (option (gmap string bool));
  (** Unary plus on a string. *)
  toNumber : string -> Number;
  (** [path.posix.resolve(projectsDir, uid, project, relative)]. *)
  resolve : string -> string -> string -> string;
  path_join : string -> string -> string;
  path_relative : string -> string -> string;
  (** Does [require(name)] find a builder module? *)
  loadable : string -> bool;
  (** The text after [chalk] has coloured it. *)
  render : Text -> string
}.

(** *** The state of a connection *)

Inductive PromiseState := Pending | Fulfilled | Rejected.

(** The [cb] argument of [fileCover] as [fileSync] builds it. *)
Inductive Callback :=
| Resolve (p : nat)
| CheckedThenResolve (p : nat).

(** The function given to [then] after [Promise.all]. *)
Inductive Reaction :=
| CheckOff
| BuildFinished.

(** A promise made by [Promise.all(deps).then(reaction)]. *)
Record AllPromise := {
  deps : list nat;
  reaction : Reaction;
  all_state : PromiseState
}.

(** An asynchronous operation in flight, with what its callback needs. *)
Inductive Op :=
| DirCheck (filepath : string) (content : Buffer) (isPackageJson : bool)
           (cb : option Callback)
| WriteFile (filepath : string) (isPackageJson : bool) (cb : option Callback)
| NpmLoad (p : nat)
| NpmInstall (p : nat)
| Unlink (filepath : string)
| CheckRead (filepath : string) (info : Buffer)
| DevReady
| BuilderBuild (root : string)
| BuildRead (root buildPath filepath : string) (p : nat)
| Flush (p : nat).

(** The properties the worker keeps on the socket object; each is
    [undefined] ([None], [false]) until assigned. [checked] holds the
    [total] captured by the closure [fileCheckCallBack] installs. *)
Record Socket := {
  uid : option string;
  project : option string;
  builder : option string;
  zone : Zone;
  sync : option (list nat);
  checked : option Number;
  console : bool;
  closed : option PromiseState;
  distIgnore : option (gmap string bool)
}.

Record State := {
  socket : Socket;
  (** the promises made with [new Promise], by number *)
  promises : list PromiseState;
  alls : list AllPromise;
  ops : list Op;
  (** the buffers written to the socket, oldest first *)
  out : list Buffer;
  (** development builders started and not closed *)
  devs : nat;
  (** an exception left a handler: the process is gone *)
  crashed : bool;
  (** history: how often [socket.checked()] has been entered *)
  calls : nat
}.

Definition freshSocket : Socket :=
  {| uid := None; project := None; builder := None; zone := {| cache := None |};
     sync := None; checked := None; console := false; closed := None;
     distIgnore := None |}.

Definition freshState : State :=
  {| socket := freshSocket; promises := []; alls := []; ops := []; out := [];
     devs := 0; crashed := false; calls := 0 |}.

Definition with_socket (f : Socket -> Socket) (s : State) : State :=
  {| socket := f (socket s); promises := promises s; alls := alls s;
     ops := ops s; out := out s; devs := devs s; crashed := crashed s;
     calls := calls s |}.

Definition with_promises (f : list PromiseState -> list PromiseState) (s : State)
  : State :=
  {| socket := socket s; promises := f (promises s); alls := alls s;
     ops := ops s; out := out s; devs := devs s; crashed := crashed s;
     calls := calls s |}.

Definition with_alls (f : list AllPromise -> list AllPromise) (s : State) : State :=
  {| socket := socket s; promises := promises s; alls := f (alls s);
     ops := ops s; out := out s; devs := devs s; crashed := crashed s;
     calls := calls s |}.

Definition with_ops (f : list Op -> list Op) (s : State) : State :=
  {| socket := socket s; promises := promises s; alls := alls s;
     ops := f (ops s); out := out s; devs := devs s; crashed := crashed s;
     calls := calls s |}.

Definition with_out (f : list Buffer -> list Buffer) (s : State) : State :=
  {| socket := socket s; promises := promises s; alls := alls s;
     ops := ops s; out := f (out s); devs := devs s; crashed := crashed s;
     calls := calls s |}.

Definition with_devs (f : nat -> nat) (s : State) : State :=
  {| socket := socket s; promises := promises s; alls := alls s;
     ops := ops s; out := out s; devs := f (devs s); crashed := crashed s;
     calls := calls s |}.

Definition with_calls (f : nat -> nat) (s : State) : State :=
  {| socket := socket s; promises := promises s; alls := alls s;
     ops := ops s; out := out s; devs := devs s; crashed := crashed s;
     calls := f (calls s) |}.

Definition crash (s : State) : State :=
  {| socket := socket s; promises := promises s; alls := alls s;
     ops := ops s; out := out s; devs := devs s; crashed := true;
     calls := calls s |}.

Definition set_zone (z : Zone) (k : Socket) : Socket :=
  {| uid := uid k; project := project k; builder := builder k; zone := z;
     sync := sync k; checked := checked k; console := console k;
     closed := closed k; distIgnore := distIgnore k |}.

Definition set_sync (v : option (list nat)) (k : Socket) : Socket :=
  {| uid := uid k; project := project k; builder := builder k; zone := zone k;
     sync := v; checked := checked k; console := console k;
     closed := closed k; distIgnore := distIgnore k |}.

Definition set_checked (v : option Number) (k : Socket) : Socket :=
  {| uid := uid k; project := project k; builder := builder k; zone := zone k;
     sync := sync k; checked := v; console := console k;
     closed := closed k; distIgnore := distIgnore k |}.

Definition set_closed (v : option PromiseState) (k : Socket) : Socket :=
  {| uid := uid k; project := project k; builder := builder k; zone := zone k;
     sync := sync k; checked := checked k; console := console k;
     closed := v; distIgnore := distIgnore k |}.

Definition set_distIgnore (v : option (gmap string bool)) (k : Socket) : Socket :=
  {| uid := uid k; project := project k; builder := builder k; zone := zone k;
     sync := sync k; checked := checked k; console := console k;
     closed := closed k; distIgnore := v |}.

(** *** Handlers as state transformers that may throw *)

Inductive Outcome (A : Type) :=
| Return (a : A) (s : State)
| Throw (s : State).
Arguments Return {A} a s.
Arguments Throw {A} s.

Definition M (A : Type) : Type := State -> Outcome A.

Definition ret {A} (a : A) : M A := fun s => Return a s.

Definition throw {A} : M A := fun s => Throw s.

Definition bind {A B} (m : M A) (k : A -> M B) : M B :=
  fun s =>
    match m s with
    | Return a s' => k a s'
    | Throw s' => Throw s'
    end.

Notation "'let*' x := m 'in' k" := (bind m (fun x => k))
  (at level 10, x name, m at level 100, k at level 200).
Notation "m >> k" := (bind m (fun _ => k))
  (at level 100, k at level 200, right associativity).

Definition get : M State := fun s => Return s s.

Definition modify (f : State -> State) : M unit := fun s => Return tt (f s).

(** Run [m]; an exception it raises is handed to [handler]. *)
Definition catch (m : M unit) (handler : M unit) : M unit :=
  fun s =>
    match m s with
    | Return a s' => Return a s'
    | Throw s' => handler s'
    end.

(** An exception in a promise callback is swallowed by the promise. *)
Definition swallow (m : M unit) : State -> State :=
  fun s =>
    match m s with
    | Return _ s' => s'
    | Throw s' => s'
    end.

Section Handlers.
Variable env : Env.

(** [socket.write(data)]: the empty object [encode] returns for an
    oversize frame is not a buffer and is refused with an exception. *)
Definition write (data : option Buffer) : M unit :=
  match data with
  | Some bytes => modify (with_out (fun o => o ++ [bytes]))
  | None => throw
  end.

(** [socket.console(info)], from [clientConsole]. *)
Definition console_ (info : Text) : M unit :=
  let* s := get in
  if console (socket s)
  then write (exports.encode exports.SERVER_CONSOLE
                (Some (fromString env (render env info))) None)
  else throw.

(** [relativeToAbsolute(socket, relative)]: [path.posix.resolve] throws
    on an argument that is not a string. *)
Definition relativeToAbsolute (relative : string) : M string :=
  let* s := get in
  match uid (socket s), project (socket s) with
  | Some u, Some p => ret (resolve env u p relative)
  | _, _ => throw
  end.

Definition startOp (op : Op) : M unit := modify (with_ops (fun o => o ++ [op])).

(** [resolve()] and [reject(err)]: only a pending promise changes. *)
Definition settleIn (p : nat) (v : PromiseState) (ps : list PromiseState)
  : list PromiseState :=
  match ps !! p with
  | Some Pending => <[p := v]> ps
  | _ => ps
  end.

Definition settlePromise (p : nat) (v : PromiseState) : M unit :=
  modify (with_promises (settleIn p v)).

(** [new Promise(executor)]: the number of the new promise. The executor
    runs at once; an exception it raises rejects the promise. *)
Definition newPromise (executor : nat -> M unit) : M nat :=
  let* s := get in
  let p := length (promises s) in
  modify (with_promises (fun ps => ps ++ [Pending])) >>
  (fun s' =>
     match executor p s' with
     | Return _ s'' => Return p s''
     | Throw s'' => Return p (with_promises (settleIn p Rejected) s'')
     end).

(** [socket.sync.push(p)], where reading [push] from an undefined
    [socket.sync] throws before the argument is evaluated. *)
Definition syncPush (make : M nat) : M unit :=
  let* s := get in
  match sync (socket s) with
  | None => throw
  | Some _ =>
      let* p := make in
      modify (with_socket (fun k =>
        set_sync (option_map (fun l => l ++ [p]) (sync k)) k))
  end.

(** [total -= 1] *)
Definition decrement (total : Number) : Number :=
  match total with
  | Int z => Int (z - 1)
  | NotAnInteger => NotAnInteger
  end.

(** [socket.checked()]: the closure installed by [fileCheckCallBack];
    calling the undefined property throws. *)
Definition checked_ : M unit :=
  let* s := get in
  match checked (socket s) with
  | None => throw
  | Some total =>
      modify (with_calls S) >>
      let total := decrement total in
      modify (with_socket (set_checked (Some total))) >>
      match total with
      | Int 0 =>
          modify (with_alls (fun l =>
            l ++ [ {| deps := default [] (sync (socket s));
                      reaction := CheckOff;
                      all_state := match sync (socket s) with
                                   | Some _ => Pending
                                   | None => Rejected
                                   end |} ]))
      | _ => ret tt
      end
  end.

(** [init] *)
Definition init (info : InitInfo) : M unit :=
  modify (with_socket (fun k =>
    {| uid := info_uid info; project := info_project info;
       builder := info_builder info; zone := {| cache := Some [] |};
       sync := Some []; checked := None; console := true;
       closed := Some Pending; distIgnore := distIgnore k |})) >>
  write (exports.encode exports.SERVER_INIT_DONE None None) >>
  console_ ConnectionInitialized.

(** [fileCover] up to the call of [dirCheck]; the callbacks are in
    [complete]. *)
Definition fileCover (filepath : string) (content : Buffer) (cb : option Callback)
  : M unit :=
  let isPackageJson := String.eqb filepath "package.json" in
  let* filepath := relativeToAbsolute filepath in
  startOp (DirCheck filepath content isPackageJson cb).

(** [fileDelete] *)
Definition fileDelete (filepath : string) : M unit :=
  let* filepath := relativeToAbsolute filepath in
  startOp (Unlink filepath).

(** [fileCheck] up to the call of [fs.readFile]. *)
Definition fileCheck (filepath : string) (info : Buffer) : M unit :=
  let* absolute := relativeToAbsolute filepath in
  startOp (CheckRead filepath info).

(** [fileSync] *)
Definition fileSync (filepath : string) (content : Buffer) : M unit :=
  let isPackageJson := String.eqb filepath "package.json" in
  syncPush (newPromise (fun p =>
    let cb := if negb isPackageJson then Resolve p else CheckedThenResolve p in
    fileCover filepath content (Some cb))) >>
  if negb isPackageJson then checked_ else ret tt.

(** [fileCheckCallBack] *)
Definition fileCheckCallBack (total : Number) : M unit :=
  modify (with_socket (set_checked (Some total))).

(** [require(socket.builder)] *)
Definition requireBuilder : M unit :=
  let* s := get in
  match builder (socket s) with
  | Some name => if loadable env name then ret tt else throw
  | None => throw
  end.

(** [development] *)
Definition development : M unit :=
  requireBuilder >>
  let* root := relativeToAbsolute "" in
  modify (with_devs S) >>
  startOp DevReady >>
  let* s := get in
  match closed (socket s) with
  | Some _ => ret tt
  | None => throw
  end.

(** [build] up to the call of the builder. *)
Definition build : M unit :=
  let* root := relativeToAbsolute "" in
  requireBuilder >>
  startOp (BuilderBuild root).

(** [handle]: the [switch] on the type; a type without a case does
    nothing. *)
Definition handle (type : option byte) (content note : Buffer) : M unit :=
  match type with
  | Some t =>
      if decide (t = exports.CLIENT_INIT) then
        match parseInit env (toString env content) with
        | Some info => init info
        | None => throw
        end
      else if decide (t = exports.CLIENT_FILE_CHANGE) then
        fileCover (toString env note) content None
      else if decide (t = exports.CLIENT_FILE_DELETE) then
        fileDelete (toString env note)
      else if decide (t = exports.CLIENT_FILE_CHECK) then
        fileCheck (toString env note) content
      else if decide (t = exports.CLIENT_FILE_SYNC) then
        fileSync (toString env note) content
      else if decide (t = exports.CLIENT_NUMBER_OF_CHECK_FILES) then
        fileCheckCallBack (toNumber env (toString env content))
      else if decide (t = exports.CLIENT_DEVELOPMENT) then
        development
      else if decide (t = exports.CLIENT_SYNC_FILES_MD5) then
        match parseIgnore env (toString env content) with
        | Some v => modify (with_socket (set_distIgnore v))
        | None => throw
        end
      else if decide (t = exports.CLIENT_BUILD) then
        build
      else ret tt
  | None => ret tt
  end.

(** *** The callbacks of the asynchronous operations *)

(** What the outside answers when an operation ends. *)
Inductive Answer :=
| Failed
| Succeeded
(** [fs.writeFile] succeeded; [installStarts] tells whether the
    synchronous part of [install] (loading [npm] and the manifest, listing
    its dependencies) goes through. *)
| Written (installStarts : bool)
| Data (data : Buffer)
(** the builder resolved, and [readFiles] lists these files *)
| Built (files : list string).

(** [cb && cb()] at the end of [fileCover]. *)
Definition callback (cb : option Callback) : M unit :=
  match cb with
  | None => ret tt
  | Some (Resolve p) => settlePromise p Fulfilled
  | Some (CheckedThenResolve p) => checked_ >> settlePromise p Fulfilled
  end.

(** The start of [install] inside its promise: the arguments are
    evaluated, then the synchronous part runs. *)
Definition install (installStarts : bool) (p : nat) : M unit :=
  let* prefix := relativeToAbsolute "" in
  if installStarts then startOp (NpmLoad p) else throw.

(** The file of [dist] read for a build. *)
Definition buildFile (buildPath filepath : string) (data : Buffer) (p : nat)
  : M unit :=
  let* s := get in
  match distIgnore (socket s) with
  | None => throw
  | Some ignore =>
      if default false (ignore !! toString env (md5 env data))
      then settlePromise p Fulfilled
      else
        write (exports.encode exports.SERVER_BUILD_FILE_SYNC (Some data)
                 (Some (fromString env (path_relative env buildPath filepath)))) >>
        startOp (Flush p)
  end.

(** [files.map(filepath => new Promise(...))]: one promise and one
    [fs.readFile] per file. *)
Fixpoint readEach (root buildPath : string) (files : list string) : M (list nat) :=
  match files with
  | [] => ret []
  | filepath :: rest =>
      let* p := newPromise (fun p => startOp (BuildRead root buildPath filepath p)) in
      let* ps := readEach root buildPath rest in
      ret (p :: ps)
  end.

(** The function given to [builder.then]. *)
Definition built (root : string) (files : list string) : M unit :=
  let buildPath := path_join env root "dist" in
  console_ WaitingForSync >>
  let* ps := readEach root buildPath files in
  modify (with_alls (fun l =>
    l ++ [ {| deps := ps; reaction := BuildFinished; all_state := Pending |} ])).

(** The callback of an operation for an answer; [None] when the
    operation cannot end with that answer. *)
Definition complete (op : Op) (answer : Answer) : option (M unit) :=
  match op, answer with
  | DirCheck filepath content isPackageJson cb, Failed =>
      Some (console_ DirectoryCheckFailed)
  | DirCheck filepath content isPackageJson cb, Succeeded =>
      Some (startOp (WriteFile filepath isPackageJson cb))
  | WriteFile filepath isPackageJson cb, Failed =>
      Some (console_ FileWriteFailed)
  | WriteFile filepath isPackageJson cb, Written installStarts =>
      Some ((if isPackageJson
             then syncPush (newPromise (install installStarts))
             else ret tt) >>
            callback cb)
  | NpmLoad p, Failed => Some (console_ FailedToLoadNpm)
  | NpmLoad p, Succeeded => Some (console_ Installing >> startOp (NpmInstall p))
  | NpmInstall p, Failed => Some (console_ FailedToInstall)
  | NpmInstall p, Succeeded => Some (console_ Installed >> settlePromise p Fulfilled)
  | Unlink filepath, (Failed | Succeeded) => Some (ret tt)
  | CheckRead filepath info, Failed =>
      Some (write (exports.encode exports.SERVER_FILE_UPDATE None
                     (Some (fromString env filepath))))
  | CheckRead filepath info, Data file =>
      Some (if negb (Js.equals info (md5 env file))
            then write (exports.encode exports.SERVER_FILE_UPDATE None
                          (Some (fromString env filepath)))
            else checked_)
  | DevReady, Succeeded =>
      Some (write (exports.encode exports.SERVER_DEV_SERVER_START None None))
  | DevReady, Failed => Some (ret tt)
  | BuilderBuild root, Built files =>
      Some (catch (built root files) (fun s => Return tt (swallow (console_ FailedToBuild) s)))
  | BuilderBuild root, Failed =>
      Some (fun s => Return tt (swallow (console_ FailedToBuild) s))
  | BuildRead root buildPath filepath p, Failed =>
      Some (console_ (FailedToReadFile (path_relative env root filepath)) >>
            settlePromise p Rejected)
  | BuildRead root buildPath filepath p, Data data =>
      Some (buildFile buildPath filepath data p)
  | Flush p, (Failed | Succeeded) => Some (settlePromise p Fulfilled)
  | _, _ => None
  end.

(** *** Promise reactions *)

(** The functions given to [then]. *)
Definition react (r : Reaction) : M unit :=
  match r with
  | CheckOff =>
      write (exports.encode exports.SERVER_CHECK_OFF None None) >>
      console_ CompletedProjectSync
  | BuildFinished =>
      console_ BuildDone >>
      write (exports.encode exports.SERVER_FIN None None)
  end.

(** Where [Promise.all] stands: rejected as soon as one promise is,
    fulfilled once all are. *)
Definition rejected (ps : list PromiseState) (p : nat) : bool :=
  match ps !! p with
  | Some Rejected => true
  | _ => false
  end.

Definition fulfilled (ps : list PromiseState) (p : nat) : bool :=
  match ps !! p with
  | Some Fulfilled => true
  | _ => false
  end.

Definition allOf (ps : list PromiseState) (deps : list nat) : PromiseState :=
  if existsb (rejected ps) deps then Rejected
  else if forallb (fulfilled ps) deps then Fulfilled
  else Pending.

(** The promise jobs that run once a callback has returned: every pending
    [Promise.all] is looked at in the order of creation, and its reaction
    runs when it is fulfilled. *)
Fixpoint settle (pending : list AllPromise) (done : list AllPromise) (s : State)
  : State :=
  match pending with
  | [] => with_alls (fun _ => done) s
  | a :: rest =>
      match all_state a with
      | Pending =>
          match allOf (promises s) (deps a) with
          | Pending => settle rest (done ++ [a]) s
          | Fulfilled =>
              settle rest
                (done ++ [ {| deps := deps a; reaction := reaction a;
                              all_state := Fulfilled |} ])
                (swallow (react (reaction a)) s)
          | Rejected =>
              settle rest
                (done ++ [ {| deps := deps a; reaction := reaction a;
                              all_state := Rejected |} ])
                s
          end
      | _ => settle rest (done ++ [a]) s
      end
  end.

(** The end of a callback: an exception that leaves it ends the process,
    otherwise the promise jobs run. *)
Definition finish (o : Outcome unit) : State :=
  match o with
  | Return _ s => settle (alls s) [] s
  | Throw s => crash s
  end.

(** *** The events of a connection *)

Inductive Event :=
(** a decoded frame reaches [handle] *)
| Receive (type : option byte) (content note : Buffer)
(** the operation at this position in [ops] ends with this answer *)
| Complete (i : nat) (answer : Answer)
(** the socket emits [close] or [error] *)
| Close.

(** One event; [None] when the event cannot happen in this state. *)
Definition step (ev : Event) (s : State) : option State :=
  if crashed s then None
  else
    match ev with
    | Receive type content note => Some (finish (handle type content note s))
    | Complete i answer =>
        match ops s !! i with
        | Some op =>
            match complete op answer with
            | Some m => Some (finish (m (with_ops (delete i) s)))
            | None => None
            end
        | None => None
        end
    | Close =>
        match closed (socket s) with
        | Some _ =>
            Some (with_devs (fun _ => 0%nat)
                    (with_socket (set_closed (Some Fulfilled)) s))
        | None => Some s
        end
    end.

(** A sequence of events, oldest first. *)
Fixpoint run (evs : list Event) (s : State) : option State :=
  match evs with
  | [] => Some s
  | ev :: rest =>
      match step ev s with
      | Some s' => run rest s'
      | None => None
      end
  end.

(** [frames.forEach(info => handle(socket, info))] *)
Fixpoint handleEach (frames : list Decoded) : M unit :=
  match frames with
  | [] => ret tt
  | Frame type content note :: rest =>
      handle type content note >> handleEach rest
  | Incomplete :: rest => handleEach rest
  end.

(** [onConnect]: a chunk of data is decoded with the socket as zone, and
    each frame is handled in turn, all within one callback. *)
Definition onData (chunk : Buffer) (s : State) : State :=
  match exports.decode chunk (zone (socket s)) with
  | (None, z) => crash (with_socket (set_zone z) s)
  | (Some frames, z) => finish (handleEach frames (with_socket (set_zone z) s))
  end.

End Handlers.

End Worker.

(** ** A sample environment for concrete runs *)

Module Sample.
Import Signal Worker.

(** Unary plus on a string of decimal digits. *)
Fixpoint digits (s : string) (acc : Z) : Number :=
  match s with
  | EmptyString => Int acc
  | String c s' =>
      let n := N_of_ascii c in
      if (48 <=? n) && (n <=? 57)
      then digits s' (acc * 10 + Z.of_N (n - 48))%Z
      else NotAnInteger
  end.

Definition env : Env :=
  {| md5 := fun data => take 16 (data ++ replicate 16 x00);
     toString := String.string_of_list_byte;
     fromString := String.list_byte_of_string;
     parseInit := fun text =>
       if String.eqb text "null" then None
       else Some {| info_uid := Some "u1"; info_project := Some "demo";
                    info_builder := Some "sl-builder" |};
     parseIgnore := fun text =>
       if String.eqb text "null" then Some None
       else Some (Some {[ text := true ]});
     toNumber := fun text => digits text 0;
     resolve := fun u p relative =>
       if String.eqb relative "" then "/srv/" +:+ u +:+ "/" +:+ p
       else "/srv/" +:+ u +:+ "/" +:+ p +:+ "/" +:+ relative;
     path_join := fun a b => a +:+ "/" +:+ b;
     path_relative := fun from to =>
       String.substring (S (String.length from))
                        (String.length to - S (String.length from)) to;
     loadable := fun name => String.eqb name "sl-builder";
     render := fun text =>
       match text with
       | ConnectionInitialized => "> Connection is initialized."
       | DirectoryCheckFailed => "> Server error: Directory check failed."
       | FileWriteFailed => "> Server error: File write failed."
       | FailedToLoadNpm => "> Server error: Failed to load npm."
       | Installing => "> Installing packages. This might take a couple of minutes."
       | FailedToInstall => "> Server error: Failed to install dependencies."
       | Installed => "> Installed."
       | CompletedProjectSync => "> Completed project sync."
       | WaitingForSync => "> Waiting for sync..."
       | FailedToReadFile relative => "> Server error: Failed to read file: " +:+ relative
       | BuildDone => "> Done."
       | FailedToBuild => "> Server error: Failed to build the project."
       end |}.

(** The connection after a well-formed init message. *)
Definition active : State :=
  finish env (handle env (Some exports.CLIENT_INIT) [] [] freshState).

Definition bytes (text : string) : Buffer := String.list_byte_of_string text.

(** Init, then a File-Check of [a.txt] whose read is still in flight. *)
Definition checking_events : list Event :=
  [ Receive (Some exports.CLIENT_INIT) (bytes "{}") [];
    Receive (Some exports.CLIENT_FILE_CHECK)
            (md5 env (bytes "hi")) (bytes "a.txt") ].

Definition checking : State :=
  default freshState (run env checking_events freshState).

(** The active connection after a Number-Of-Check-Files message. *)
Definition announce (count : string) : Event :=
  Receive (Some exports.CLIENT_NUMBER_OF_CHECK_FILES) (bytes count) [].

Definition counted : State := default freshState (step env (announce "1") active).

(** A File-Sync of [a.txt] whose directory check and write succeed. *)
Definition synced_events : list Event :=
  [ Receive (Some exports.CLIENT_FILE_SYNC) (bytes "hi") (bytes "a.txt");
    Complete 0 Succeeded;
    Complete 0 (Written true) ].

Definition synced : State := default freshState (run env synced_events counted).

(** A File-Sync of the manifest whose write is in flight. *)
Definition writing_events : list Event :=
  [ Receive (Some exports.CLIENT_FILE_SYNC) (bytes "{}") (bytes "package.json");
    Complete 0 Succeeded ].

Definition writing : State := default freshState (run env writing_events counted).

End Sample.

(** ** Reference definitions for the worker *)

Module WorkerSpec.
Import Signal Worker.

(** The type byte of a frame on the wire. *)
Definition typeOf (frame : Buffer) : option byte := frame !! 6%nat.

Definition isCheckOff (frame : Buffer) : bool :=
  match typeOf frame with
  | Some t => byte_eqb t xfd
  | None => false
  end.

(** How many check-off frames have been written. *)
Definition checkOffs (out : list Buffer) : nat :=
  length (List.filter isCheckOff out).

Definition isOff (a : AllPromise) : bool :=
  match reaction a with
  | CheckOff => true
  | BuildFinished => false
  end.

(** The promises [socket.checked] has made. *)
Definition offPromises (l : list AllPromise) : list AllPromise :=
  List.filter isOff l.

Definition hasFired (a : AllPromise) : nat :=
  match all_state a with
  | Fulfilled => 1
  | _ => 0
  end.

(** What code that does not touch the check barrier may change. *)
Local Close Scope N_scope.

Record Quiet (s s' : State) : Prop := {
  quiet_checked : checked (socket s') = checked (socket s);
  quiet_calls : calls s' = calls s;
  quiet_sync : exists l, sync (socket s') = (fun x => x ++ l) <$> sync (socket s);
  quiet_alls : exists l, alls s' = alls s ++ l /\ Forall (fun a => isOff a = false) l;
  quiet_out : exists l, out s' = out s ++ l /\ Forall (fun b => isCheckOff b = false) l;
  quiet_length : length (promises s) <= length (promises s');
  quiet_promises : forall p st,
    promises s !! p = Some st -> st <> Pending -> promises s' !! p = Some st
}.

Definition quiet {A} (m : M A) : Prop :=
  forall s, match m s with
            | Return _ s' => Quiet s s'
            | Throw s' => Quiet s s'
            end.

(** A property of the state that an action keeps, whether it returns or
    throws. *)
Definition preserves {A} (P : State -> Prop) (m : M A) : Prop :=
  forall s, P s ->
    match m s with
    | Return _ s' => P s'
    | Throw s' => P s'
    end.

(** No init message has been handled on the socket. *)
Definition uninitialized (s : State) : Prop :=
  uid (socket s) = None /\ project (socket s) = None /\
  builder (socket s) = None /\ sync (socket s) = None /\
  console (socket s) = false /\ closed (socket s) = None.

Definition isInit (ev : Event) : Prop :=
  match ev with
  | Receive (Some t) _ _ => t = exports.CLIENT_INIT
  | _ => False
  end.

Definition isNumberOfCheckFiles (ev : Event) : Prop :=
  match ev with
  | Receive (Some t) _ _ => t = exports.CLIENT_NUMBER_OF_CHECK_FILES
  | _ => False
  end.

(** No [Promise.all] is left pending although its promises are settled:
    the state between two callbacks. *)
Definition quiescent (ps : list PromiseState) (a : AllPromise) : Prop :=
  all_state a = Pending -> allOf ps (deps a) = Pending.

Definition settled (s : State) : Prop :=
  forall a, a ∈ alls s -> quiescent (promises s) a.

(** The check barrier after [fileCheckCallBack] installed a countdown of
    [N], when [socket.checked] had been entered [calls0] times, [offs0]
    check-off frames had been written and the promises [olds] had been made
    by earlier countdowns; [l] is the list of [Promise.all] promises. *)
Record Barrier (N : Z) (calls0 offs0 : nat) (olds l : list AllPromise) (s : State)
  : Prop := {
  barrier_calls : calls0 <= calls s;
  barrier_checked :
    checked (socket s) = Some (Int (N - Z.of_nat (calls s - calls0)));
  barrier_sync : is_Some (sync (socket s));
  barrier_before :
    (Z.of_nat (calls s - calls0) < N)%Z ->
    offPromises l = olds /\ checkOffs (out s) = offs0;
  barrier_after :
    (N <= Z.of_nat (calls s - calls0))%Z ->
    exists a,
      offPromises l = olds ++ [a] /\
      checkOffs (out s) = offs0 + hasFired a /\
      (all_state a = Fulfilled -> Forall (fun p => fulfilled (promises s) p = true) (deps a)) /\
      (all_state a = Rejected -> Exists (fun p => rejected (promises s) p = true) (deps a)) /\
      (exists more, sync (socket s) = Some (deps a ++ more))
}.

End WorkerSpec.

Local Open Scope N_scope.

(** ** Reference definitions for a build *)

Module BuildSpec.
Import Signal Worker WorkerSpec.
Local Close Scope N_scope.

Section Build.
Variable env : Env.
(** what reading each file of [dist] yields *)
Variable content : string -> Buffer.
Variable ignore : gmap string bool.
Variables root buildPath : string.
(** the files [readFiles] lists *)
Variable files : list string.

(** The outside during a build: reads succeed, writes are flushed. *)
Definition answers (op : Op) : Answer :=
  match op with
  | BuildRead _ _ filepath _ => Data (content filepath)
  | _ => Succeeded
  end.

(** The operations end in the order of [schedule], each position taken
    in the list of operations then in flight. *)
Fixpoint drain (schedule : list nat) (s : State) : option State :=
  match schedule with
  | [] => Some s
  | i :: rest =>
      match ops s !! i with
      | Some op =>
          match step env (Complete i (answers op)) s with
          | Some s' => drain rest s'
          | None => None
          end
      | None => None
      end
  end.

(** Is the hash of the data a truthy property of the ignore set? *)
Definition skipped (data : Buffer) : bool :=
  default false (ignore !! toString env (md5 env data)).

Definition buildFrame (filepath : string) : option Buffer :=
  exports.encode exports.SERVER_BUILD_FILE_SYNC (Some (content filepath))
    (Some (fromString env (path_relative env buildPath filepath))).

(** The frame a file is due, if any. *)
Definition frameOf (filepath : string) : list Buffer :=
  if skipped (content filepath) then []
  else match buildFrame filepath with
       | Some frame => [frame]
       | None => []
       end.

(** One frame for each file that is not skipped. *)
Definition streamed : list Buffer := files ≫= frameOf.

Definition promiseOf (op : Op) : option nat :=
  match op with
  | BuildRead _ _ _ p => Some p
  | Flush p => Some p
  | _ => None
  end.

(** The frame an operation in flight will still cause. *)
Definition pendingOf (op : Op) : list Buffer :=
  match op with
  | BuildRead _ _ filepath _ => frameOf filepath
  | _ => []
  end.

Definition consoleFrame (text : Text) : option Buffer :=
  exports.encode exports.SERVER_CONSOLE (Some (fromString env (render env text))) None.

Definition finFrame : Buffer :=
  [x12; x23; x33; x00; x00; x0c; x80; x10; x03; xab; xcd; xef].

Definition hasType (t : byte) (frame : Buffer) : bool :=
  match typeOf frame with
  | Some t' => byte_eqb t' t
  | None => false
  end.

Definition isBuildOp (op : Op) : Prop :=
  (exists filepath p, filepath ∈ files /\ op = BuildRead root buildPath filepath p) \/
  (exists p, op = Flush p).

(** The reads [built] starts, the first promise being [start]. *)
Definition reads (fs : list string) (start : nat) : list Op :=
  zip_with (BuildRead root buildPath) fs (seq start (length fs)).

(** The callbacks an operation of the build still needs. *)
Definition stepsLeft (op : Op) : nat :=
  match op with
  | BuildRead _ _ _ _ => 2
  | _ => 1
  end.

Definition remaining (s : State) : nat := sum_list_with stepsLeft (ops s).

(** The build message, then the builder resolves with [files] in [dist]. *)
Definition building (request note : Buffer) : list Event :=
  [ Receive (Some exports.CLIENT_BUILD) request note; Complete 0 (Built files) ].

(** What ends a build on the wire once nothing is in flight. *)
Definition closing (doneFrame : Buffer) (s : State) : list Buffer :=
  match ops s with
  | [] => [doneFrame; finFrame]
  | _ => []
  end.

(** A build between the start of the reads and the fin signal: [olds]
    are the earlier [Promise.all] promises of the connection, [base] is
    what had been written when the reads started, [ps] are the promises of
    the files, [doneFrame] the console frame of the final text. *)
Record Streaming (olds : list AllPromise) (base : list Buffer) (ps : list nat)
    (doneFrame : Buffer) (s : State) : Prop := {
  streaming_live : crashed s = false;
  streaming_console : console (socket s) = true;
  streaming_ignore : distIgnore (socket s) = Some ignore;
  streaming_ops : Forall isBuildOp (ops s);
  streaming_nodup : NoDup (omap promiseOf (ops s));
  streaming_carried : forall p,
    p ∈ omap promiseOf (ops s) -> p ∈ ps /\ promises s !! p = Some Pending;
  streaming_done : forall p,
    p ∈ ps -> p ∉ omap promiseOf (ops s) -> promises s !! p = Some Fulfilled;
  streaming_out : exists written,
    written ++ (ops s ≫= pendingOf) ≡ₚ streamed /\
    ((ops s <> [] /\
      out s = base ++ written /\
      alls s = olds ++
               [ {| deps := ps; reaction := BuildFinished; all_state := Pending |} ]) \/
     (ops s = [] /\
      out s = base ++ written ++ [doneFrame; finFrame] /\
      alls s = olds ++
               [ {| deps := ps; reaction := BuildFinished; all_state := Fulfilled |} ]))
}.

End Build.

End BuildSpec.

(** A build of two files on the sample connection: the hash of [a.js] is
    in the ignore set of the client, [b.js] is new. *)
Module BuildSample.
Import Signal Worker BuildSpec.

Definition hash : string := "0123456789abcdef".

Definition ignore : gmap string bool := {[ hash := true ]}.

Definition ready : State :=
  default freshState
    (step Sample.env
       (Receive (Some exports.CLIENT_SYNC_FILES_MD5) (Sample.bytes hash) [])
       Sample.active).

Definition files : list string :=
  [ "/srv/u1/demo/dist/a.js"; "/srv/u1/demo/dist/b.js" ].

Definition content (filepath : string) : Buffer :=
  if String.eqb filepath "/srv/u1/demo/dist/a.js"
  then Sample.bytes hash
  else Sample.bytes "hi".

Definition waiting : Buffer :=
  default [] (consoleFrame Sample.env WaitingForSync).

Definition finished : Buffer :=
  default [] (consoleFrame Sample.env BuildDone).

(** The build in which the read of [b.js] fails. *)
Definition unreadable : list Event :=
  building files [] [] ++ [ Complete 1 Failed; Complete 0 (Data (content "/srv/u1/demo/dist/a.js")) ].

End BuildSample.

(** ** [utils.js]: the directory check

    [fs] and [path] are the platform's.  The file system is a finite map
    from the names on the way from the root to the node found there, without
    symbolic links and permissions, in which the working directory exists;
    a path is what the system makes of its text: whether it starts at the
    root, and its names. *)

Module Utils.
Local Close Scope N_scope.

Inductive Node :=
| Dir
| File (content : Buffer).

Inductive Errno := EEXIST | ENOENT | ENOTDIR | EISDIR.

Record Path := { absolute : bool; names : list string }.

(** [made]: the paths given to [fs.mkdir] so far, oldest first. *)
Record World := {
  nodes : gmap (list string) Node;
  cwd : list string;
  made : list Path
}.

Definition with_nodes (f : gmap (list string) Node -> gmap (list string) Node)
    (w : World) : World :=
  {| nodes := f (nodes w); cwd := cwd w; made := made w |}.

Definition logged (p : Path) (w : World) : World :=
  {| nodes := nodes w; cwd := cwd w; made := made w ++ [p] |}.

(** *** Texts and paths *)

Definition slash : ascii := "/"%char.

Definition backslash : ascii := "092"%char.

Definition isSlash (c : ascii) : bool := Ascii.eqb c slash.

(** A character that starts a match of [/\\+|\/+/]. *)
Definition isSeparator (c : ascii) : bool :=
  Ascii.eqb c backslash || Ascii.eqb c slash.

(** [text.split(re)] for a pattern that matches the runs of one separator:
    [run] is the separator of the match the scan is in, [piece] the text
    since the last match. *)
Fixpoint splitOn (separator : ascii -> bool) (text : string)
    (run : option ascii) (piece : string) : list string :=
  match text with
  | EmptyString => [piece]
  | String c rest =>
      if separator c then
        match run with
        | Some r =>
            if Ascii.eqb r c then splitOn separator rest run piece
            else piece :: splitOn separator rest (Some c) ""
        | None => piece :: splitOn separator rest (Some c) ""
        end
      else splitOn separator rest None (piece +:+ String c "")
  end.

(** [checkpath.split(/\\+|\/+/)] *)
Definition split (checkpath : string) : list string :=
  splitOn isSeparator checkpath None "".

(** [name.indexOf('.') > -1] *)
Fixpoint hasDot (name : string) : bool :=
  match name with
  | EmptyString => false
  | String c rest => Ascii.eqb c "."%char || hasDot rest
  end.

Definition nonempty (name : string) : bool := negb (String.eqb name "").

(** A name that stands for the directory itself or for its parent. *)
Definition special (name : string) : bool :=
  String.eqb name "." || String.eqb name "..".

(** [path.posix.normalize] of a relative path, given by its names;
    [stack] holds the names kept so far, the last one first. *)
Fixpoint normalize (stack : list string) (rest : list string) : list string :=
  match rest with
  | [] => rev stack
  | name :: rest' =>
      if String.eqb name "." then normalize stack rest'
      else if String.eqb name ".." then
        match stack with
        | top :: below =>
            if String.eqb top ".." then normalize (name :: stack) rest'
            else normalize below rest'
        | [] => normalize [name] rest'
        end
      else normalize (name :: stack) rest'
  end.

(** [path.posix.join.apply(null, dirs)] for segments without a slash:
    empty segments are left out, so the result is always relative. *)
Definition join (dirs : list string) : Path :=
  {| absolute := false; names := normalize [] (List.filter nonempty dirs) |}.

(** The path the system reads in a text. *)
Definition parse (text : string) : Path :=
  {| absolute := match text with
                 | String c _ => isSlash c
                 | EmptyString => false
                 end;
     names := List.filter nonempty (splitOn isSlash text None "") |}.

(** *** The file system *)

(** Walk down [rest] from the directory [at_]: every name on the way has
    to be a directory. *)
Fixpoint walk (m : gmap (list string) Node) (at_ : list string)
    (rest : list string) : Errno + list string :=
  match rest with
  | [] => inr at_
  | name :: rest' =>
      if String.eqb name "." then walk m at_ rest'
      else if String.eqb name ".." then walk m (removelast at_) rest'
      else
        match m !! (at_ ++ [name]) with
        | Some Dir => walk m (at_ ++ [name]) rest'
        | Some (File _) => inl ENOTDIR
        | None => inl ENOENT
        end
  end.

Definition origin (w : World) (p : Path) : list string :=
  if absolute p then [] else cwd w.

(** [fs.mkdir(path, callback)]: the error given to the callback. *)
Definition mkdir (p : Path) (w : World) : option Errno * World :=
  let w := logged p w in
  match last (names p) with
  | None => (Some EEXIST, w)
  | Some name =>
      match walk (nodes w) (origin w p) (removelast (names p)) with
      | inl e => (Some e, w)
      | inr dir =>
          if special name then (Some EEXIST, w)
          else
            match nodes w !! (dir ++ [name]) with
            | Some _ => (Some EEXIST, w)
            | None => (None, with_nodes (insert (dir ++ [name]) Dir) w)
            end
      end
  end.

(** [fs.writeFile(path, content, callback)] *)
Definition writeFile (p : Path) (content : Buffer) (w : World)
  : option Errno * World :=
  match last (names p) with
  | None => (Some EISDIR, w)
  | Some name =>
      match walk (nodes w) (origin w p) (removelast (names p)) with
      | inl e => (Some e, w)
      | inr dir =>
          if special name then (Some EISDIR, w)
          else
            match nodes w !! (dir ++ [name]) with
            | Some Dir => (Some EISDIR, w)
            | _ => (None, with_nodes (insert (dir ++ [name]) (File content)) w)
            end
      end
  end.

(** *** [dirCheck] *)

(** [checkAndCreate(dirs, callback)]: the error given to [callback] and
    the world then.  The callback of the parent's creation drops its
    error and tries [dirs] again. *)
Fixpoint checkAndCreate (fuel : nat) (dirs : list string) (w : World)
  : option (option Errno * World) :=
  match fuel with
  | O => None
  | S fuel' =>
      match mkdir (join dirs) w with
      | (None, w1) => Some (None, w1)
      | (Some EEXIST, w1) => Some (None, w1)
      | (Some ENOENT, w1) =>
          match checkAndCreate fuel' (removelast dirs) w1 with
          | Some (_, w2) => checkAndCreate fuel' dirs w2
          | None => None
          end
      | (Some e, w1) => Some (Some e, w1)
      end
  end.

(** [dirs[dirs.length - 1].indexOf('.') > -1 && dirs.pop()]; [split]
    gives at least one segment. *)
Definition directories (checkpath : string) : list string :=
  let dirs := split checkpath in
  match last dirs with
  | Some name => if hasDot name then removelast dirs else dirs
  | None => dirs
  end.

Definition dirCheck (fuel : nat) (checkpath : string) (w : World)
  : option (option Errno * World) :=
  checkAndCreate fuel (directories checkpath) w.

(** The file-system side of [fileCover]: the directory check, then the
    write at the same text. *)
Inductive Covered :=
| DirectoryCheckFailed (e : Errno)
| FileWriteFailed (e : Errno)
| FileWritten.

Definition fileCover (fuel : nat) (filepath : string) (content : Buffer)
    (w : World) : option (Covered * World) :=
  match dirCheck fuel filepath w with
  | None => None
  | Some (Some e, w') => Some (DirectoryCheckFailed e, w')
  | Some (None, w') =>
      match writeFile (parse filepath) content w' with
      | (Some e, w'') => Some (FileWriteFailed e, w'')
      | (None, w'') => Some (FileWritten, w'')
      end
  end.

End Utils.

(** What the claims about the directory check speak of. *)
Module UtilsSpec.
Import Utils.
Local Close Scope N_scope.

(** Does the last segment of the path hold a dot? *)
Definition lastHasDot (checkpath : string) : bool :=
  match last (split checkpath) with
  | Some name => hasDot name
  | None => false
  end.

(** Where a path leads, when the directories on the way exist and its
    last name is a name of its own. *)
Definition locate (w : World) (p : Path) : option (list string) :=
  match last (names p) with
  | Some name =>
      if special name then None
      else
        match walk (nodes w) (origin w p) (removelast (names p)) with
        | inr dir => Some (dir ++ [name])
        | inl _ => None
        end
  | None => None
  end.

Definition plain (name : string) : Prop := special name = false.

Fixpoint hasBackslash (text : string) : bool :=
  match text with
  | EmptyString => false
  | String c rest => Ascii.eqb c backslash || hasBackslash rest
  end.

(** A project directory under the root, which is the working directory,
    holding a file [Makefile]. *)
Definition project : World :=
  {| nodes := {[ ["srv"] := Dir;
                 ["srv"; "u1"] := Dir;
                 ["srv"; "u1"; "demo"] := Dir;
                 ["srv"; "u1"; "demo"; "Makefile"] := File (Sample.bytes "all:") ]};
     cwd := [];
     made := [] |}.

End UtilsSpec.

(** ** Reference definitions for further properties of the worker *)

Module WorkerMore.
Import Signal Worker WorkerSpec.
Local Close Scope N_scope.

(** A countdown that no number of decrements brings to zero. *)
Definition neverZero (total : Number) : Prop :=
  match total with
  | Int z => (z <= 0)%Z
  | NotAnInteger => True
  end.

(** A connection whose countdown, if any, cannot reach zero and on which
    no earlier countdown waits: [offs0] check-off frames were written. *)
Record Stalled (offs0 : nat) (s : State) : Prop := {
  stalled_checked :
    match checked (socket s) with
    | Some total => neverZero total
    | None => True
    end;
  stalled_offs : checkOffs (out s) = offs0;
  stalled_olds : Forall (fun a => isOff a = true -> all_state a <> Pending) (alls s)
}.

(** The sample connection after a count of zero, and after a file was
    then synchronised. *)
Definition stalled : State :=
  default freshState (step Sample.env (Sample.announce "0") Sample.active).

Definition stalled_synced : State :=
  default freshState (run Sample.env Sample.synced_events stalled).

End WorkerMore.

(** ** Reference definitions for further properties of [utils.js] *)

Module UtilsMore.
Import Utils UtilsSpec.
Local Close Scope N_scope.

Fixpoint hasSeparator (text : string) : bool :=
  match text with
  | EmptyString => false
  | String c rest => isSeparator c || hasSeparator rest
  end.

(** The names of the directories above the file of a path. *)
Definition parents (checkpath : string) : list string :=
  List.filter nonempty (removelast (split checkpath)).

(** No regular file is in the way down [names] from the working
    directory. *)
Definition clearWay (w : World) (names : list string) : Prop :=
  forall k content,
    k <= length names -> nodes w !! (cwd w ++ take k names) <> Some (File content).

(** The sample project after the directories of a new file were checked. *)
Definition grown : World :=
  match dirCheck 4 "/srv/u1/demo/src/lib/a.txt" project with
  | Some (_, w') => w'
  | None => project
  end.

(** A server started in [/home/app], with nothing else on the disk. *)
Definition served : World :=
  {| nodes := {[ ["home"] := Dir; ["home"; "app"] := Dir ]};
     cwd := ["home"; "app"];
     made := [] |}.

End UtilsMore.

(** ** [readFiles] and [readDir] *)

Module Files.
Local Close Scope N_scope.

(** What [fs.statSync] finds at a path: a regular file, or a directory
    with its entries in the order [fs.readdirSync] lists them. *)
#[warnings="-register-all"] Inductive Tree :=
| Leaf (content : Buffer)
| Folder (entries : list (string * Tree)).

(** [ignore && ignore.test(name)], for a pattern without the flags that
    make [test] remember a position. *)
Definition ignored (ignore : option (string -> bool)) (name : string) : bool :=
  match ignore with
  | Some test => test name
  | None => false
  end.

(** The body of [forEach] once a name is let through: [namePath] is
    [path.join(dir, name)], a path being given by its names; the
    recursive call of [readDir] passes no [ignore]. *)
Fixpoint visit (namePath : list string) (stats : Tree) : list (list string) :=
  match stats with
  | Leaf _ => [namePath]
  | Folder list_ =>
      flat_map (fun entry => visit (namePath ++ [entry.1]) entry.2) list_
  end.

(** [readDir(dir, result, ignore)]: the paths pushed on [result]. *)
Definition readDir (dir : list string) (list_ : list (string * Tree))
    (ignore : option (string -> bool)) : list (list string) :=
  flat_map (fun entry =>
              if ignored ignore entry.1 then []
              else visit (dir ++ [entry.1]) entry.2) list_.

(** [readFiles(dir, ignore)]: [stats] is what is at [dir], [None] when
    [fs.statSync] throws. *)
Definition readFiles (dir : list string) (stats : option Tree)
    (ignore : option (string -> bool)) : list (list string) :=
  match stats with
  | Some (Folder list_) => readDir dir list_ ignore
  | _ => []
  end.

End Files.

Module FilesSpec.
Import Files.
Local Close Scope N_scope.

(** The regular file that [names] lead to from a node. *)
Inductive leads : Tree -> list string -> Buffer -> Prop :=
| leads_here content : leads (Leaf content) [] content
| leads_down list_ name stats names content :
    In (name, stats) list_ ->
    leads stats names content ->
    leads (Folder list_) (name :: names) content.

(** Induction on a tree, with the property at hand for every entry of a
    directory. *)
Section TreeInduction.
Variable P : Tree -> Prop.
Hypothesis P_Leaf : forall content, P (Leaf content).
Hypothesis P_Folder :
  forall list_, Forall (fun entry => P entry.2) list_ -> P (Folder list_).

Fixpoint Tree_each (stats : Tree) : P stats :=
  match stats with
  | Leaf content => P_Leaf content
  | Folder list_ =>
      P_Folder list_
        ((fix each (l : list (string * Tree)) : Forall (fun entry => P entry.2) l :=
            match l with
            | [] => List.Forall_nil _
            | entry :: rest =>
                List.Forall_cons _ entry rest (Tree_each entry.2) (each rest)
            end) list_)
  end.

End TreeInduction.

End FilesSpec.


(** ** [relativeToAbsolute]: where a client path leads *)

Module Resolve.
Import Utils.
Local Close Scope N_scope.

(** [normalizeString] for an absolute path, given by its names: [.] is
    left out and [..] takes the last name kept away, or nothing at the
    root. [stack] holds the names kept so far, the last one first. *)
Fixpoint normalizeAbsolute (stack : list string) (rest : list string)
  : list string :=
  match rest with
  | [] => rev stack
  | name :: rest' =>
      if String.eqb name "." then normalizeAbsolute stack rest'
      else if String.eqb name ".." then normalizeAbsolute (tail stack) rest'
      else normalizeAbsolute (name :: stack) rest'
  end.

(** The loop of [path.posix.resolve] over its arguments, the last one
    first: an empty argument is passed over, the names of any other are
    put before what is resolved so far, and the loop ends at the first
    absolute one. An argument the loop reads that is not a string throws
    ([None]); the arguments before an absolute one are never read. *)
Fixpoint gather (args : list (option string)) (resolved : list string)
  : option (bool * list string) :=
  match args with
  | [] => Some (false, resolved)
  | None :: _ => None
  | Some path :: rest =>
      if String.eqb path "" then gather rest resolved
      else if absolute (parse path) then Some (true, names (parse path) ++ resolved)
      else gather rest (names (parse path) ++ resolved)
  end.

(** [path.posix.resolve(...args)]: the names of the absolute path it
    returns; [cwd] is the working directory, used when no argument is
    absolute. *)
Definition resolve (cwd : list string) (args : list (option string))
  : option (list string) :=
  match gather (rev args) [] with
  | Some (true, resolved) => Some (normalizeAbsolute [] resolved)
  | Some (false, resolved) => Some (normalizeAbsolute [] (cwd ++ resolved))
  | None => None
  end.

(** [relativeToAbsolute(socket, relative)]; [uid] and [project] are the
    properties of the socket, [None] while undefined. *)
Definition relativeToAbsolute (cwd : list string) (projectsDir : string)
    (uid project : option string) (relative : string) : option (list string) :=
  resolve cwd [Some projectsDir; uid; project; Some relative].

End Resolve.

Local Open Scope N_scope.

(** * Part II: properties *)

(** ** Facts about the JavaScript primitives *)

Section StringFacts.

Lemma str_app_cons c (s t : string) : String c s +:+ t = String c (s +:+ t).
Proof. reflexivity. Qed.

Lemma str_app_nil_l (s : string) : "" +:+ s = s.
Proof. reflexivity. Qed.

Lemma str_app_nil_r (s : string) : s +:+ "" = s.
Proof.
  induction s as [|c s IH]; [reflexivity|].
  now rewrite str_app_cons, IH.
Qed.

Lemma str_app_assoc (s t u : string) : (s +:+ t) +:+ u = s +:+ t +:+ u.
Proof.
  induction s as [|c s IH]; [reflexivity|].
  now rewrite !str_app_cons, IH.
Qed.

Lemma str_length_app (s t : string) :
  String.length (s +:+ t) = (String.length s + String.length t)%nat.
Proof.
  induction s as [|c s IH]; [reflexivity|].
  rewrite str_app_cons. simpl. now rewrite IH.
Qed.

End StringFacts.

Module JsFacts.
Import Js.

Lemma hexVal_hexChar d : d < 16 -> hexVal (hexChar d) = Some d.
Proof.
  intros H. destruct d as [|p]; [reflexivity|].
  do 4 (destruct p as [p|p|]; try reflexivity; try lia).
Qed.

Lemma toString16_loop_acc fuel : forall n acc,
  toString16_loop fuel n acc = toString16_loop fuel n "" +:+ acc.
Proof.
  induction fuel as [|fuel IH]; intros n acc; simpl; [reflexivity|].
  destruct (n / 16 =? 0); [reflexivity|].
  rewrite (IH (n / 16) (String _ acc)), (IH (n / 16) (String _ "")).
  rewrite str_app_assoc, str_app_cons, str_app_nil_l. reflexivity.
Qed.

(** Any fuel above the number of hexadecimal digits gives the same string. *)
Lemma toString16_loop_fuel f1 : forall f2 n acc,
  n < 16 ^ N.of_nat (S f1) -> n < 16 ^ N.of_nat (S f2) ->
  toString16_loop (S f1) n acc = toString16_loop (S f2) n acc.
Proof.
  induction f1 as [|f1 IH]; intros f2 n acc H1 H2.
  - assert (n / 16 = 0) as Hq by (apply N.div_small; exact H1).
    simpl. rewrite Hq. reflexivity.
  - cbn [toString16_loop]. destruct (N.eqb_spec (n / 16) 0) as [|Hq]; [reflexivity|].
    destruct f2 as [|f2].
    + exfalso. apply Hq, N.div_small. exact H2.
    + apply IH.
      * apply N.Div0.div_lt_upper_bound.
        replace (N.of_nat (S (S f1))) with (N.succ (N.of_nat (S f1))) in H1 by lia.
        rewrite N.pow_succ_r' in H1. exact H1.
      * apply N.Div0.div_lt_upper_bound.
        replace (N.of_nat (S (S f2))) with (N.succ (N.of_nat (S f2))) in H2 by lia.
        rewrite N.pow_succ_r' in H2. exact H2.
Qed.

Lemma toString16_fuel_enough n : n < 16 ^ N.of_nat (S (N.to_nat (N.size n))).
Proof.
  eapply N.lt_le_trans; [apply N.size_gt|].
  etransitivity; [|apply N.pow_le_mono_r; [lia|]].
  - apply N.pow_le_mono_l. lia.
  - lia.
Qed.

Lemma toString16_of_fuel n f :
  n < 16 ^ N.of_nat (S f) -> toString16 n = toString16_loop (S f) n "".
Proof.
  intros H. unfold toString16.
  apply toString16_loop_fuel; [apply toString16_fuel_enough | exact H].
Qed.

(** The defining equation of [toString(16)]: the last digit is the
    remainder, the digits before it print the quotient. *)
Lemma toString16_eq n :
  toString16 n =
    if n <? 16 then String (hexChar n) ""
    else toString16 (n / 16) +:+ String (hexChar (n mod 16)) "".
Proof.
  pose proof (toString16_fuel_enough n) as Hf.
  rewrite (toString16_of_fuel n _ Hf). cbn [toString16_loop].
  destruct (N.ltb_spec n 16) as [Hlt|Hge].
  - rewrite N.div_small, N.mod_small by exact Hlt. reflexivity.
  - destruct (N.eqb_spec (n / 16) 0) as [Hq|Hq].
    + exfalso. apply N.div_small_iff in Hq; lia.
    + rewrite toString16_loop_acc.
      destruct (N.to_nat (N.size n)) as [|f] eqn:Ef.
      * exfalso. apply Hq, N.div_small. exact Hf.
      * f_equal. symmetry. apply toString16_of_fuel.
        apply N.Div0.div_lt_upper_bound.
        replace (N.of_nat (S (S f))) with (N.succ (N.of_nat (S f))) in Hf by lia.
        rewrite N.pow_succ_r' in Hf. exact Hf.
Qed.

Lemma toString16_small n : n < 16 -> toString16 n = String (hexChar n) "".
Proof.
  intros H. rewrite toString16_eq.
  destruct (N.ltb_spec n 16); [reflexivity | lia].
Qed.

(** A byte prints as one digit below 16 and as two digits from 16 on:
    there is no padding. *)
Lemma toString16_byte n :
  n < 256 ->
  toString16 n =
    if n <? 16 then String (hexChar n) ""
    else String (hexChar (n / 16)) (String (hexChar (n mod 16)) "").
Proof.
  intros H. rewrite toString16_eq. destruct (N.ltb_spec n 16); [reflexivity|].
  rewrite toString16_small; [reflexivity|].
  apply N.Div0.div_lt_upper_bound. lia.
Qed.

Lemma parseInt16_loop_digit d s acc seen :
  d < 16 ->
  parseInt16_loop (String (hexChar d) s) acc seen =
    parseInt16_loop s (acc * 16 + d) true.
Proof. intros H. cbn [parseInt16_loop]. now rewrite hexVal_hexChar. Qed.

Lemma mod16_lt n : n mod 16 < 16.
Proof. apply N.mod_lt. lia. Qed.

Lemma div16_lt n : n < 256 -> n / 16 < 16.
Proof. intros H. apply N.Div0.div_lt_upper_bound. lia. Qed.

Lemma toUint8_value n : Byte.to_N (toUint8 (Some n)) = n mod 256.
Proof.
  unfold toUint8. destruct (Byte.of_N (n mod 256)) as [b|] eqn:E.
  - apply Byte.to_of_N. exact E.
  - exfalso. apply Byte.of_N_None_iff in E.
    pose proof (N.mod_lt n 256). lia.
Qed.

End JsFacts.

(** Linear arithmetic with quotients and remainders by constants. *)
Ltac lia_div := zify; Z.to_euclidean_division_equations; lia.

Create HintDb hex.
#[global] Hint Resolve JsFacts.mod16_lt JsFacts.div16_lt : hex.

(** ** The length field *)

Module LengthField.
Import Js JsFacts Signal CodecSpec.


Ltac string_norm :=
  repeat first [rewrite str_app_cons | rewrite str_app_nil_l].
Ltac digit_bound := first [apply mod16_lt | apply div16_lt; lia | lia].

Lemma declared_three b0 b1 b2 :
  declared [b0; b1; b2] =
    Some (Some (rejoin (Byte.to_N b0) (Byte.to_N b1) (Byte.to_N b2))).
Proof.
  pose proof (Byte.to_N_bounded b0). pose proof (Byte.to_N_bounded b1).
  pose proof (Byte.to_N_bounded b2).
  unfold declared, rejoin, hexWidth. cbn [fmap list_fmap reduce fold_left option_fmap option_map value_toString16 value_parseInt16].
  rewrite !toString16_byte by lia.
  unfold parseInt16.
  destruct (N.ltb_spec (Byte.to_N b0) 16), (N.ltb_spec (Byte.to_N b1) 16),
    (N.ltb_spec (Byte.to_N b2) 16);
    string_norm;
    rewrite !parseInt16_loop_digit by digit_bound;
    cbn [parseInt16_loop]; do 2 f_equal;
    lia_div.
Qed.


Lemma zeros_snoc k : zeros k +:+ String "0" "" = zeros (S k).
Proof.
  induction k as [|k IH]; [reflexivity|].
  cbn [zeros]. rewrite str_app_cons, IH. reflexivity.
Qed.

Lemma zeroFillBuffers_loop_pad fuel : forall content len,
  (len - String.length content <= fuel)%nat ->
  zeroFillBuffers_loop fuel content len =
    zeros (len - String.length content) +:+ content.
Proof.
  induction fuel as [|fuel IH]; intros content len Hf.
  - replace (len - String.length content)%nat with 0%nat by lia. reflexivity.
  - cbn [zeroFillBuffers_loop].
    destruct (Nat.ltb_spec (String.length content) len) as [Hlt|Hge].
    + rewrite IH by (simpl; lia). simpl String.length.
      replace (len - String.length content)%nat
        with (S (len - S (String.length content))) by lia.
      rewrite <- zeros_snoc, str_app_assoc. reflexivity.
    + replace (len - String.length content)%nat with 0%nat by lia. reflexivity.
Qed.

Lemma zeroFillBuffers_pad content len :
  zeroFillBuffers content len = zeros (len - String.length content) +:+ content.
Proof. apply zeroFillBuffers_loop_pad. lia. Qed.


Lemma fixedHex_zero k : fixedHex k 0 = zeros k.
Proof.
  induction k as [|k IH]; [reflexivity|].
  cbn [fixedHex]. change (0 / 16) with 0. rewrite IH. apply zeros_snoc.
Qed.

Lemma toString16_pad k : forall n,
  n < 16 ^ N.of_nat (S k) ->
  (String.length (toString16 n) <= S k)%nat /\
  zeros (S k - String.length (toString16 n)) +:+ toString16 n = fixedHex (S k) n.
Proof.
  induction k as [|k IH]; intros n Hn.
  - change (16 ^ N.of_nat 1) with 16 in Hn.
    rewrite toString16_small by exact Hn. cbn.
    rewrite N.mod_small by exact Hn. split; [lia | reflexivity].
  - rewrite toString16_eq. destruct (N.ltb_spec n 16) as [Hlt|Hge].
    + cbn [String.length]. split; [lia|].
      cbn [fixedHex]. rewrite (N.div_small n 16) by exact Hlt.
      change (0 / 16) with 0. rewrite fixedHex_zero.
      rewrite (N.mod_small n 16) by exact Hlt.
      replace (S (S k) - 1)%nat with (S k) by lia.
      rewrite zeros_snoc. reflexivity.
    + assert (n / 16 < 16 ^ N.of_nat (S k)) as Hq.
      { apply N.Div0.div_lt_upper_bound.
        replace (N.of_nat (S (S k))) with (N.succ (N.of_nat (S k))) in Hn by lia.
        rewrite N.pow_succ_r' in Hn. exact Hn. }
      destruct (IH _ Hq) as [Hlen Hpad].
      rewrite str_length_app. cbn [String.length]. split; [lia|].
      change (fixedHex (S (S k)) n)
        with (fixedHex (S k) (n / 16) +:+ String (hexChar (n mod 16)) "").
      rewrite <- Hpad, str_app_assoc. f_equal. f_equal. lia.
Qed.

Lemma zeroFillBuffers_toString16 k n :
  n < 16 ^ N.of_nat (S k) ->
  zeroFillBuffers (toString16 n) (S k) = fixedHex (S k) n.
Proof.
  intros Hn. rewrite zeroFillBuffers_pad. apply toString16_pad. exact Hn.
Qed.

(** Within three bytes, [encode] writes the length big-endian. *)
Lemma lengthBytes_value n :
  n < 16777216 ->
  Byte.to_N <$> lengthBytes n = [n / 65536; (n / 256) mod 256; n mod 256].
Proof.
  intros Hn. unfold lengthBytes.
  rewrite (zeroFillBuffers_toString16 5) by exact Hn.
  cbn [fixedHex]. string_norm.
  cbn [str_slice str_slice_from String.substring String.length Nat.sub].
  unfold parseInt16.
  rewrite !parseInt16_loop_digit by digit_bound. cbn [parseInt16_loop].
  cbn [fmap list_fmap]. rewrite !toUint8_value.
  f_equal; [|f_equal; [|f_equal]]; lia_div.
Qed.

End LengthField.

(** ** Slices and searches on buffers *)

Module BufferFacts.
Import Js.

Lemma clamp_nonneg len (i : nat) : clamp len (Z.of_nat i) = Nat.min i len.
Proof.
  unfold clamp. destruct (Z.ltb_spec (Z.of_nat i) 0); [lia|].
  now rewrite Nat2Z.id.
Qed.

Lemma slice_nat {A} (a b : nat) (l : list A) :
  slice (Z.of_nat a) (Z.of_nat b) l =
    take (Nat.min b (length l) - Nat.min a (length l)) (drop (Nat.min a (length l)) l).
Proof. unfold slice. now rewrite !clamp_nonneg. Qed.

(** The part between a prefix and a suffix. *)
Lemma slice_middle {A} (pre mid suf : list A) :
  slice (Z.of_nat (length pre))
        (Z.of_nat (length (pre ++ mid ++ suf)) - Z.of_nat (length suf))
        (pre ++ mid ++ suf) = mid.
Proof.
  replace (Z.of_nat (length (pre ++ mid ++ suf)) - Z.of_nat (length suf))%Z
    with (Z.of_nat (length pre + length mid)).
  2:{ rewrite !length_app. lia. }
  rewrite slice_nat, !length_app.
  replace (Nat.min (length pre) _) with (length pre) by lia.
  replace (Nat.min (length pre + length mid) _ - length pre)%nat
    with (length mid) by lia.
  rewrite drop_app_length. apply take_app_length.
Qed.

Lemma slice_prefix {A} (pre rest : list A) :
  slice 0 (Z.of_nat (length pre)) (pre ++ rest) = pre.
Proof.
  change 0%Z with (Z.of_nat 0). rewrite slice_nat, length_app.
  replace (Nat.min (length pre) _ - Nat.min 0 _)%nat with (length pre) by lia.
  cbn [Nat.min drop]. apply take_app_length.
Qed.

Lemma slice_from_suffix {A} (pre suf : list A) :
  slice_from (Z.of_nat (length (pre ++ suf)) - Z.of_nat (length suf)) (pre ++ suf)
  = suf.
Proof.
  unfold slice_from.
  replace (Z.of_nat (length (pre ++ suf)) - Z.of_nat (length suf))%Z
    with (Z.of_nat (length pre)) by (rewrite length_app; lia).
  rewrite clamp_nonneg, length_app.
  replace (Nat.min _ _) with (length pre) by lia.
  apply drop_app_length.
Qed.

Lemma slice_from_prefix {A} (pre suf : list A) :
  slice_from (Z.of_nat (length pre)) (pre ++ suf) = suf.
Proof.
  unfold slice_from. rewrite clamp_nonneg, length_app.
  replace (Nat.min _ _) with (length pre) by lia.
  apply drop_app_length.
Qed.

Lemma byte_eqb_refl b : byte_eqb b b = true.
Proof. apply Byte.byte_dec_lb. reflexivity. Qed.

Lemma startsWith_app pat rest : startsWith pat (pat ++ rest) = true.
Proof.
  induction pat as [|p pat IH]; [reflexivity|].
  cbn. now rewrite byte_eqb_refl, IH.
Qed.

Lemma startsWith_prefix pat l :
  startsWith pat l = true <-> exists rest, l = pat ++ rest.
Proof.
  split.
  - revert l. induction pat as [|p pat IH]; intros l H.
    + exists l. reflexivity.
    + destruct l as [|x l]; [discriminate|]. cbn in H.
      apply andb_true_iff in H as [Hp Hr].
      apply Byte.byte_dec_bl in Hp. subst x.
      destruct (IH _ Hr) as [rest ->]. exists rest. reflexivity.
  - intros [rest ->]. apply startsWith_app.
Qed.

(** The search either fails or answers a position from [i] on. *)
Lemma indexOf_from_range pat : forall l i,
  indexOf_from pat l i = (-1)%Z \/
  (i <= indexOf_from pat l i <= i + Z.of_nat (length l))%Z.
Proof.
  induction l as [|x l IH]; intros i; cbn [indexOf_from].
  - destruct (startsWith pat []); [right; simpl; lia | left; reflexivity].
  - destruct (startsWith pat (x :: l)); [right; simpl; lia|].
    destruct (IH (i + 1)%Z) as [->|H]; [left; reflexivity | right].
    cbn [length]. lia.
Qed.

Lemma indexOf_from_shift pat : forall l i,
  indexOf_from pat l i =
    if (indexOf pat l =? -1)%Z then (-1)%Z else (i + indexOf pat l)%Z.
Proof.
  unfold indexOf. induction l as [|x l IH]; intros i; cbn [indexOf_from].
  - destruct (startsWith pat []); cbn; [lia | reflexivity].
  - destruct (startsWith pat (x :: l)); [cbn; lia|].
    rewrite (IH (i + 1)%Z), (IH (0 + 1)%Z).
    destruct (Z.eqb_spec (indexOf_from pat l 0) (-1)) as [E|E].
    + reflexivity.
    + pose proof (indexOf_from_range pat l 0) as [?|?]; [contradiction|].
      destruct (Z.eqb_spec (0 + 1 + indexOf_from pat l 0) (-1)); lia.
Qed.

(** A failed search: the pattern starts at no position. *)
Lemma indexOf_from_none pat : forall l i,
  (0 <= i)%Z ->
  indexOf_from pat l i = (-1)%Z <-> forall k, startsWith pat (drop k l) = false.
Proof.
  induction l as [|x l IH]; intros i Hi; cbn [indexOf_from].
  - destruct (startsWith pat []) eqn:E; split.
    + lia.
    + intros H. specialize (H 0%nat). cbn in H. congruence.
    + intros _ k. now rewrite drop_nil.
    + reflexivity.
  - destruct (startsWith pat (x :: l)) eqn:E; split.
    + lia.
    + intros H. specialize (H 0%nat). cbn in H. congruence.
    + intros H [|k]; [exact E|]. cbn [drop]. apply (IH (i + 1)%Z); [lia | exact H].
    + intros H. apply IH; [lia|]. intros k. apply (H (S k)).
Qed.

Lemma indexOf_none pat l :
  indexOf pat l = (-1)%Z <-> forall k, startsWith pat (drop k l) = false.
Proof. apply indexOf_from_none. lia. Qed.

(** A successful search: the pattern starts there and nowhere before. *)
Lemma indexOf_from_found pat : forall l i k,
  indexOf_from pat l i = (i + Z.of_nat k)%Z ->
  (0 <= i)%Z ->
  startsWith pat (drop k l) = true /\
  forall j, (j < k)%nat -> startsWith pat (drop j l) = false.
Proof.
  induction l as [|x l IH]; intros i k H Hi; cbn [indexOf_from] in H.
  - destruct (startsWith pat []) eqn:E; [|lia].
    assert (k = 0%nat) as -> by lia. split; [exact E | intros; lia].
  - destruct (startsWith pat (x :: l)) eqn:E.
    + assert (k = 0%nat) as -> by lia. split; [exact E | intros; lia].
    + destruct k as [|k].
      * pose proof (indexOf_from_range pat l (i + 1)) as [?|?]; lia.
      * destruct (IH (i + 1)%Z k) as [Hk Hj]; [lia | lia |].
        split; [exact Hk|]. intros [|j] Hlt; [exact E|].
        apply Hj. lia.
Qed.

(** The first position where the pattern starts is the answer. *)
Lemma indexOf_first pat l k :
  startsWith pat (drop k l) = true ->
  (forall j, (j < k)%nat -> startsWith pat (drop j l) = false) ->
  indexOf pat l = Z.of_nat k.
Proof.
  unfold indexOf. change (Z.of_nat k) with (0 + Z.of_nat k)%Z.
  generalize 0%Z as i. revert l.
  induction k as [|k IH]; intros l i Hk Hj.
  - destruct l; cbn [indexOf_from drop] in *; rewrite Hk; lia.
  - destruct l as [|x l].
    + cbn [drop] in Hk. specialize (Hj 0%nat ltac:(lia)). cbn [drop] in Hj.
      congruence.
    + cbn [indexOf_from].
      pose proof (Hj 0%nat ltac:(lia)) as H0. cbn [drop] in H0. rewrite H0.
      rewrite (IH l (i + 1)%Z).
      * lia.
      * exact Hk.
      * intros j Hlt. apply (Hj (S j)). lia.
Qed.

End BufferFacts.

(** ** The codec on well-formed frames *)

Module CodecFacts.
Import Js JsFacts BufferFacts Signal CodecSpec LengthField.


Lemma frameLength_eq content note :
  frameLength content note = 12 + blen note + blen content.
Proof. unfold frameLength, blen. cbn [START BOUNDARY END length]. lia. Qed.

Lemma encode_eq signal content note :
  exports.encode signal content note =
    let content := default [] content in
    let note := default [] note in
    if MAX_INFO_SIZE <? frameLength content note then None
    else Some (START ++ lengthBytes (frameLength content note) ++ signal
                 ++ note ++ BOUNDARY ++ content ++ END).
Proof. reflexivity. Qed.

Lemma lengthBytes_length n : length (lengthBytes n) = 3%nat.
Proof. reflexivity. Qed.


Lemma boundary_first note content :
  indexOf BOUNDARY note = (-1)%Z ->
  indexOf BOUNDARY (note ++ BOUNDARY ++ content) = Z.of_nat (length note).
Proof.
  intros Hnone. apply indexOf_first.
  - rewrite drop_app_length. apply startsWith_app.
  - intros j Hj. rewrite drop_app_le by lia.
    pose proof (proj1 (indexOf_none _ _) Hnone j) as Hk.
    destruct (drop j note) as [|x [|y m]] eqn:E.
    + apply (f_equal length) in E. rewrite length_drop in E. simpl in E. lia.
    + unfold BOUNDARY. cbn [app startsWith].
      change (byte_eqb x03 x10) with false. apply andb_false_r.
    + exact Hk.
Qed.

(** The inner [decode] on a buffer that holds exactly one delimited
    record whose declared length passes the limit. *)
Lemma decode_record lb t body zone len :
  emptyZone zone ->
  length lb = 3%nat ->
  declared lb = Some len ->
  exceeds len = false ->
  let index := indexOf BOUNDARY body in
  decode (START ++ lb ++ [t] ++ body ++ END) zone =
    (Some (Frame (Some t) (slice_from (index + 2) body) (slice 0 index body)),
     {| cache := Some [] |}).
Proof.
  intros Hz Hlb Hdecl Hex index. unfold decode.
  assert (default [] (cache zone) = []) as -> by (destruct Hz as [-> | ->]; reflexivity).
  rewrite app_nil_l.
  set (data := START ++ lb ++ [t] ++ body ++ END).
  assert (slice 0 3 data = START) as ->.
  { change 3%Z with (Z.of_nat (length START)). apply slice_prefix. }
  assert (slice_from (Z.of_nat (length data) - 3) data = END) as ->.
  { change 3%Z with (Z.of_nat (length END)). subst data.
    replace (START ++ lb ++ [t] ++ body ++ END)
      with ((START ++ lb ++ [t] ++ body) ++ END) by (now rewrite <- !app_assoc).
    apply slice_from_suffix. }
  unfold equals. rewrite !bool_decide_eq_true_2 by reflexivity. cbn [negb orb].
  destruct lb as [|b0 [|b1 [|b2 [|]]]]; try discriminate Hlb.
  assert (slice 3 6 data = [b0; b1; b2]) as -> by reflexivity.
  rewrite Hdecl, Hex.
  assert (data !! 6%nat = Some t) as -> by reflexivity.
  assert (slice 7 (Z.of_nat (length data) - 3) data = body) as ->.
  { subst data.
    change (START ++ [b0; b1; b2] ++ [t] ++ body ++ END)
      with ((START ++ [b0; b1; b2] ++ [t]) ++ body ++ END).
    change 7%Z with (Z.of_nat (length (START ++ [b0; b1; b2] ++ [t]))).
    change 3%Z with (Z.of_nat (length END)).
    apply slice_middle. }
  reflexivity.
Qed.

(** Re-joining the un-padded digits never gives more than the value. *)
Lemma rejoin_le x0 x1 x2 :
  x1 < 256 -> x2 < 256 -> rejoin x0 x1 x2 <= x0 * 65536 + x1 * 256 + x2.
Proof.
  intros H1 H2. unfold rejoin, hexWidth.
  destruct (x1 <? 16), (x2 <? 16); lia.
Qed.

Lemma declared_lengthBytes n :
  n < 16777216 ->
  declared (lengthBytes n) =
    Some (Some (rejoin (n / 65536) ((n / 256) mod 256) (n mod 256))).
Proof.
  intros Hn. pose proof (lengthBytes_value n Hn) as Hv.
  unfold lengthBytes in *. rewrite declared_three.
  cbn [fmap list_fmap] in Hv. injection Hv as -> -> ->. reflexivity.
Qed.

Lemma declared_lengthBytes_le n :
  n < 16777216 ->
  exists m, declared (lengthBytes n) = Some (Some m) /\ m <= n.
Proof.
  intros Hn. eexists. split; [apply declared_lengthBytes; exact Hn|].
  etransitivity; [apply rejoin_le; apply N.mod_lt; lia|]. lia_div.
Qed.

End CodecFacts.


(** ** The codec: round trip, length field, size limit *)

Section CodecClaims.
Import Js JsFacts BufferFacts Signal CodecSpec LengthField CodecFacts.

Lemma cut_none fuel data :
  indexOf JOINT data = (-1)%Z -> cut fuel data = [data].
Proof. intros H. destruct fuel; cbn [cut]; rewrite H; reflexivity. Qed.

Lemma encode_some signal content note frame :
  exports.encode signal (Some content) (Some note) = Some frame ->
  frameLength content note <= MAX_INFO_SIZE /\
  frame = START ++ lengthBytes (frameLength content note) ++ signal
            ++ note ++ BOUNDARY ++ content ++ END.
Proof.
  rewrite encode_eq. cbv zeta. cbn [default from_option]. unfold id.
  destruct (N.ltb_spec MAX_INFO_SIZE (frameLength content note)); [discriminate|].
  intros [= <-]. split; [assumption | reflexivity].
Qed.

Lemma MAX_INFO_SIZE_value : MAX_INFO_SIZE = 5242880.
Proof. reflexivity. Qed.

(** C1 (as amended). Decoding an encoded frame into an empty reassembly
    buffer gives back the type, content and note, provided the note does
    not contain the boundary marker and the frame does not contain an end
    marker followed by a start marker: the protocol has no escaping. *)
Theorem codec_roundtrip t content note frame zone :
  emptyZone zone ->
  exports.encode [t] (Some content) (Some note) = Some frame ->
  indexOf BOUNDARY note = (-1)%Z ->
  indexOf JOINT frame = (-1)%Z ->
  exports.decode frame zone =
    (Some [Frame (Some t) content note], {| cache := Some [] |}).
Proof.
  intros Hz Henc Hnote Hjoint.
  destruct (encode_some _ _ _ _ Henc) as [Hcap Hframe].
  unfold exports.decode, split. rewrite cut_none by exact Hjoint.
  cbn [decode_each]. rewrite MAX_INFO_SIZE_value in Hcap.
  destruct (declared_lengthBytes_le (frameLength content note)) as (m & Hdecl & Hm);
    [lia|].
  rewrite Hframe.
  change (START ++ lengthBytes (frameLength content note) ++ [t]
            ++ note ++ BOUNDARY ++ content ++ END)
    with (START ++ lengthBytes (frameLength content note) ++ [t]
            ++ (note ++ BOUNDARY ++ content ++ END)).
  replace (note ++ BOUNDARY ++ content ++ END)
    with ((note ++ BOUNDARY ++ content) ++ END) by (now rewrite <- !app_assoc).
  rewrite (decode_record _ _ _ _ (Some m) Hz (lengthBytes_length _) Hdecl).
  2:{ cbn [exceeds]. apply N.ltb_ge. rewrite MAX_INFO_SIZE_value. lia. }
  rewrite boundary_first by exact Hnote.
  rewrite slice_prefix.
  replace (Z.of_nat (length note) + 2)%Z
    with (Z.of_nat (length (note ++ BOUNDARY))) by (rewrite length_app; simpl; lia).
  replace (note ++ BOUNDARY ++ content) with ((note ++ BOUNDARY) ++ content)
    by (now rewrite <- app_assoc).
  rewrite slice_from_prefix. reflexivity.
Qed.

Lemma codec_roundtrip_witness :
  exports.decode
    [x12; x23; x33; x00; x00; x0f; x03; x61; x10; x03; x68; x69; xab; xcd; xef]
    {| cache := None |} =
  (Some [Frame (Some x03) [x68; x69] [x61]], {| cache := Some [] |}).
Proof.
  apply (codec_roundtrip x03 [x68; x69] [x61]).
  - left. reflexivity.
  - vm_compute. reflexivity.
  - vm_compute. reflexivity.
  - vm_compute. reflexivity.
Defined.

(** C1 as stated fails: a note that contains the boundary marker is cut
    at its first occurrence, so the decoded note and content differ from
    the encoded ones. *)
Lemma codec_roundtrip_unrestricted_fails :
  ~ (forall t content note frame,
       exports.encode [t] (Some content) (Some note) = Some frame ->
       exports.decode frame {| cache := None |} =
         (Some [Frame (Some t) content note], {| cache := Some [] |})).
Proof.
  intros H.
  specialize (H x03 [x68; x69] [x10; x03] _ eq_refl).
  vm_compute in H. discriminate H.
Qed.

Lemma encoded_length_bytes signal content note frame :
  exports.encode signal (Some content) (Some note) = Some frame ->
  slice 3 6 frame = lengthBytes (frameLength content note).
Proof.
  intros Henc. destruct (encode_some _ _ _ _ Henc) as [_ ->]. reflexivity.
Qed.

Lemma rejoin_shifted n :
  n < 16777216 ->
  let m := rejoin (n / 65536) ((n / 256) mod 256) (n mod 256) in
  (shifted n -> m < n) /\ (~ shifted n -> m = n).
Proof.
  intros Hn m. subst m. unfold shifted, rejoin, hexWidth.
  destruct (N.ltb_spec ((n / 256) mod 256) 16), (N.ltb_spec (n mod 256) 16);
    split; intros Hs; lia_div.
Qed.

(** C3. The decoder reads the length back from the un-padded hexadecimal
    texts of the three length bytes: for every frame [encode] produces, the
    value read is smaller than the length written whenever a length byte
    below 16 has a non-zero byte before it, and equal otherwise; a frame
    of 256 bytes is read as 16. *)
Theorem length_field_unreliable signal content note frame :
  exports.encode signal (Some content) (Some note) = Some frame ->
  exists m,
    declared (slice 3 6 frame) = Some (Some m) /\
    (shifted (frameLength content note) -> m < frameLength content note) /\
    (~ shifted (frameLength content note) -> m = frameLength content note).
Proof.
  intros Henc. rewrite (encoded_length_bytes _ _ _ _ Henc).
  destruct (encode_some _ _ _ _ Henc) as [Hcap _].
  rewrite MAX_INFO_SIZE_value in Hcap.
  eexists. split; [apply declared_lengthBytes; lia|].
  apply rejoin_shifted. lia.
Qed.

Lemma length_field_unreliable_witness :
  exists frame,
    exports.encode [x01] (Some (replicate 244 x00)) (Some []) = Some frame /\
    frameLength (replicate 244 x00) [] = 256 /\
    declared (slice 3 6 frame) = Some (Some 16).
Proof.
  destruct (exports.encode [x01] (Some (replicate 244 x00)) (Some [])) as [frame|] eqn:E;
    [|vm_compute in E; discriminate E].
  exists frame. split; [reflexivity|]. split; [reflexivity|].
  destruct (length_field_unreliable _ _ _ _ E) as (m & Hm & Hlt & _).
  rewrite Hm. assert (m = 16) as ->; [|reflexivity].
  assert (Some (Some m) = Some (Some 16)) as [= ->]; [|reflexivity].
  rewrite <- Hm. revert E. vm_compute. intros [= <-]. reflexivity.
Defined.




(** C2 (the stream decoder misses a case). Two frames sent back to back
    are decoded as two frames when they arrive in one chunk; when the chunk
    boundary falls one byte after the first frame, the search for an end
    marker followed by a start marker sees neither chunk contain it, and the
    two frames come out as a single frame whose content holds the second. *)
Theorem chunking_joint_straddle :
  let f1 := [x12; x23; x33; x00; x00; x0d; x05; x10; x03; x32; xab; xcd; xef] in
  let f2 := [x12; x23; x33; x00; x00; x0f; x03; x61; x10; x03; x68; x69; xab; xcd; xef] in
  let zone := {| cache := Some [] |} in
  exports.encode [x05] (Some [x32]) None = Some f1 /\
  exports.encode [x03] (Some [x68; x69]) (Some [x61]) = Some f2 /\
  fst (decode_chunks [f1 ++ f2] zone) =
    Some [Frame (Some x05) [x32] []; Frame (Some x03) [x68; x69] [x61]] /\
  fst (decode_chunks [take 14 (f1 ++ f2); drop 14 (f1 ++ f2)] zone) =
    Some [Frame (Some x05) ([x32] ++ END ++ take 12 f2) []].
Proof. vm_compute. repeat split; reflexivity. Qed.

End CodecClaims.

(** ** The worker: actions that leave the check barrier alone *)

Module WorkerFacts.
Import Signal Worker WorkerSpec CodecSpec CodecFacts.
Local Close Scope N_scope.

Lemma encode_typeOf t signal content note frame :
  exports.encode (t :: signal) content note = Some frame -> typeOf frame = Some t.
Proof.
  rewrite encode_eq. cbv zeta.
  destruct (_ <? _)%N; [discriminate|]. intros [= <-]. reflexivity.
Qed.

Lemma fmap_app_nil (o : option (list nat)) : o = (fun x => x ++ []) <$> o.
Proof. destruct o; cbn; now rewrite ?app_nil_r. Qed.

Lemma Quiet_refl s : Quiet s s.
Proof.
  constructor; try reflexivity.
  - exists []. destruct (sync (socket s)); cbn; now rewrite ?app_nil_r.
  - exists []. rewrite app_nil_r. split; [reflexivity | constructor].
  - exists []. rewrite app_nil_r. split; [reflexivity | constructor].
  - auto.
Qed.

Lemma Quiet_trans s1 s2 s3 : Quiet s1 s2 -> Quiet s2 s3 -> Quiet s1 s3.
Proof.
  intros [Hc Hk [l1 Hs] [a1 [Ha Hfa]] [o1 [Ho Hfo]] Hl Hp]
         [Hc' Hk' [l2 Hs'] [a2 [Ha' Hfa']] [o2 [Ho' Hfo']] Hl' Hp'].
  constructor.
  - congruence.
  - congruence.
  - exists (l1 ++ l2). rewrite Hs', Hs. destruct (sync (socket s1)); cbn; [|reflexivity].
    now rewrite app_assoc.
  - exists (a1 ++ a2). rewrite Ha', Ha, app_assoc. split; [reflexivity|].
    apply Forall_app; split; assumption.
  - exists (o1 ++ o2). rewrite Ho', Ho, app_assoc. split; [reflexivity|].
    apply Forall_app; split; assumption.
  - lia.
  - intros p st H1 H2. apply Hp'; [|exact H2]. apply Hp; assumption.
Qed.

(** Changes of the fields the barrier does not depend on. *)
Lemma Quiet_fields s s' :
  checked (socket s') = checked (socket s) ->
  calls s' = calls s ->
  sync (socket s') = sync (socket s) ->
  alls s' = alls s ->
  out s' = out s ->
  promises s' = promises s ->
  Quiet s s'.
Proof.
  intros Hc Hk Hs Ha Ho Hp. constructor.
  - exact Hc.
  - exact Hk.
  - exists []. rewrite Hs. destruct (sync (socket s)); cbn; now rewrite ?app_nil_r.
  - exists []. rewrite Ha, app_nil_r. split; [reflexivity | constructor].
  - exists []. rewrite Ho, app_nil_r. split; [reflexivity | constructor].
  - now rewrite Hp.
  - intros p st H _. now rewrite Hp.
Qed.

Lemma Quiet_written s s' l :
  checked (socket s') = checked (socket s) ->
  calls s' = calls s ->
  sync (socket s') = sync (socket s) ->
  alls s' = alls s ->
  out s' = out s ++ l ->
  Forall (fun b => isCheckOff b = false) l ->
  promises s' = promises s ->
  Quiet s s'.
Proof.
  intros Hc Hk Hs Ha Ho Hl Hp. constructor.
  - exact Hc.
  - exact Hk.
  - exists []. rewrite Hs. destruct (sync (socket s)); cbn; now rewrite ?app_nil_r.
  - exists []. rewrite Ha, app_nil_r. split; [reflexivity | constructor].
  - exists l. split; assumption.
  - now rewrite Hp.
  - intros p st H _. now rewrite Hp.
Qed.

Lemma Quiet_promises s s' :
  checked (socket s') = checked (socket s) ->
  calls s' = calls s ->
  sync (socket s') = sync (socket s) ->
  alls s' = alls s ->
  out s' = out s ->
  length (promises s) <= length (promises s') ->
  (forall p st, promises s !! p = Some st -> st <> Pending ->
                promises s' !! p = Some st) ->
  Quiet s s'.
Proof.
  intros Hc Hk Hs Ha Ho Hl Hp. constructor.
  - exact Hc.
  - exact Hk.
  - exists []. rewrite Hs. destruct (sync (socket s)); cbn; now rewrite ?app_nil_r.
  - exists []. rewrite Ha, app_nil_r. split; [reflexivity | constructor].
  - exists []. rewrite Ho, app_nil_r. split; [reflexivity | constructor].
  - exact Hl.
  - exact Hp.
Qed.

Section QuietActions.
Variable env : Env.

Lemma quiet_ret {A} (a : A) : quiet (ret a).
Proof. intros s. apply Quiet_refl. Qed.

Lemma quiet_throw {A} : quiet (@throw A).
Proof. intros s. apply Quiet_refl. Qed.

Lemma quiet_get : quiet get.
Proof. intros s. apply Quiet_refl. Qed.

Lemma quiet_bind {A B} (m : M A) (k : A -> M B) :
  quiet m -> (forall a, quiet (k a)) -> quiet (bind m k).
Proof.
  intros Hm Hk s. unfold bind. specialize (Hm s).
  destruct (m s) as [a s'|s']; [|exact Hm].
  specialize (Hk a s'). destruct (k a s'); eapply Quiet_trans; eassumption.
Qed.

Lemma quiet_modify f : (forall s, Quiet s (f s)) -> quiet (modify f).
Proof. intros H s. apply H. Qed.

Lemma quiet_write data :
  (forall bytes, data = Some bytes -> isCheckOff bytes = false) ->
  quiet (write data).
Proof.
  intros H. destruct data as [bytes|]; [|apply quiet_throw].
  apply quiet_modify. intros s.
  apply (Quiet_written _ _ [bytes]); try reflexivity.
  constructor; [now apply H | constructor].
Qed.

Lemma quiet_write_encode t content note :
  t <> xfd -> quiet (write (exports.encode [t] content note)).
Proof.
  intros Ht. apply quiet_write. intros bytes H.
  unfold isCheckOff. rewrite (encode_typeOf _ _ _ _ _ H).
  destruct (byte_eqb t xfd) eqn:E; [|reflexivity].
  apply Byte.byte_dec_bl in E. contradiction.
Qed.

Lemma quiet_console info : quiet (console_ env info).
Proof.
  unfold console_. apply quiet_bind; [apply quiet_get|]. intros s.
  destruct (console (socket s)); [|apply quiet_throw].
  apply quiet_write_encode. discriminate.
Qed.

Lemma quiet_relativeToAbsolute relative : quiet (relativeToAbsolute env relative).
Proof.
  unfold relativeToAbsolute. apply quiet_bind; [apply quiet_get|]. intros s.
  destruct (uid (socket s)), (project (socket s));
    first [apply quiet_ret | apply quiet_throw].
Qed.

Lemma quiet_startOp op : quiet (startOp op).
Proof. apply quiet_modify. intros s. now apply Quiet_fields. Qed.

Lemma Quiet_settleIn s p v : Quiet s (with_promises (settleIn p v) s).
Proof.
  apply Quiet_promises; try reflexivity; cbn; unfold settleIn.
  - destruct (promises s !! p) as [[| |]|]; rewrite ?length_insert; lia.
  - intros q st Hq Hst. destruct (promises s !! p) as [[| |]|] eqn:E; try exact Hq.
    destruct (decide (p = q)) as [->|Hne].
    + congruence.
    + now rewrite list_lookup_insert_ne.
Qed.

Lemma quiet_settlePromise p v : quiet (settlePromise p v).
Proof. apply quiet_modify. intros s. apply Quiet_settleIn. Qed.

Lemma Quiet_promise_new s :
  Quiet s (with_promises (fun ps => ps ++ [Pending]) s).
Proof.
  apply Quiet_promises; try reflexivity.
  - cbn. rewrite length_app. lia.
  - cbn. intros q st Hq _. now apply lookup_app_l_Some.
Qed.

Lemma quiet_newPromise executor :
  (forall p, quiet (executor p)) -> quiet (newPromise executor).
Proof.
  intros He. unfold newPromise. apply quiet_bind; [apply quiet_get|]. intros s0.
  apply quiet_bind; [apply quiet_modify; apply Quiet_promise_new|]. intros _ s.
  specialize (He (length (promises s0)) s).
  destruct (executor _ s) as [a s'|s']; [exact He|].
  eapply Quiet_trans; [exact He | apply Quiet_settleIn].
Qed.

Lemma quiet_syncPush make : quiet make -> quiet (syncPush make).
Proof.
  intros Hm. unfold syncPush. apply quiet_bind; [apply quiet_get|]. intros s0.
  destruct (sync (socket s0)); [|apply quiet_throw].
  apply quiet_bind; [exact Hm|]. intros p.
  apply quiet_modify. intros s. constructor; try reflexivity.
  - exists [p]. cbn. destruct (sync (socket s)); reflexivity.
  - exists []. rewrite app_nil_r. split; [reflexivity | constructor].
  - exists []. rewrite app_nil_r. split; [reflexivity | constructor].
  - auto.
Qed.

Lemma quiet_requireBuilder : quiet (requireBuilder env).
Proof.
  unfold requireBuilder. apply quiet_bind; [apply quiet_get|]. intros s.
  destruct (builder (socket s)) as [name|]; [|apply quiet_throw].
  destruct (loadable env name); [apply quiet_ret | apply quiet_throw].
Qed.

Lemma quiet_catch m handler : quiet m -> quiet handler -> quiet (catch m handler).
Proof.
  intros Hm Hh s. unfold catch. specialize (Hm s).
  destruct (m s) as [a s'|s']; [exact Hm|].
  specialize (Hh s'). destruct (handler s'); eapply Quiet_trans; eassumption.
Qed.

Lemma Quiet_swallow m s : quiet m -> Quiet s (swallow m s).
Proof. intros Hm. unfold swallow. specialize (Hm s). now destruct (m s). Qed.

Lemma quiet_fileCover filepath content cb : quiet (fileCover env filepath content cb).
Proof.
  unfold fileCover. apply quiet_bind; [apply quiet_relativeToAbsolute|].
  intros ?. apply quiet_startOp.
Qed.

Lemma quiet_fileDelete filepath : quiet (fileDelete env filepath).
Proof.
  unfold fileDelete. apply quiet_bind; [apply quiet_relativeToAbsolute|].
  intros ?. apply quiet_startOp.
Qed.

Lemma quiet_fileCheck filepath info : quiet (fileCheck env filepath info).
Proof.
  unfold fileCheck. apply quiet_bind; [apply quiet_relativeToAbsolute|].
  intros ?. apply quiet_startOp.
Qed.

Lemma quiet_development : quiet (development env).
Proof.
  unfold development.
  apply quiet_bind; [apply quiet_requireBuilder|]. intros _.
  apply quiet_bind; [apply quiet_relativeToAbsolute|]. intros _.
  apply quiet_bind; [apply quiet_modify; intros s; now apply Quiet_fields|]. intros _.
  apply quiet_bind; [apply quiet_startOp|]. intros _.
  apply quiet_bind; [apply quiet_get|]. intros s.
  destruct (closed (socket s)); [apply quiet_ret | apply quiet_throw].
Qed.

Lemma quiet_build : quiet (build env).
Proof.
  unfold build.
  apply quiet_bind; [apply quiet_relativeToAbsolute|]. intros ?.
  apply quiet_bind; [apply quiet_requireBuilder|]. intros _.
  apply quiet_startOp.
Qed.

Lemma quiet_install installStarts p : quiet (install env installStarts p).
Proof.
  unfold install. apply quiet_bind; [apply quiet_relativeToAbsolute|]. intros ?.
  destruct installStarts; [apply quiet_startOp | apply quiet_throw].
Qed.

Lemma quiet_buildFile buildPath filepath data p :
  quiet (buildFile env buildPath filepath data p).
Proof.
  unfold buildFile. apply quiet_bind; [apply quiet_get|]. intros s.
  destruct (distIgnore (socket s)) as [ignore|]; [|apply quiet_throw].
  destruct (default false _); [apply quiet_settlePromise|].
  apply quiet_bind; [apply quiet_write_encode; discriminate|]. intros _.
  apply quiet_startOp.
Qed.

Lemma quiet_readEach root buildPath files : quiet (readEach root buildPath files).
Proof.
  induction files as [|filepath rest IH]; cbn [readEach]; [apply quiet_ret|].
  apply quiet_bind; [apply quiet_newPromise; intros p; apply quiet_startOp|].
  intros p. apply quiet_bind; [exact IH|]. intros ps. apply quiet_ret.
Qed.

Lemma quiet_built root files : quiet (built env root files).
Proof.
  unfold built. apply quiet_bind; [apply quiet_console|]. intros _.
  apply quiet_bind; [apply quiet_readEach|]. intros ps.
  apply quiet_modify. intros s. constructor; try reflexivity.
  - exists []. apply fmap_app_nil.
  - eexists. split; [reflexivity|]. constructor; [reflexivity | constructor].
  - exists []. rewrite app_nil_r. split; [reflexivity | constructor].
  - auto.
Qed.

End QuietActions.

(** *** What the promise jobs leave alone *)

Section SettleFrame.
Variable env : Env.

Lemma write_frame data s :
  match write data s with
  | Return _ s' | Throw s' =>
      socket s' = socket s /\ promises s' = promises s /\ ops s' = ops s /\
      calls s' = calls s /\ crashed s' = crashed s /\ devs s' = devs s /\
      alls s' = alls s
  end.
Proof. destruct data; cbn; repeat split. Qed.

Lemma console_frame info s :
  match console_ env info s with
  | Return _ s' | Throw s' =>
      socket s' = socket s /\ promises s' = promises s /\ ops s' = ops s /\
      calls s' = calls s /\ crashed s' = crashed s /\ devs s' = devs s /\
      alls s' = alls s
  end.
Proof.
  unfold console_, bind, get. destruct (console (socket s)).
  - apply write_frame.
  - cbn. repeat split.
Qed.

Lemma react_frame r s :
  let s' := swallow (react env r) s in
  socket s' = socket s /\ promises s' = promises s /\ ops s' = ops s /\
  calls s' = calls s /\ crashed s' = crashed s /\ devs s' = devs s /\
  alls s' = alls s.
Proof.
  destruct r; cbn [react]; unfold swallow, bind.
  - pose proof (write_frame (exports.encode exports.SERVER_CHECK_OFF None None) s) as Hw.
    destruct (write _ s) as [[] s1|s1]; [|exact Hw].
    pose proof (console_frame CompletedProjectSync s1) as Hc.
    destruct (console_ env _ s1); intuition congruence.
  - pose proof (console_frame BuildDone s) as Hc.
    destruct (console_ env _ s) as [[] s1|s1]; [|exact Hc].
    pose proof (write_frame (exports.encode exports.SERVER_FIN None None) s1) as Hw.
    destruct (write _ s1); intuition congruence.
Qed.

Lemma settle_frame pending : forall done s,
  let s' := settle env pending done s in
  socket s' = socket s /\ promises s' = promises s /\ ops s' = ops s /\
  calls s' = calls s /\ crashed s' = crashed s /\ devs s' = devs s.
Proof.
  induction pending as [|a rest IH]; intros done s; cbn [settle].
  - cbn. repeat split.
  - destruct (all_state a); try apply IH.
    destruct (allOf (promises s) (deps a)); try apply IH.
    specialize (IH (done ++ [ {| deps := deps a; reaction := reaction a;
                                 all_state := Fulfilled |} ])
                   (swallow (react env (reaction a)) s)).
    pose proof (react_frame (reaction a) s) as Hr. cbv zeta in *.
    intuition congruence.
Qed.

End SettleFrame.

(** *** Properties kept by every event *)

Section Preservation.
Variable env : Env.
Variable P : State -> Prop.
Hypothesis P_quiet : forall s s', P s -> Quiet s s' -> P s'.
Hypothesis P_checked : preserves P checked_.
Hypothesis P_settle : forall s, P s -> P (settle env (alls s) [] s).
Hypothesis P_crash : forall s, P s -> P (crash s).

Lemma preserves_quiet {A} (m : M A) : quiet m -> preserves P m.
Proof.
  intros Hm s Hs. specialize (Hm s).
  destruct (m s); eapply P_quiet; eassumption.
Qed.

Lemma preserves_bind {A B} (m : M A) (k : A -> M B) :
  preserves P m -> (forall a, preserves P (k a)) -> preserves P (bind m k).
Proof.
  intros Hm Hk s Hs. unfold bind. specialize (Hm s Hs).
  destruct (m s) as [a s'|s']; [|exact Hm]. apply Hk. exact Hm.
Qed.

Lemma preserves_fileSync filepath content :
  preserves P (fileSync env filepath content).
Proof.
  unfold fileSync. apply preserves_bind.
  - apply preserves_quiet, quiet_syncPush, quiet_newPromise.
    intros p. apply quiet_fileCover.
  - intros _. destruct (negb _); [exact P_checked|].
    apply preserves_quiet, quiet_ret.
Qed.

Lemma preserves_callback cb : preserves P (callback cb).
Proof.
  destruct cb as [[p|p]|]; cbn [callback].
  - apply preserves_quiet, quiet_settlePromise.
  - apply preserves_bind; [exact P_checked|]. intros _.
    apply preserves_quiet, quiet_settlePromise.
  - apply preserves_quiet, quiet_ret.
Qed.

Ltac quiet_chain :=
  repeat first
    [ apply quiet_ret | apply quiet_throw | apply quiet_console
    | apply quiet_startOp | apply quiet_settlePromise
    | apply quiet_write_encode; discriminate
    | apply quiet_bind; [|intros ?] ].

Lemma preserves_complete op answer m :
  complete env op answer = Some m -> preserves P m.
Proof.
  destruct op, answer; cbn [complete]; intros [= <-];
    try (apply preserves_quiet; quiet_chain; fail).
  - apply preserves_bind; [|intros _; apply preserves_callback].
    destruct isPackageJson; apply preserves_quiet; [|apply quiet_ret].
    apply quiet_syncPush, quiet_newPromise. intros p. apply quiet_install.
  - destruct (negb _); [apply preserves_quiet; quiet_chain | exact P_checked].
  - apply preserves_quiet.
    apply (quiet_write_encode xfc None None). discriminate.
  - apply preserves_quiet. intros s. apply Quiet_swallow, quiet_console.
  - apply preserves_quiet, quiet_catch.
    + apply quiet_built.
    + intros s. apply Quiet_swallow, quiet_console.
  - apply preserves_quiet, quiet_buildFile.
Qed.

Lemma preserves_handle t content note :
  t <> exports.CLIENT_INIT ->
  t <> exports.CLIENT_NUMBER_OF_CHECK_FILES ->
  preserves P (handle env (Some t) content note).
Proof.
  intros Hinit Hcount. unfold handle.
  repeat (destruct (decide _) as [?|?]; [subst t|]); try contradiction.
  - apply preserves_quiet, quiet_fileCover.
  - apply preserves_quiet, quiet_fileDelete.
  - apply preserves_quiet, quiet_fileCheck.
  - apply preserves_fileSync.
  - apply preserves_quiet, quiet_development.
  - apply preserves_quiet.
    destruct (parseIgnore env _); [|apply quiet_throw].
    apply quiet_modify. intros s. now apply Quiet_fields.
  - apply preserves_quiet, quiet_build.
  - apply preserves_quiet, quiet_ret.
Qed.

Lemma preserves_finish m s : preserves P m -> P s -> P (finish env (m s)).
Proof.
  intros Hm Hs. specialize (Hm s Hs). unfold finish.
  destruct (m s); [apply P_settle | apply P_crash]; exact Hm.
Qed.

Lemma step_preserves ev s s' :
  (forall t content note,
     ev = Receive (Some t) content note ->
     t = exports.CLIENT_INIT \/ t = exports.CLIENT_NUMBER_OF_CHECK_FILES ->
     preserves P (handle env (Some t) content note)) ->
  step env ev s = Some s' -> P s -> P s'.
Proof.
  intros Hspecial Hstep Hs. unfold step in Hstep.
  destruct (crashed s); [discriminate|].
  destruct ev as [[t|] content note|i answer|].
  - injection Hstep as <-.
    apply (preserves_finish (handle env (Some t) content note)); [|exact Hs].
    destruct (decide (t = exports.CLIENT_INIT)) as [Hi|Hi];
      [apply (Hspecial t content note eq_refl); left; exact Hi|].
    destruct (decide (t = exports.CLIENT_NUMBER_OF_CHECK_FILES)) as [Hc|Hc];
      [apply (Hspecial t content note eq_refl); right; exact Hc|].
    apply preserves_handle; assumption.
  - injection Hstep as <-.
    apply (preserves_finish (handle env None content note)); [|exact Hs].
    apply preserves_quiet, quiet_ret.
  - destruct (ops s !! i) as [op|]; [|discriminate].
    destruct (complete env op answer) as [m|] eqn:Hm; [|discriminate].
    injection Hstep as <-. apply preserves_finish.
    + eapply preserves_complete. exact Hm.
    + eapply P_quiet; [exact Hs|]. now apply Quiet_fields.
  - destruct (closed (socket s)); injection Hstep as <-; [|exact Hs].
    eapply P_quiet; [exact Hs|]. now apply Quiet_fields.
Qed.

Lemma run_preserves evs : forall s s',
  Forall (fun ev => forall t content note,
            ev = Receive (Some t) content note ->
            t = exports.CLIENT_INIT \/ t = exports.CLIENT_NUMBER_OF_CHECK_FILES ->
            preserves P (handle env (Some t) content note)) evs ->
  run env evs s = Some s' -> P s -> P s'.
Proof.
  induction evs as [|ev evs IH]; intros s s' Hall Hrun Hs; cbn [run] in Hrun.
  - now injection Hrun as <-.
  - destruct (step env ev s) as [s1|] eqn:Hstep; [|discriminate].
    inversion Hall as [|? ? Hev Hrest]; subst.
    eapply IH; [exact Hrest | exact Hrun|].
    eapply step_preserves; eassumption.
Qed.

End Preservation.

Lemma settleIn_other p q v ps : p <> q -> settleIn p v ps !! q = ps !! q.
Proof.
  intros Hne. unfold settleIn. destruct (ps !! p) as [[| |]|]; try reflexivity.
  now apply list_lookup_insert_ne.
Qed.

(** *** Calling the barrier *)

Lemma checked_undefined s : checked (socket s) = None -> checked_ s = Throw s.
Proof. intros H. unfold checked_, bind, get. now rewrite H. Qed.

Lemma checked_defined s total :
  checked (socket s) = Some total ->
  exists s',
    checked_ s = Return tt s' /\
    checked (socket s') = Some (decrement total) /\
    calls s' = S (calls s) /\
    crashed s' = crashed s /\ out s' = out s /\ ops s' = ops s /\
    promises s' = promises s /\ sync (socket s') = sync (socket s).
Proof.
  intros H. unfold checked_, bind, get. rewrite H. cbn [modify].
  destruct (decrement total) as [[| |]|]; eexists; (split; [reflexivity|]);
    cbn; repeat split.
Qed.

Lemma init_checked env info s :
  match init env info s with
  | Return _ s' | Throw s' => checked (socket s') = None
  end.
Proof.
  unfold init, bind. cbn [modify].
  match goal with |- context [write ?d ?s1] =>
    pose proof (write_frame d s1) as Hw; destruct (write d s1) as [[] s2|s2] end.
  - pose proof (console_frame env ConnectionInitialized s2) as Hc.
    destruct (console_ env _ s2) as [[] s3|s3];
      destruct Hc as [-> _]; destruct Hw as [-> _]; reflexivity.
  - destruct Hw as [-> _]. reflexivity.
Qed.

(** The barrier is undefined as long as no countdown was announced. *)
Lemma undefined_until_announced env evs s :
  run env evs freshState = Some s ->
  Forall (fun ev => ~ isNumberOfCheckFiles ev) evs ->
  checked (socket s) = None.
Proof.
  intros Hrun Hevs.
  apply (run_preserves env (fun s => checked (socket s) = None)) with (evs := evs)
                                                                      (s := freshState).
  - intros s1 s2 H [Hc _ _ _ _ _ _]. congruence.
  - intros s1 H. now rewrite checked_undefined.
  - intros s1 H. now rewrite (proj1 (settle_frame env (alls s1) [] s1)).
  - intros s1 H. exact H.
  - eapply Forall_impl; [exact Hevs|]. intros ev Hev t content note -> [->| ->].
    + intros s1 H1. unfold handle.
      destruct (decide _) as [_|Hne]; [|contradiction].
      destruct (parseInit env (toString env content)) as [info|];
        [apply init_checked | exact H1].
    + exfalso. apply Hev. reflexivity.
  - exact Hrun.
  - reflexivity.
Qed.

(** *** The barrier invariant *)

Lemma filter_none {A} (f : A -> bool) (l : list A) :
  Forall (fun x => f x = false) l -> List.filter f l = [].
Proof.
  induction 1 as [|x l Hx _ IH]; cbn; [reflexivity|]. now rewrite Hx.
Qed.

Lemma offPromises_app l1 l2 : offPromises (l1 ++ l2) = offPromises l1 ++ offPromises l2.
Proof. apply List.filter_app. Qed.

Lemma checkOffs_app o1 o2 : checkOffs (o1 ++ o2) = checkOffs o1 + checkOffs o2.
Proof. unfold checkOffs. now rewrite List.filter_app, length_app. Qed.

Lemma fulfilled_stable s s' p :
  Quiet s s' -> fulfilled (promises s) p = true -> fulfilled (promises s') p = true.
Proof.
  intros Hq. unfold fulfilled.
  destruct (promises s !! p) as [[| |]|] eqn:E; try discriminate.
  intros _. now rewrite (quiet_promises _ _ Hq p Fulfilled E).
Qed.

Lemma rejected_stable s s' p :
  Quiet s s' -> rejected (promises s) p = true -> rejected (promises s') p = true.
Proof.
  intros Hq. unfold rejected.
  destruct (promises s !! p) as [[| |]|] eqn:E; try discriminate.
  intros _. now rewrite (quiet_promises _ _ Hq p Rejected E).
Qed.

Section BarrierInvariant.
Variable env : Env.
Variable N : Z.
Variables calls0 offs0 : nat.
Variable olds : list AllPromise.
Hypothesis olds_settled : Forall (fun a => all_state a <> Pending) olds.

Lemma Barrier_quiet s s' :
  Barrier N calls0 offs0 olds (alls s) s -> Quiet s s' ->
  Barrier N calls0 offs0 olds (alls s') s'.
Proof.
  intros [Hcalls Hchecked Hsync Hbefore Hafter] Hq.
  pose proof Hq as [Hc Hk [l Hs] [al [Ha Hal]] [ol [Ho Hol]] Hlen Hpr].
  assert (offPromises (alls s') = offPromises (alls s)) as Hoff.
  { rewrite Ha, offPromises_app.
    replace (offPromises al) with (@nil AllPromise); [apply app_nil_r|].
    symmetry. apply filter_none. exact Hal. }
  assert (checkOffs (out s') = checkOffs (out s)) as Hcount.
  { rewrite Ho, checkOffs_app.
    replace (checkOffs ol) with 0; [lia|].
    unfold checkOffs. now rewrite (filter_none _ _ Hol). }
  constructor.
  - lia.
  - rewrite Hc, Hk. exact Hchecked.
  - rewrite Hs. destruct Hsync as [x ->]. now eexists.
  - rewrite Hk, Hoff, Hcount. exact Hbefore.
  - rewrite Hk, Hoff, Hcount. intros Hn.
    destruct (Hafter Hn) as (a & Hl & Hf & Hful & Hrej & more & Hmore).
    exists a. repeat split; try assumption.
    + intros H. eapply Forall_impl; [apply Hful, H|].
      intros p. apply fulfilled_stable. exact Hq.
    + intros H. eapply Exists_impl; [apply Hrej, H|].
      intros p. apply rejected_stable. exact Hq.
    + rewrite Hs, Hmore. cbn. exists (more ++ l). now rewrite app_assoc.
Qed.

Lemma Barrier_checked :
  preserves (fun s => Barrier N calls0 offs0 olds (alls s) s) checked_.
Proof.
  intros s [Hcalls Hchecked Hsync Hbefore Hafter].
  unfold checked_, bind, get. rewrite Hchecked. cbn [modify decrement].
  destruct Hsync as [tasks Htasks].
  set (k := Z.of_nat (calls s - calls0)) in *.
  assert (Z.of_nat (S (calls s) - calls0) = k + 1)%Z as Hk by lia.
  destruct (N - k - 1)%Z as [|c|c] eqn:Hc.
  - (* the countdown reaches zero *)
    cbn. constructor; cbn.
    + lia.
    + rewrite Hk. do 2 f_equal. lia.
    + rewrite Htasks. now eexists.
    + rewrite Hk. lia.
    + intros _. destruct Hbefore as [Hl Ho]; [lia|].
      eexists. rewrite offPromises_app, Hl. cbn. split; [reflexivity|].
      rewrite Htasks. cbn. repeat split.
      * unfold checkOffs in Ho. rewrite Ho. lia.
      * discriminate.
      * discriminate.
      * exists []. now rewrite app_nil_r.
  - cbn. constructor; cbn.
    + lia.
    + rewrite Hk. do 2 f_equal. lia.
    + rewrite Htasks. now eexists.
    + intros _. apply Hbefore. lia.
    + rewrite Hk. lia.
  - cbn. constructor; cbn.
    + lia.
    + rewrite Hk. do 2 f_equal. lia.
    + rewrite Htasks. now eexists.
    + rewrite Hk. lia.
    + intros _. apply Hafter. lia.
Qed.

(** The barrier reads the state only through these fields. *)
Lemma Barrier_frame l s s' written :
  Barrier N calls0 offs0 olds l s ->
  calls s' = calls s ->
  checked (socket s') = checked (socket s) ->
  sync (socket s') = sync (socket s) ->
  promises s' = promises s ->
  out s' = out s ++ written ->
  Forall (fun b => isCheckOff b = false) written ->
  Barrier N calls0 offs0 olds l s'.
Proof.
  intros [Hcalls Hchecked Hsync Hbefore Hafter] Hk Hc Hs Hp Ho Hw.
  assert (checkOffs (out s') = checkOffs (out s)) as Hcount.
  { rewrite Ho, checkOffs_app.
    replace (checkOffs written) with 0; [lia|].
    unfold checkOffs. now rewrite (filter_none _ _ Hw). }
  constructor; rewrite ?Hk, ?Hc, ?Hs, ?Hp, ?Hcount; assumption.
Qed.

Lemma snoc_inside {A} (xs ys zs : list A) (a b : A) :
  xs ++ a :: ys = zs ++ [b] ->
  (ys = [] /\ xs = zs /\ a = b) \/ a ∈ zs.
Proof.
  induction ys as [|y ys' _] using rev_ind; intros H.
  - left. apply app_inj_tail in H as [-> ->]. auto.
  - right. change (xs ++ a :: ys' ++ [y]) with (xs ++ (a :: ys') ++ [y]) in H.
    rewrite app_assoc in H. apply app_inj_tail in H as [<- _].
    apply elem_of_app. right. left.
Qed.

Lemma allOf_Fulfilled ps deps :
  allOf ps deps = Fulfilled -> Forall (fun p => fulfilled ps p = true) deps.
Proof.
  unfold allOf. destruct (existsb _ _); [discriminate|].
  destruct (forallb _ _) eqn:E; [|discriminate]. intros _.
  apply Forall_forall. intros p Hp. rewrite forallb_forall in E.
  apply E. now apply list_elem_of_In.
Qed.

Lemma allOf_Rejected ps deps :
  allOf ps deps = Rejected -> Exists (fun p => rejected ps p = true) deps.
Proof.
  unfold allOf. destruct (existsb _ _) eqn:E.
  - intros _. apply existsb_exists in E as (p & Hin & Hp).
    apply Exists_exists. exists p. split; [now apply list_elem_of_In | exact Hp].
  - destruct (forallb _ _); discriminate.
Qed.

(** The reaction of a check barrier writes one check-off frame. *)
Lemma react_CheckOff s :
  let s' := swallow (react env CheckOff) s in
  checkOffs (out s') = S (checkOffs (out s)).
Proof.
  cbn [react]. unfold swallow, bind.
  change (write (exports.encode exports.SERVER_CHECK_OFF None None) s)
    with (Return tt (with_out (fun o => o ++
            [[x12; x23; x33; x00; x00; x0c; xfd; x10; x03; xab; xcd; xef]]) s)).
  cbv beta iota zeta.
  match goal with |- context [console_ env ?i ?s1] =>
    pose proof (quiet_console env i s1) as Hq;
    destruct (console_ env i s1) as [[] s2|s2] end;
    destruct Hq as [_ _ _ _ [ol [Ho Hol]] _ _];
    rewrite Ho; cbn [out with_out]; rewrite !checkOffs_app;
    (replace (checkOffs ol) with 0 by
       (unfold checkOffs; now rewrite (filter_none _ _ Hol)));
    cbn; lia.
Qed.

Lemma react_BuildFinished s :
  exists written,
    out (swallow (react env BuildFinished) s) = out s ++ written /\
    Forall (fun b => isCheckOff b = false) written.
Proof.
  assert (quiet (react env BuildFinished)) as Hq.
  { cbn [react]. apply quiet_bind; [apply quiet_console|]. intros _.
    apply quiet_write_encode. discriminate. }
  apply (Quiet_swallow _ s) in Hq. apply Hq.
Qed.

Lemma offPromises_mid done a rest :
  offPromises (done ++ a :: rest) =
    if isOff a then offPromises done ++ a :: offPromises rest
    else offPromises done ++ offPromises rest.
Proof.
  rewrite offPromises_app. unfold offPromises at 2. cbn [List.filter].
  destruct (isOff a); reflexivity.
Qed.

(** Settling a pending promise that no countdown made. *)
Lemma Barrier_update_other done a rest v s :
  isOff a = false ->
  Barrier N calls0 offs0 olds (done ++ a :: rest) s ->
  Barrier N calls0 offs0 olds
    (done ++ {| deps := deps a; reaction := reaction a; all_state := v |} :: rest) s.
Proof.
  intros Hoff [Hcalls Hchecked Hsync Hbefore Hafter].
  assert (offPromises
            (done ++ {| deps := deps a; reaction := reaction a; all_state := v |} :: rest)
          = offPromises (done ++ a :: rest)) as Heq.
  { rewrite !offPromises_mid. change (isOff {| deps := _; reaction := _; all_state := _ |})
      with (isOff a). now rewrite Hoff. }
  constructor; rewrite ?Heq; assumption.
Qed.

(** Settling the pending promise of the countdown. *)
Lemma Barrier_update_own done a rest v s s' :
  isOff a = true ->
  all_state a = Pending ->
  v <> Pending ->
  Barrier N calls0 offs0 olds (done ++ a :: rest) s ->
  calls s' = calls s ->
  checked (socket s') = checked (socket s) ->
  sync (socket s') = sync (socket s) ->
  promises s' = promises s ->
  checkOffs (out s') = checkOffs (out s) + (match v with Fulfilled => 1 | _ => 0 end) ->
  (v = Fulfilled -> allOf (promises s) (deps a) = Fulfilled) ->
  (v = Rejected -> allOf (promises s) (deps a) = Rejected) ->
  Barrier N calls0 offs0 olds
    (done ++ {| deps := deps a; reaction := reaction a; all_state := v |} :: rest) s'.
Proof.
  intros Hoff Hstate Hv [Hcalls Hchecked Hsync Hbefore Hafter] Hk Hc Hs Hp Ho Hful Hrej.
  rewrite offPromises_mid in Hbefore, Hafter. rewrite Hoff in Hbefore, Hafter.
  assert (a ∉ olds) as Hnew.
  { intros Hin. rewrite Forall_forall in olds_settled.
    now apply (olds_settled a Hin). }
  destruct (Z_lt_le_dec (Z.of_nat (calls s - calls0)) N) as [Hlt|Hge].
  { exfalso. destruct (Hbefore Hlt) as [Hl _]. apply Hnew. rewrite <- Hl.
    apply elem_of_app. right. left. }
  destruct (Hafter Hge) as (b & Hl & Hf & _ & _ & Hmore).
  destruct (snoc_inside _ _ _ _ _ Hl) as [(Hrest & Hdone & <-)|Hin];
    [|contradiction].
  constructor; rewrite ?Hk, ?Hc, ?Hs, ?Hp; try assumption.
  { intros Hlt. lia. }
  intros _. eexists. split; [|split; [|split; [|split]]].
  - rewrite offPromises_mid.
    change (isOff {| deps := _; reaction := _; all_state := _ |}) with (isOff a).
    rewrite Hoff, Hrest, Hdone. reflexivity.
  - rewrite Ho, Hf. unfold hasFired. rewrite Hstate. cbn [all_state].
    destruct v; lia.
  - cbn [all_state deps]. intros ->. apply allOf_Fulfilled. now apply Hful.
  - cbn [all_state deps]. intros ->. apply allOf_Rejected. now apply Hrej.
  - exact Hmore.
Qed.

Lemma Barrier_settle pending : forall done s,
  Barrier N calls0 offs0 olds (done ++ pending) s ->
  Barrier N calls0 offs0 olds (alls (settle env pending done s))
          (settle env pending done s).
Proof.
  induction pending as [|a rest IH]; intros done s HB; cbn [settle].
  - rewrite app_nil_r in HB. cbn.
    apply (Barrier_frame _ s _ []); try reflexivity; [exact HB | | constructor].
    cbn. now rewrite app_nil_r.
  - assert (Barrier N calls0 offs0 olds ((done ++ [a]) ++ rest) s) as Hsame
      by now rewrite <- app_assoc.
    destruct (all_state a) eqn:Hstate; try (apply IH, Hsame).
    destruct (allOf (promises s) (deps a)) eqn:Hall; try (apply IH, Hsame).
    + (* fulfilled: the reaction runs *)
      apply IH. rewrite <- app_assoc. cbn [app].
      destruct (react_frame env (reaction a) s) as (Hsock & Hprom & _ & Hk & _).
      cbv zeta in *.
      destruct (isOff a) eqn:Hoff.
      * assert (reaction a = CheckOff) as Hr
          by (unfold isOff in Hoff; destruct (reaction a); [reflexivity | discriminate]).
        apply (Barrier_update_own done a rest Fulfilled s); try assumption;
          try discriminate; try (now rewrite Hsock); try reflexivity;
          try (intros _; assumption).
        rewrite Hr. pose proof (react_CheckOff s) as Hone. cbv zeta in Hone. lia.
      * assert (reaction a = BuildFinished) as Hr
          by (unfold isOff in Hoff; destruct (reaction a); [discriminate | reflexivity]).
        destruct (react_BuildFinished s) as (written & Hw & Hnone).
        apply (Barrier_frame _ s _ written); try assumption;
          try (now rewrite Hsock); try (now rewrite Hr).
        now apply Barrier_update_other.
    + (* rejected: no reaction *)
      apply IH. rewrite <- app_assoc. cbn [app].
      destruct (isOff a) eqn:Hoff.
      * apply (Barrier_update_own done a rest Rejected s); try assumption;
          try discriminate; try reflexivity; try (intros _; assumption). lia.
      * now apply Barrier_update_other.
Qed.

End BarrierInvariant.

(** *** The state between two callbacks *)

Section Settled.
Variable env : Env.

Lemma settle_quiescent pending : forall done s,
  Forall (quiescent (promises s)) done ->
  Forall (quiescent (promises s)) (alls (settle env pending done s)).
Proof.
  induction pending as [|a rest IH]; intros done s Hdone; cbn [settle].
  - exact Hdone.
  - destruct (all_state a) eqn:Hstate.
    + destruct (allOf (promises s) (deps a)) eqn:Hall.
      * apply IH. apply Forall_app. split; [exact Hdone|].
        constructor; [|constructor]. intros _. exact Hall.
      * destruct (react_frame env (reaction a) s) as (_ & Hprom & _).
        cbv zeta in Hprom. rewrite <- Hprom. apply IH. rewrite Hprom.
        apply Forall_app. split; [exact Hdone|].
        constructor; [|constructor]. intros H. discriminate H.
      * apply IH. apply Forall_app. split; [exact Hdone|].
        constructor; [|constructor]. intros H. discriminate H.
    + apply IH. apply Forall_app. split; [exact Hdone|].
      constructor; [|constructor]. intros H. congruence.
    + apply IH. apply Forall_app. split; [exact Hdone|].
      constructor; [|constructor]. intros H. congruence.
Qed.

Lemma finish_settled o : crashed (finish env o) = false -> settled (finish env o).
Proof.
  destruct o as [[] s|s]; cbn [finish]; [|discriminate].
  intros _ a Ha. pose proof (settle_quiescent (alls s) [] s (List.Forall_nil _)) as H.
  destruct (settle_frame env (alls s) [] s) as (_ & Hprom & _). cbv zeta in Hprom.
  rewrite Hprom. rewrite Forall_forall in H. now apply H.
Qed.

Lemma step_settled ev s s' :
  step env ev s = Some s' ->
  (crashed s = false -> settled s) ->
  crashed s' = false -> settled s'.
Proof.
  unfold step. intros Hstep Hs. destruct (crashed s) eqn:Hc; [discriminate|].
  destruct ev as [type content note|i answer|].
  - injection Hstep as <-. apply finish_settled.
  - destruct (ops s !! i) as [op|]; [|discriminate].
    destruct (complete env op answer) as [m|]; [|discriminate].
    injection Hstep as <-. apply finish_settled.
  - destruct (closed (socket s)); injection Hstep as <-; intros _; now apply Hs.
Qed.

Lemma receive_settled type content note s s' :
  step env (Receive type content note) s = Some s' ->
  crashed s' = false -> settled s'.
Proof.
  unfold step. destruct (crashed s); [discriminate|].
  intros [= <-]. apply finish_settled.
Qed.

Lemma run_settled evs : forall s s',
  run env evs s = Some s' ->
  (crashed s = false -> settled s) ->
  crashed s' = false -> settled s'.
Proof.
  induction evs as [|ev evs IH]; intros s s' Hrun Hs; cbn [run] in Hrun.
  - now injection Hrun as <-.
  - destruct (step env ev s) as [s1|] eqn:Hstep; [|discriminate].
    apply (IH s1 s' Hrun). now apply (step_settled ev s).
Qed.

(** The promise jobs do not wake a promise of an earlier countdown. *)
Lemma settle_olds pending : forall done s,
  Forall (fun a => isOff a = true -> all_state a <> Pending) (done ++ pending) ->
  Forall (fun a => isOff a = true -> all_state a <> Pending)
         (alls (settle env pending done s)).
Proof.
  induction pending as [|a rest IH]; intros done s H; cbn [settle].
  - now rewrite app_nil_r in H.
  - assert (forall v, v <> Pending ->
              Forall (fun a => isOff a = true -> all_state a <> Pending)
                ((done ++ [ {| deps := deps a; reaction := reaction a; all_state := v |} ])
                   ++ rest)) as Hnew.
    { intros v Hv. rewrite <- app_assoc. cbn [app].
      apply Forall_app in H as [Hd Hr]. apply Forall_app. split; [exact Hd|].
      inversion Hr; subst. constructor; [|assumption]. intros _. exact Hv. }
    assert (Forall (fun a => isOff a = true -> all_state a <> Pending)
              ((done ++ [a]) ++ rest)) as Hsame by now rewrite <- app_assoc.
    destruct (all_state a); try (apply IH, Hsame).
    destruct (allOf (promises s) (deps a)); apply IH;
      [exact Hsame | apply Hnew; discriminate | apply Hnew; discriminate].
Qed.

End Settled.

Lemma offPromises_settled l :
  Forall (fun a => isOff a = true -> all_state a <> Pending) l <->
  Forall (fun a => all_state a <> Pending) (offPromises l).
Proof.
  unfold offPromises. rewrite !Forall_forall. split.
  - intros H a Ha. apply list_elem_of_In, filter_In in Ha as [Hin Hoff].
    apply H; [now apply list_elem_of_In | exact Hoff].
  - intros H a Ha Hoff. apply H. apply list_elem_of_In, filter_In.
    split; [now apply list_elem_of_In | exact Hoff].
Qed.

Lemma allOf_all_fulfilled ps deps :
  Forall (fun p => fulfilled ps p = true) deps -> allOf ps deps = Fulfilled.
Proof.
  intros H. unfold allOf.
  assert (existsb (rejected ps) deps = false) as ->.
  { apply not_true_is_false. intros E. apply existsb_exists in E as (p & Hin & Hp).
    rewrite Forall_forall in H. specialize (H p (proj2 (list_elem_of_In _ _) Hin)).
    unfold fulfilled, rejected in *. destruct (ps !! p) as [[| |]|]; discriminate. }
  assert (forallb (fulfilled ps) deps = true) as ->; [|reflexivity].
  apply forallb_forall. intros p Hin. rewrite Forall_forall in H.
  apply H. now apply list_elem_of_In.
Qed.

Lemma handle_fileSync env content note :
  handle env (Some exports.CLIENT_FILE_SYNC) content note =
    fileSync env (toString env note) content.
Proof.
  unfold handle.
  repeat (destruct (decide _) as [?|?]; [try discriminate|]); try reflexivity.
  contradiction.
Qed.

Lemma handle_count env content note :
  handle env (Some exports.CLIENT_NUMBER_OF_CHECK_FILES) content note =
    fileCheckCallBack (toNumber env (toString env content)).
Proof.
  unfold handle.
  repeat (destruct (decide _) as [?|?]; [try discriminate|]); try reflexivity.
  contradiction.
Qed.

Lemma handle_build env content note :
  handle env (Some exports.CLIENT_BUILD) content note = build env.
Proof.
  unfold handle.
  repeat (destruct (decide _) as [?|?]; [try discriminate|]); try reflexivity.
  contradiction.
Qed.

Lemma step_count env content note s :
  crashed s = false ->
  step env (Receive (Some exports.CLIENT_NUMBER_OF_CHECK_FILES) content note) s =
    Some (settle env (alls s) []
            (with_socket (set_checked (Some (toNumber env (toString env content)))) s)).
Proof. intros Hc. unfold step. rewrite Hc, handle_count. reflexivity. Qed.

Lemma step_check_match env s i filepath info file :
  crashed s = false ->
  ops s !! i = Some (CheckRead filepath info) ->
  Js.equals info (md5 env file) = true ->
  step env (Complete i (Data file)) s =
    Some (finish env (checked_ (with_ops (delete i) s))).
Proof.
  intros Hc Hop Heq. unfold step. rewrite Hc, Hop. cbn [complete].
  rewrite Heq. reflexivity.
Qed.

(** A non-manifest [fileSync] ends in the call of the barrier. *)
Lemma fileSync_plain env filepath content s :
  filepath <> "package.json" ->
  (exists s', fileSync env filepath content s = Throw s' /\ Quiet s s') \/
  (exists s', fileSync env filepath content s = checked_ s' /\ Quiet s s').
Proof.
  intros Hne. unfold fileSync.
  assert (String.eqb filepath "package.json" = false) as -> by now apply String.eqb_neq.
  cbn [negb]. unfold bind.
  pose proof (quiet_syncPush
                (newPromise (fun p => fileCover env filepath content (Some (Resolve p))))
                (quiet_newPromise _ (fun p => quiet_fileCover env _ _ _)) s) as Hq.
  destruct (syncPush _ s) as [[] s'|s']; [right | left];
    exists s'; (split; [reflexivity | exact Hq]).
Qed.

End WorkerFacts.

(** ** The worker: the claims about the check barrier and the session *)

Section WorkerClaims.
Import Signal Worker WorkerSpec WorkerFacts.
Local Close Scope N_scope.



Lemma relativeToAbsolute_uninitialized env relative s :
  uninitialized s -> relativeToAbsolute env relative s = Throw s.
Proof.
  intros (Hu & _). unfold relativeToAbsolute, bind, get. now rewrite Hu.
Qed.





(** The barrier right after [fileCheckCallBack] has installed it. *)
Lemma Barrier_installed env s0 N content note s1 :
  toNumber env (toString env content) = Int N ->
  (1 <= N)%Z ->
  is_Some (sync (socket s0)) ->
  Forall (fun a => all_state a <> Pending) (offPromises (alls s0)) ->
  step env (Receive (Some exports.CLIENT_NUMBER_OF_CHECK_FILES) content note) s0 = Some s1 ->
  Forall (fun a => all_state a <> Pending) (offPromises (alls s1)) /\
  (crashed s1 = false -> settled s1) /\
  Barrier N (calls s1) (checkOffs (out s1)) (offPromises (alls s1)) (alls s1) s1.
Proof.
  intros Hcount HN Hsync Holds Hstep.
  assert (crashed s0 = false) as Hlive
    by (unfold step in Hstep; destruct (crashed s0); [discriminate | reflexivity]).
  pose proof Hstep as Hstep'.
  rewrite step_count in Hstep by exact Hlive. injection Hstep as <-.
  set (s' := with_socket _ s0) in *.
  destruct (settle_frame env (alls s0) [] s') as (Hsock & _). cbv zeta in Hsock.
  split; [|split].
  - apply offPromises_settled. apply (settle_olds env (alls s0) [] s').
    now apply offPromises_settled.
  - apply (receive_settled env _ _ _ s0 _ Hstep').
  - constructor.
    + lia.
    + rewrite Hsock. subst s'. cbn. rewrite Hcount. do 2 f_equal. lia.
    + rewrite Hsock. exact Hsync.
    + intros _. split; reflexivity.
    + intros H. lia.
Qed.






End WorkerClaims.

(** ** The worker: streaming the files of a build *)

Module BuildFacts.
Import Signal Worker WorkerSpec WorkerFacts BuildSpec.
Local Close Scope N_scope.

Lemma allOf_pending ps deps q :
  (forall x, x ∈ deps -> rejected ps x = false) ->
  q ∈ deps -> ps !! q = Some Pending ->
  allOf ps deps = Pending.
Proof.
  intros Hnone Hq Hpending. unfold allOf.
  assert (existsb (rejected ps) deps = false) as ->.
  { apply not_true_is_false. intros E. apply existsb_exists in E as (x & Hin & Hx).
    rewrite Hnone in Hx; [discriminate|]. now apply list_elem_of_In. }
  assert (forallb (fulfilled ps) deps = false) as ->; [|reflexivity].
  apply not_true_is_false. intros E. rewrite forallb_forall in E.
  specialize (E q (proj1 (list_elem_of_In _ _) Hq)).
  unfold fulfilled in E. rewrite Hpending in E. discriminate.
Qed.

Lemma console_written env info s frame :
  console (socket s) = true ->
  consoleFrame env info = Some frame ->
  console_ env info s = Return tt (with_out (fun o => o ++ [frame]) s).
Proof.
  intros Hc Hf. unfold console_, bind, get. cbv beta iota. rewrite Hc.
  unfold consoleFrame in Hf. rewrite Hf. reflexivity.
Qed.

Section BuildFacts.
Variable env : Env.
Variable content : string -> Buffer.
Variable ignore : gmap string bool.
Variables root buildPath : string.
Variable files : list string.
Variable olds : list AllPromise.
Variable doneFrame : Buffer.
Hypothesis done_encodable : consoleFrame env BuildDone = Some doneFrame.
Hypothesis files_encodable :
  forall filepath, filepath ∈ files ->
    skipped env ignore (content filepath) = false ->
    is_Some (buildFrame env content buildPath filepath).
Hypothesis olds_done : Forall (fun a => all_state a <> Pending) olds.

(** A [Promise.all] that is no longer pending is passed over. *)
Lemma settle_passed l :
  Forall (fun a => all_state a <> Pending) l ->
  forall rest done s,
    settle env (l ++ rest) done s = settle env rest (done ++ l) s.
Proof.
  induction l as [|a l IH]; intros Hl rest done s.
  - now rewrite app_nil_r.
  - apply Forall_cons in Hl as [Ha Hl].
    cbn [app settle]. destruct (all_state a); [contradiction| |];
      rewrite (IH Hl), <- app_assoc; reflexivity.
Qed.

Lemma settle_skip rest done s :
  settle env (olds ++ rest) done s = settle env rest (done ++ olds) s.
Proof. now apply settle_passed. Qed.

Lemma settle_done s : settle env olds [] s = with_alls (fun _ => olds) s.
Proof.
  rewrite <- (app_nil_r olds) at 1. rewrite settle_skip. reflexivity.
Qed.

Lemma react_BuildFinished_out s :
  console (socket s) = true ->
  swallow (react env BuildFinished) s =
    with_out (fun o => o ++ [finFrame]) (with_out (fun o => o ++ [doneFrame]) s).
Proof.
  intros Hc. cbn [react]. unfold swallow, bind.
  rewrite (console_written env BuildDone s doneFrame Hc done_encodable).
  reflexivity.
Qed.

(** The promise jobs while the build is the only [Promise.all]. *)
Lemma settle_build ps s :
  console (socket s) = true ->
  alls s = olds ++ [ {| deps := ps; reaction := BuildFinished; all_state := Pending |} ] ->
  (allOf (promises s) ps = Pending -> settle env (alls s) [] s = s) /\
  (allOf (promises s) ps = Fulfilled ->
   settle env (alls s) [] s =
     with_alls (fun _ => olds ++ [ {| deps := ps; reaction := BuildFinished;
                                      all_state := Fulfilled |} ])
       (with_out (fun o => o ++ [finFrame]) (with_out (fun o => o ++ [doneFrame]) s))).
Proof.
  intros Hc Ha. rewrite Ha, settle_skip.
  cbn [settle all_state deps reaction app]. split; intros ->.
  - destruct s; cbn in *. now subst.
  - rewrite react_BuildFinished_out by exact Hc. reflexivity.
Qed.

Lemma isBuildOp_promise op :
  isBuildOp root buildPath files op -> is_Some (promiseOf op).
Proof. intros [(f & p & _ & ->)|(p & ->)]; cbn; eauto. Qed.

(** The promise jobs of a build whose frames so far are [written]. *)
Lemma streaming_settle base ps written s :
  crashed s = false ->
  console (socket s) = true ->
  distIgnore (socket s) = Some ignore ->
  Forall (isBuildOp root buildPath files) (ops s) ->
  NoDup (omap promiseOf (ops s)) ->
  (forall p, p ∈ omap promiseOf (ops s) -> p ∈ ps /\ promises s !! p = Some Pending) ->
  (forall p, p ∈ ps -> p ∉ omap promiseOf (ops s) -> promises s !! p = Some Fulfilled) ->
  written ++ (ops s ≫= pendingOf env content ignore buildPath)
    ≡ₚ streamed env content ignore buildPath files ->
  out s = base ++ written ->
  alls s = olds ++ [ {| deps := ps; reaction := BuildFinished; all_state := Pending |} ] ->
  Streaming env content ignore root buildPath files olds base ps doneFrame
    (settle env (alls s) [] s).
Proof.
  intros Hlive Hcons Hign Hops Hnd Hcar Hdone Hperm Hout Halls.
  destruct (settle_build ps s Hcons Halls) as [Hwait Hfire].
  destruct (ops s) as [|op' rest] eqn:Hrest.
  - rewrite Hfire.
    2:{ apply allOf_all_fulfilled, Forall_forall. intros q Hq.
        unfold fulfilled. rewrite Hdone; [reflexivity | exact Hq | apply not_elem_of_nil]. }
    constructor; cbn; rewrite ?Hrest; try assumption;
      try apply Forall_nil_2;
      try (intros q Hq; now apply elem_of_nil in Hq).
    exists written. split; [exact Hperm|].
    right. rewrite Hout, <- !app_assoc. repeat split.
  - assert (exists q, promiseOf op' = Some q) as [q Hq]
      by (inversion Hops; subst; now apply isBuildOp_promise).
    destruct (Hcar q) as [Hqin Hqp]; [cbn; rewrite Hq; left|].
    rewrite Hwait.
    2:{ apply (allOf_pending _ _ q); [|exact Hqin | exact Hqp].
        intros x Hx. unfold rejected.
        destruct (decide (x ∈ omap promiseOf (op' :: rest))) as [Hc|Hc].
        - now rewrite (proj2 (Hcar x Hc)).
        - now rewrite (Hdone x Hx Hc). }
    constructor; rewrite ?Hrest; try assumption.
    exists written. split; [exact Hperm|].
    left. repeat split; [discriminate | exact Hout | exact Halls].
Qed.

(** An operation of the build ends and fulfils its promise. *)
Lemma streaming_resolve base ps s i op p :
  Streaming env content ignore root buildPath files olds base ps doneFrame s ->
  ops s !! i = Some op ->
  promiseOf op = Some p ->
  pendingOf env content ignore buildPath op = [] ->
  let s2 := with_promises (settleIn p Fulfilled) (with_ops (delete i) s) in
  Streaming env content ignore root buildPath files olds base ps doneFrame
    (settle env (alls s2) [] s2).
Proof.
  intros [Hlive Hcons Hign Hops Hnd Hcar Hdone (written & Hperm & Hout)] Hop Hp Hnone s2.
  assert (ops s <> []) as Hne by (intros E; rewrite E in Hop; discriminate).
  destruct Hout as [(_ & Houts & Halls)|(E & _)]; [|contradiction].
  pose proof (delete_Permutation _ _ _ Hop) as Hdel.
  assert (omap promiseOf (ops s) ≡ₚ p :: omap promiseOf (delete i (ops s))) as Hcarried.
  { rewrite Hdel at 1. cbn [omap list_omap]. now rewrite Hp. }
  assert ((ops s ≫= pendingOf env content ignore buildPath)
          ≡ₚ delete i (ops s) ≫= pendingOf env content ignore buildPath) as Hpending.
  { rewrite Hdel at 1. rewrite bind_cons, Hnone. reflexivity. }
  rewrite Hcarried in Hnd. apply NoDup_cons in Hnd as [Hfresh Hnd'].
  destruct (Hcar p) as [Hin Hpend]; [rewrite Hcarried; left|].
  assert (promises s2 = <[p := Fulfilled]> (promises s)) as Hprom
    by (subst s2; cbn; unfold settleIn; now rewrite Hpend).
  apply (streaming_settle base ps written); try assumption.
  - rewrite Forall_forall in *. intros x Hx. apply Hops. rewrite Hdel. now right.
  - intros q Hq. destruct (Hcar q) as [Hqin Hqp]; [rewrite Hcarried; now right|].
    split; [exact Hqin|]. rewrite Hprom, list_lookup_insert_ne; [exact Hqp|].
    intros ->. contradiction.
  - intros q Hq Hnot. rewrite Hprom. destruct (decide (p = q)) as [<-|Hneq].
    + apply list_lookup_insert_eq. now apply lookup_lt_Some in Hpend.
    + rewrite list_lookup_insert_ne by exact Hneq. apply Hdone; [exact Hq|].
      rewrite Hcarried. intros [->|H]%elem_of_cons; contradiction.
  - change (ops s2) with (delete i (ops s)). rewrite <- Hperm, Hpending. reflexivity.
Qed.

(** The data of a file that is not skipped is written, and the promise
    waits for the flush. *)
Lemma streaming_send base ps s i filepath p frame :
  Streaming env content ignore root buildPath files olds base ps doneFrame s ->
  ops s !! i = Some (BuildRead root buildPath filepath p) ->
  skipped env ignore (content filepath) = false ->
  buildFrame env content buildPath filepath = Some frame ->
  let s2 := with_ops (fun o => o ++ [Flush p])
              (with_out (fun o => o ++ [frame]) (with_ops (delete i) s)) in
  Streaming env content ignore root buildPath files olds base ps doneFrame
    (settle env (alls s2) [] s2).
Proof.
  intros [Hlive Hcons Hign Hops Hnd Hcar Hdone (written & Hperm & Hout)] Hop Hskip Hframe s2.
  assert (ops s <> []) as Hne by (intros E; rewrite E in Hop; discriminate).
  destruct Hout as [(_ & Houts & Halls)|(E & _)]; [|contradiction].
  pose proof (delete_Permutation _ _ _ Hop) as Hdel.
  assert (omap promiseOf (ops s2) ≡ₚ omap promiseOf (ops s)) as Hcarried.
  { change (ops s2) with (delete i (ops s) ++ [Flush p]).
    rewrite Hdel at 2. rewrite omap_app. cbn [omap list_omap promiseOf].
    now rewrite <- Permutation_cons_append. }
  assert (frameOf env content ignore buildPath filepath = [frame]) as Hdue
    by (unfold frameOf; now rewrite Hskip, Hframe).
  apply (streaming_settle base ps (written ++ [frame])); try assumption.
  - change (ops s2) with (delete i (ops s) ++ [Flush p]).
    apply Forall_app. split.
    + rewrite Forall_forall in *. intros x Hx. apply Hops. rewrite Hdel. now right.
    + apply Forall_cons. split; [right; now exists p | apply Forall_nil_2].
  - now rewrite Hcarried.
  - intros q Hq. apply Hcar. now rewrite <- Hcarried.
  - intros q Hq Hnot. apply Hdone; [exact Hq|]. now rewrite <- Hcarried.
  - change (ops s2) with (delete i (ops s) ++ [Flush p]).
    rewrite <- Hperm. rewrite Hdel at 2.
    rewrite bind_app, bind_cons. cbn [pendingOf mbind list_bind app].
    rewrite Hdue, app_nil_r. rewrite <- !app_assoc.
    apply Permutation_app_head. reflexivity.
  - change (out s2) with (out s ++ [frame]). now rewrite Houts, app_assoc.
Qed.

(** *** The reads a build starts *)

Lemma newPromise_startOp (make : nat -> Op) s :
  newPromise (fun p => startOp (make p)) s =
    Return (length (promises s))
      (with_ops (fun o => o ++ [make (length (promises s))])
         (with_promises (fun ps => ps ++ [Pending]) s)).
Proof. reflexivity. Qed.

Lemma readEach_spec fs : forall s,
  readEach root buildPath fs s =
    Return (seq (length (promises s)) (length fs))
      (with_ops (fun o => o ++ reads root buildPath fs (length (promises s)))
         (with_promises (fun ps => ps ++ replicate (length fs) Pending) s)).
Proof.
  induction fs as [|f fs IH]; intros s.
  - cbn. unfold ret. f_equal. destruct s; unfold with_ops, with_promises; cbn.
    now rewrite !app_nil_r.
  - cbn [readEach]. unfold bind at 1. rewrite newPromise_startOp.
    unfold bind. rewrite IH. unfold ret. destruct s; unfold with_ops, with_promises; cbn.
    rewrite length_app, Nat.add_1_r. cbn. f_equal. unfold reads. cbn.
    now rewrite <- !app_assoc.
Qed.

Lemma reads_promises fs : forall start,
  omap promiseOf (reads root buildPath fs start) = seq start (length fs).
Proof.
  unfold reads. induction fs as [|f fs IH]; intros start; [reflexivity|].
  cbn. f_equal. apply IH.
Qed.

Lemma reads_pending fs : forall start,
  reads root buildPath fs start ≫= pendingOf env content ignore buildPath =
    fs ≫= frameOf env content ignore buildPath.
Proof.
  unfold reads. induction fs as [|f fs IH]; intros start; [reflexivity|].
  cbn. f_equal. apply IH.
Qed.

Lemma reads_isBuildOp fs : forall start,
  (forall f, f ∈ fs -> f ∈ files) ->
  Forall (isBuildOp root buildPath files) (reads root buildPath fs start).
Proof.
  unfold reads. induction fs as [|f fs IH]; intros start Hsub; [apply Forall_nil_2|].
  cbn. apply Forall_cons. split.
  - left. exists f, start. split; [apply Hsub; left | reflexivity].
  - apply IH. intros g Hg. apply Hsub. now right.
Qed.

Lemma reads_remaining fs : forall start,
  sum_list_with stepsLeft (reads root buildPath fs start) = 2 * length fs.
Proof.
  unfold reads. induction fs as [|f fs IH]; intros start; [reflexivity|].
  cbn. rewrite IH. lia.
Qed.

(** *** One operation of the build ends *)

Lemma settle_build_ops ps s :
  console (socket s) = true ->
  alls s = olds ++ [ {| deps := ps; reaction := BuildFinished; all_state := Pending |} ] ->
  ops (settle env (alls s) [] s) = ops s.
Proof.
  intros Hc Ha. rewrite Ha, settle_skip. cbn [settle all_state deps reaction].
  destruct (allOf (promises s) ps); try reflexivity.
  rewrite react_BuildFinished_out by exact Hc. reflexivity.
Qed.

Lemma remaining_delete s i op :
  ops s !! i = Some op ->
  remaining s = stepsLeft op + sum_list_with stepsLeft (delete i (ops s)).
Proof.
  intros Hop. unfold remaining.
  now rewrite (sum_list_with_Permutation_proper _ _ _ (delete_Permutation _ _ _ Hop)).
Qed.

Lemma streaming_step base ps s i op :
  Streaming env content ignore root buildPath files olds base ps doneFrame s ->
  ops s !! i = Some op ->
  exists s', step env (Complete i (answers content op)) s = Some s' /\
    Streaming env content ignore root buildPath files olds base ps doneFrame s' /\
    remaining s' < remaining s.
Proof.
  intros HS Hop.
  pose proof (streaming_live _ _ _ _ _ _ _ _ _ _ _ HS) as Hlive.
  pose proof (streaming_console _ _ _ _ _ _ _ _ _ _ _ HS) as Hcons.
  pose proof (streaming_ignore _ _ _ _ _ _ _ _ _ _ _ HS) as Hign.
  pose proof (streaming_ops _ _ _ _ _ _ _ _ _ _ _ HS) as Hops.
  assert (alls s = olds ++
            [ {| deps := ps; reaction := BuildFinished; all_state := Pending |} ])
    as Halls.
  { destruct (streaming_out _ _ _ _ _ _ _ _ _ _ _ HS) as (w & _ & [(_ & _ & H)|(E & _)]);
      [exact H|]. rewrite E in Hop. discriminate. }
  pose proof (remaining_delete s i op Hop) as Hleft.
  rewrite Forall_lookup in Hops. specialize (Hops i op Hop).
  unfold step. rewrite Hlive, Hop.
  destruct Hops as [(f & p & Hf & ->)|(p & ->)]; cbn [answers complete].
  - unfold buildFile, bind, get. cbv beta iota.
    change (socket (with_ops (delete i) s)) with (socket s). rewrite Hign.
    change (default false (ignore !! toString env (md5 env (content f))))
      with (skipped env ignore (content f)).
    destruct (skipped env ignore (content f)) eqn:Hskip.
    + eexists. split; [reflexivity|]. split.
      * apply (streaming_resolve base ps s i _ p HS Hop eq_refl).
        cbn. unfold frameOf. now rewrite Hskip.
      * cbn [finish settlePromise modify].
        unfold remaining in *. rewrite (settle_build_ops ps) by assumption.
        unfold with_promises, with_ops, with_out. cbn [ops].
        rewrite ?sum_list_with_app. cbn [sum_list_with stepsLeft] in *. lia.
    + destruct (files_encodable f Hf Hskip) as [frame Hframe].
      pose proof Hframe as Hframe'. unfold buildFrame in Hframe'. rewrite Hframe'.
      eexists. split; [reflexivity|]. split.
      * apply (streaming_send base ps s i f p frame HS Hop Hskip Hframe).
      * cbn [finish write startOp modify bind]. unfold bind, modify.
        unfold remaining in *. rewrite (settle_build_ops ps) by assumption.
        unfold with_promises, with_ops, with_out. cbn [ops].
        rewrite ?sum_list_with_app. cbn [sum_list_with stepsLeft] in *. lia.
  - eexists. split; [reflexivity|]. split.
    + apply (streaming_resolve base ps s i _ p HS Hop eq_refl). reflexivity.
    + cbn [finish settlePromise modify].
      unfold remaining in *. rewrite (settle_build_ops ps) by assumption.
      unfold with_promises, with_ops, with_out. cbn [ops].
      rewrite ?sum_list_with_app. cbn [sum_list_with stepsLeft] in *. lia.
Qed.

(** *** The operations end in any order *)

Lemma drain_streaming base ps schedule : forall s s',
  Streaming env content ignore root buildPath files olds base ps doneFrame s ->
  drain env content schedule s = Some s' ->
  Streaming env content ignore root buildPath files olds base ps doneFrame s'.
Proof.
  induction schedule as [|i schedule IH]; intros s s' HS Hrun; cbn [drain] in Hrun.
  - now injection Hrun as <-.
  - destruct (ops s !! i) as [op|] eqn:Hop; [|discriminate].
    destruct (streaming_step base ps s i op HS Hop) as (s1 & Hstep & HS1 & _).
    rewrite Hstep in Hrun. exact (IH s1 s' HS1 Hrun).
Qed.

Lemma stepsLeft_pos op : 1 <= stepsLeft op.
Proof. destruct op; cbn; lia. Qed.

Lemma drain_complete base ps n : forall s,
  remaining s <= n ->
  Streaming env content ignore root buildPath files olds base ps doneFrame s ->
  exists schedule s', drain env content schedule s = Some s' /\ ops s' = [].
Proof.
  induction n as [|n IH]; intros s Hn HS;
    (destruct (ops s) as [|op rest] eqn:E; [now exists [], s|]).
  - unfold remaining in Hn. rewrite E in Hn. cbn in Hn.
    pose proof (stepsLeft_pos op). lia.
  - assert (ops s !! 0 = Some op) as Hop by now rewrite E.
    destruct (streaming_step base ps s 0 op HS Hop) as (s1 & Hstep & HS1 & Hless).
    destruct (IH s1 ltac:(lia) HS1) as (schedule & s' & Hrun & Hend).
    exists (0 :: schedule), s'. cbn [drain]. now rewrite Hop, Hstep.
Qed.

(** Every operation in flight can end. *)
Lemma drain_progress base ps s i :
  Streaming env content ignore root buildPath files olds base ps doneFrame s ->
  i < length (ops s) ->
  is_Some (drain env content [i] s).
Proof.
  intros HS Hi. destruct (lookup_lt_is_Some_2 _ _ Hi) as [op Hop].
  destruct (streaming_step base ps s i op HS Hop) as (s1 & Hstep & _).
  cbn [drain]. rewrite Hop, Hstep. now exists s1.
Qed.

(** *** From the build message to the reads *)

Lemma build_starts u project b s :
  uid (socket s) = Some u ->
  Worker.project (socket s) = Some project ->
  builder (socket s) = Some b ->
  loadable env b = true ->
  build env s =
    Return tt (with_ops (fun o => o ++ [BuilderBuild (resolve env u project "")]) s).
Proof.
  intros Hu Hp Hb Hl.
  unfold build, bind, relativeToAbsolute, requireBuilder, bind, get.
  cbv beta iota. rewrite Hu, Hp. unfold ret. rewrite Hb, Hl. reflexivity.
Qed.

Lemma build_started u project b request note waiting s0 :
  crashed s0 = false ->
  uid (socket s0) = Some u ->
  Worker.project (socket s0) = Some project ->
  builder (socket s0) = Some b ->
  loadable env b = true ->
  console (socket s0) = true ->
  distIgnore (socket s0) = Some ignore ->
  ops s0 = [] ->
  alls s0 = olds ->
  consoleFrame env WaitingForSync = Some waiting ->
  root = resolve env u project "" ->
  buildPath = path_join env root "dist" ->
  exists s1,
    run env (building files request note) s0 = Some s1 /\
    Streaming env content ignore root buildPath files olds (out s0 ++ [waiting])
      (seq (length (promises s0)) (length files)) doneFrame s1 /\
    remaining s1 <= 2 * length files.
Proof.
  intros Hlive Hu Hp Hb Hl Hcons Hign Hops Halls Hwait Hroot Hpath.
  unfold building. cbn [run]. unfold step at 1.
  rewrite Hlive, handle_build, (build_starts u project b s0 Hu Hp Hb Hl).
  cbn [finish]. rewrite <- Hroot.
  change (alls (with_ops _ s0)) with (alls s0). rewrite Halls, settle_done.
  unfold step.
  change (crashed (with_alls _ (with_ops _ s0))) with (crashed s0). rewrite Hlive.
  change (ops (with_alls _ (with_ops ?f s0))) with (f (ops s0)).
  cbv beta. rewrite Hops. cbn [app lookup list_lookup complete].
  unfold catch, built, bind. rewrite <- Hpath.
  match goal with
  | |- context [console_ env WaitingForSync ?st] =>
      rewrite (console_written env WaitingForSync st waiting Hcons Hwait)
  end.
  rewrite readEach_spec. unfold modify. cbn [finish].
  change (length (promises (with_out _ (with_ops _ (with_alls _ (with_ops _ s0))))))
    with (length (promises s0)).
  match goal with
  | |- context [settle env (alls ?st) [] ?st] => set (s3 := st)
  end.
  assert (ops s3 = reads root buildPath files (length (promises s0))) as Hops3.
  { subst s3. unfold with_alls, with_ops, with_promises, with_out. cbn [ops].
    now rewrite Hops. }
  assert (promises s3 = promises s0 ++ replicate (length files) Pending) as Hprom3
    by reflexivity.
  assert (alls s3 = olds ++
            [ {| deps := seq (length (promises s0)) (length files);
                 reaction := BuildFinished; all_state := Pending |} ]) as Halls3
    by reflexivity.
  assert (console (socket s3) = true) as Hcons3 by exact Hcons.
  assert (crashed s3 = false) as Hlive3 by exact Hlive.
  assert (distIgnore (socket s3) = Some ignore) as Hign3 by exact Hign.
  assert (out s3 = (out s0 ++ [waiting]) ++ []) as Hout3
    by (rewrite app_nil_r; reflexivity).
  clearbody s3. eexists. split; [reflexivity|]. split.
  - apply (streaming_settle _ _ []); try assumption.
    + rewrite Hops3. now apply reads_isBuildOp.
    + rewrite Hops3, reads_promises. apply NoDup_seq.
    + intros p. rewrite Hops3, reads_promises. intros Hin. split; [exact Hin|].
      apply elem_of_seq in Hin. rewrite Hprom3, lookup_app_r by lia.
      apply lookup_replicate_2. lia.
    + intros p Hin Hnot. rewrite Hops3, reads_promises in Hnot. contradiction.
    + cbn [app]. now rewrite Hops3, reads_pending.
  - unfold remaining. rewrite (settle_build_ops _ s3 Hcons3 Halls3).
    rewrite Hops3, reads_remaining. lia.
Qed.

(** *** The types of the frames of a build *)

Lemma streamed_types :
  Forall (fun frame => typeOf frame = Some xfb)
    (streamed env content ignore buildPath files).
Proof.
  unfold streamed. apply Forall_bind, Forall_forall. intros f _.
  unfold compose, frameOf. destruct (skipped env ignore (content f)); [apply Forall_nil_2|].
  destruct (buildFrame env content buildPath f) as [frame|] eqn:Hframe;
    [|apply Forall_nil_2].
  apply Forall_cons. split; [|apply Forall_nil_2].
  exact (encode_typeOf xfb [] _ _ frame Hframe).
Qed.

Lemma consoleFrame_type text frame :
  consoleFrame env text = Some frame -> typeOf frame = Some xbb.
Proof. intros H. exact (encode_typeOf xbb [] _ _ frame H). Qed.

End BuildFacts.

End BuildFacts.

(** ** The build (claim C8) *)

Section BuildClaims.
Import Signal Worker WorkerSpec BuildSpec BuildFacts.
Local Close Scope N_scope.




End BuildClaims.

(** ** The directory check of [utils.js] *)

Module UtilsFacts.
Import Utils UtilsSpec.
Local Close Scope N_scope.

(** *** What [fs.mkdir] and [fs.writeFile] do *)

Lemma mkdir_made p w :
  made (mkdir p w).2 = made w ++ [p] /\ cwd (mkdir p w).2 = cwd w.
Proof.
  unfold mkdir. cbv zeta.
  destruct (last (names p)) as [name|]; [|now split].
  destruct (walk _ _ _) as [e|dir]; [now split|].
  destruct (special name); [now split|].
  destruct (nodes _ !! _); now split.
Qed.

Lemma walk_insert m k at_ rest dir :
  m !! k = None ->
  walk m at_ rest = inr dir ->
  walk (<[k := Dir]> m) at_ rest = inr dir.
Proof.
  intros Hk. revert at_. induction rest as [|name rest IH]; intros at_ H; [exact H|].
  cbn [walk] in *. destruct (String.eqb name "."); [now apply IH|].
  destruct (String.eqb name ".."); [now apply IH|].
  destruct (m !! (at_ ++ [name])) as [[|c]|] eqn:E; try discriminate.
  rewrite lookup_insert_ne by (intros ->; congruence).
  rewrite E. now apply IH.
Qed.

Lemma mkdir_creates p w loc :
  locate w p = Some loc ->
  nodes w !! loc = None ->
  mkdir p w = (None, with_nodes (insert loc Dir) (logged p w)).
Proof.
  unfold locate, mkdir. cbv zeta.
  change (nodes (logged p w)) with (nodes w).
  change (origin (logged p w) p) with (origin w p).
  destruct (last (names p)) as [name|]; [|discriminate].
  destruct (special name); [discriminate|].
  destruct (walk _ _ _) as [e|dir]; [discriminate|].
  intros [= <-] ->. reflexivity.
Qed.

Lemma locate_insert w p loc k :
  nodes w !! k = None ->
  locate w p = Some loc ->
  forall q, locate (with_nodes (insert k Dir) (logged q w)) p = Some loc.
Proof.
  intros Hk H q. unfold locate in *.
  change (origin (with_nodes _ (logged q w)) p) with (origin w p).
  change (nodes (with_nodes (insert k Dir) (logged q w))) with (<[k := Dir]> (nodes w)).
  destruct (last (names p)) as [name|]; [|discriminate].
  destruct (special name); [discriminate|].
  destruct (walk (nodes w) _ _) as [e|dir] eqn:E; [discriminate|].
  now rewrite (walk_insert _ _ _ _ _ Hk E).
Qed.

Lemma writeFile_directory p content w loc :
  locate w p = Some loc ->
  nodes w !! loc = Some Dir ->
  writeFile p content w = (Some EISDIR, w).
Proof.
  unfold locate, writeFile.
  destruct (last (names p)) as [name|]; [|discriminate].
  destruct (special name); [discriminate|].
  destruct (walk _ _ _) as [e|dir]; [discriminate|].
  intros [= <-] ->. reflexivity.
Qed.

(** *** The paths [checkAndCreate] gives to [fs.mkdir] *)

Lemma removelast_take {A} (l : list A) : removelast l = take (length l - 1) l.
Proof.
  induction l as [|x l IH] using rev_ind; [reflexivity|].
  rewrite removelast_last, length_app. cbn [length].
  replace (length l + 1 - 1) with (length l) by lia.
  now rewrite take_app_length.
Qed.

Lemma checkAndCreate_made fuel : forall dirs w r w',
  checkAndCreate fuel dirs w = Some (r, w') ->
  cwd w' = cwd w /\
  exists rest,
    made w' = made w ++ join dirs :: rest /\
    Forall (fun p => exists k, k <= length dirs /\ p = join (take k dirs)) rest.
Proof.
  induction fuel as [|fuel IH]; intros dirs w r w' H; [discriminate|].
  cbn [checkAndCreate] in H.
  destruct (mkdir_made (join dirs) w) as [Hmade Hcwd].
  destruct (mkdir (join dirs) w) as [[e|] w1] eqn:E; cbn [snd] in Hmade, Hcwd.
  2:{ injection H as <- <-. split; [exact Hcwd|]. exists []. split; [exact Hmade|constructor]. }
  destruct e;
    try (injection H as <- <-; split; [exact Hcwd|]; exists [];
         split; [exact Hmade|constructor]).
  destruct (checkAndCreate fuel (removelast dirs) w1) as [[r1 w2]|] eqn:E1; [|discriminate].
  destruct (IH _ _ _ _ E1) as (Hcwd1 & rest1 & Hmade1 & Hall1).
  destruct (IH _ _ _ _ H) as (Hcwd2 & rest2 & Hmade2 & Hall2).
  split; [congruence|].
  exists (join (removelast dirs) :: rest1 ++ join dirs :: rest2). split.
  - rewrite Hmade2, Hmade1, Hmade. now rewrite <- !app_assoc.
  - rewrite removelast_take in *. apply Forall_cons. split.
    { exists (length dirs - 1). split; [lia | reflexivity]. }
    apply Forall_app. split.
    + eapply Forall_impl; [exact Hall1|]. intros p (k & Hk & ->).
      rewrite length_take in Hk. exists k. split; [lia|].
      rewrite take_take. f_equal. f_equal. lia.
    + apply Forall_cons. split; [|exact Hall2].
      exists (length dirs). split; [lia | now rewrite firstn_all].
Qed.

(** *** [checkAndCreate] comes to an end *)

Lemma plain_names name :
  plain name -> String.eqb name "." = false /\ String.eqb name ".." = false.
Proof. unfold plain, special. apply orb_false_elim. Qed.

Lemma normalize_plain rest : forall stack,
  Forall plain rest -> normalize stack rest = rev stack ++ rest.
Proof.
  induction rest as [|name rest IH]; intros stack H; cbn [normalize].
  - now rewrite app_nil_r.
  - apply Forall_cons in H as [Hname Hrest].
    destruct (plain_names name Hname) as [-> ->].
    rewrite IH by exact Hrest. cbn [rev]. now rewrite <- app_assoc.
Qed.

Lemma filter_plain dirs : Forall plain dirs -> Forall plain (List.filter nonempty dirs).
Proof.
  intros H. apply Forall_forall. intros x Hx.
  apply list_elem_of_In, filter_In in Hx as [Hx _].
  rewrite Forall_forall in H. now apply H, list_elem_of_In.
Qed.

Lemma join_plain dirs :
  Forall plain dirs -> names (join dirs) = List.filter nonempty dirs.
Proof. intros H. cbn. now rewrite normalize_plain by now apply filter_plain. Qed.

Lemma walk_app m rest : forall at_ more,
  walk m at_ (rest ++ more) =
    match walk m at_ rest with
    | inl e => inl e
    | inr dir => walk m dir more
    end.
Proof.
  induction rest as [|name rest IH]; intros at_ more; [reflexivity|].
  cbn [app walk]. destruct (String.eqb name "."); [apply IH|].
  destruct (String.eqb name ".."); [apply IH|].
  destruct (m !! (at_ ++ [name])) as [[|c]|]; [apply IH | reflexivity | reflexivity].
Qed.

Lemma walk_removelast m at_ rest :
  walk m at_ (removelast rest) = inl ENOENT -> walk m at_ rest = inl ENOENT.
Proof.
  destruct rest as [|x rest'] using rev_ind; [now intros H|].
  rewrite removelast_last, walk_app. now intros ->.
Qed.

(** The directories on the way are there once [fs.mkdir] has answered
    anything but [ENOENT]. *)
Lemma mkdir_reach p w :
  Forall plain (names p) ->
  (mkdir p w).1 <> Some ENOENT ->
  walk (nodes (mkdir p w).2) (origin w p) (names p) <> inl ENOENT.
Proof.
  intros Hplain. unfold mkdir. cbv zeta.
  change (nodes (logged p w)) with (nodes w).
  change (origin (logged p w) p) with (origin w p).
  destruct (last (names p)) as [name|] eqn:Hlast.
  2:{ apply last_None in Hlast. rewrite Hlast. discriminate. }
  apply last_Some in Hlast as [init Hinit]. rewrite Hinit in *.
  apply Forall_app in Hplain as [_ Hname]. apply Forall_cons in Hname as [Hname _].
  rewrite removelast_last, walk_app.
  destruct (walk (nodes w) (origin w p) init) as [e|dir] eqn:Hwalk.
  { cbn [fst snd]. change (nodes (logged p w)) with (nodes w). rewrite Hwalk. congruence. }
  rewrite Hname. cbn [walk]. destruct (plain_names name Hname) as [-> ->].
  destruct (nodes w !! (dir ++ [name])) as [n|] eqn:Hnode; cbn [fst snd]; intros _.
  - change (nodes (logged p w)) with (nodes w). rewrite Hwalk, Hnode.
    destruct n; discriminate.
  - change (nodes (with_nodes _ (logged p w))) with (<[dir ++ [name] := Dir]> (nodes w)).
    rewrite (walk_insert _ _ _ _ _ Hnode Hwalk), lookup_insert_eq. discriminate.
Qed.

Lemma mkdir_missing p w :
  (mkdir p w).1 = Some ENOENT ->
  nodes (mkdir p w).2 = nodes w /\
  walk (nodes w) (origin w p) (removelast (names p)) = inl ENOENT.
Proof.
  unfold mkdir. cbv zeta.
  change (nodes (logged p w)) with (nodes w).
  change (origin (logged p w) p) with (origin w p).
  destruct (last (names p)) as [name|]; [|discriminate].
  destruct (walk _ _ _) as [e|dir]; [cbn; intros [= ->]; now split|].
  destruct (special name); [discriminate|].
  destruct (nodes w !! _); discriminate.
Qed.

Lemma mkdir_found p w :
  walk (nodes w) (origin w p) (removelast (names p)) <> inl ENOENT ->
  (mkdir p w).1 <> Some ENOENT.
Proof. intros H E. now apply mkdir_missing in E as [_ E]. Qed.

Lemma checkAndCreate_found fuel dirs w :
  Forall plain dirs ->
  (mkdir (join dirs) w).1 <> Some ENOENT ->
  exists r w',
    checkAndCreate (S fuel) dirs w = Some (r, w') /\
    walk (nodes w') (cwd w) (names (join dirs)) <> inl ENOENT.
Proof.
  intros Hplain Hfound.
  assert (Forall plain (names (join dirs))) as Hnames
    by (rewrite join_plain by exact Hplain; now apply filter_plain).
  pose proof (mkdir_reach (join dirs) w Hnames Hfound) as Hreach.
  change (origin w (join dirs)) with (cwd w) in Hreach.
  cbn [checkAndCreate].
  destruct (mkdir (join dirs) w) as [[e|] w1]; cbn [fst snd] in *.
  - destruct e; try contradiction; eauto.
  - eauto.
Qed.

Lemma checkAndCreate_missing fuel dirs w :
  (mkdir (join dirs) w).1 = Some ENOENT ->
  checkAndCreate (S fuel) dirs w =
    match checkAndCreate fuel (removelast dirs) (mkdir (join dirs) w).2 with
    | Some (_, w2) => checkAndCreate fuel dirs w2
    | None => None
    end.
Proof.
  cbn [checkAndCreate]. destruct (mkdir (join dirs) w) as [r w1]. cbn. now intros ->.
Qed.

Lemma checkAndCreate_total fuel : forall dirs w,
  Forall plain dirs ->
  length dirs < fuel ->
  exists r w',
    checkAndCreate fuel dirs w = Some (r, w') /\
    walk (nodes w') (cwd w) (names (join dirs)) <> inl ENOENT.
Proof.
  induction fuel as [|fuel IH]; intros dirs w Hplain Hfuel; [lia|].
  assert ((mkdir (join dirs) w).1 = Some ENOENT \/
          (mkdir (join dirs) w).1 <> Some ENOENT) as [Hmiss|Hfound]
    by (destruct ((mkdir (join dirs) w).1) as [[]|]; (now left) || (right; discriminate)).
  2:{ now apply checkAndCreate_found. }
  destruct (mkdir_missing _ _ Hmiss) as [Hnodes Hwalk].
  destruct (mkdir_made (join dirs) w) as [_ Hcwd].
  change (origin w (join dirs)) with (cwd w) in Hwalk.
  destruct dirs as [|d dirs' _] using rev_ind; [discriminate|].
  rewrite length_app in Hfuel. cbn [length] in Hfuel.
  apply Forall_app in Hplain as [Hplain' Hd].
  destruct fuel as [|fuel']; [lia|].
  rewrite (checkAndCreate_missing _ _ _ Hmiss), removelast_last.
  destruct (mkdir (join (dirs' ++ [d])) w) as [r0 w1]; cbn [fst snd] in *. subst r0.
  destruct (IH dirs' w1 Hplain' ltac:(lia)) as (r1 & w2 & E1 & Hreach).
  rewrite E1.
  pose proof (proj1 (checkAndCreate_made (S fuel') _ _ _ _ E1)) as Hcwd2.
  destruct (checkAndCreate_found fuel' (dirs' ++ [d]) w2) as (r & w' & E & Hpost).
  - apply Forall_app. now split.
  - apply mkdir_found. change (origin w2 (join (dirs' ++ [d]))) with (cwd w2).
    rewrite Hcwd2. rewrite join_plain in Hreach by exact Hplain'.
    rewrite join_plain by (apply Forall_app; now split).
    rewrite List.filter_app. cbn [List.filter]. destruct (nonempty d).
    + now rewrite removelast_last.
    + rewrite app_nil_r. intros Eno. now apply walk_removelast in Eno.
  - exists r, w'. split; [exact E|]. now rewrite <- Hcwd, <- Hcwd2.
Qed.

(** *** The dot in the last segment *)

(** There is always a last segment to look at. *)
Lemma splitOn_nonempty separator text : forall run piece,
  splitOn separator text run piece <> [].
Proof.
  induction text as [|c text IH]; intros run piece; cbn [splitOn]; [discriminate|].
  destruct (separator c); [|apply IH].
  destruct run as [r|]; [destruct (Ascii.eqb r c)|]; (apply IH || discriminate).
Qed.

Lemma split_last checkpath : is_Some (last (split checkpath)).
Proof. apply last_is_Some, splitOn_nonempty. Qed.

Lemma directories_dotted checkpath :
  lastHasDot checkpath = true ->
  directories checkpath = removelast (split checkpath) /\ split checkpath <> [].
Proof.
  unfold lastHasDot, directories. cbv zeta.
  destruct (last (split checkpath)) as [name|] eqn:E; [|discriminate].
  intros ->. split; [reflexivity|]. intros Hnil. now rewrite Hnil in E.
Qed.

Lemma directories_undotted checkpath :
  lastHasDot checkpath = false -> directories checkpath = split checkpath.
Proof.
  unfold lastHasDot, directories. cbv zeta.
  destruct (last (split checkpath)) as [name|]; [|reflexivity]. now intros ->.
Qed.

Lemma directories_plain checkpath :
  Forall plain (split checkpath) ->
  Forall plain (directories checkpath) /\
  length (directories checkpath) <= length (split checkpath).
Proof.
  intros H. unfold directories. cbv zeta.
  destruct (last (split checkpath)) as [name|]; [|now split].
  destruct (hasDot name); [|now split].
  rewrite removelast_take. split; [now apply Forall_take|].
  rewrite length_take. lia.
Qed.

(** *** Where the write goes *)

Lemma splitOn_slash text : forall run piece,
  hasBackslash text = false ->
  splitOn isSeparator text run piece = splitOn isSlash text run piece.
Proof.
  induction text as [|c text IH]; intros run piece H; [reflexivity|].
  cbn [hasBackslash] in H. apply orb_false_elim in H as [Hc Htext].
  cbn [splitOn]. unfold isSeparator. rewrite Hc. cbn [orb]. fold (isSlash c).
  destruct (isSlash c); [|now apply IH].
  destruct run as [r|]; [destruct (Ascii.eqb r c)|]; rewrite ?IH by exact Htext;
    reflexivity.
Qed.

(** Without backslashes, sent from the root or on a relative path, the
    write goes where the directory check went. *)
Lemma parse_join checkpath w :
  hasBackslash checkpath = false ->
  Forall plain (split checkpath) ->
  cwd w = [] \/ absolute (parse checkpath) = false ->
  locate w (parse checkpath) = locate w (join (split checkpath)).
Proof.
  intros Hback Hplain Hfrom. unfold locate.
  assert (names (parse checkpath) = names (join (split checkpath))) as ->.
  { rewrite join_plain by exact Hplain. unfold parse, split. cbn [names].
    now rewrite splitOn_slash. }
  assert (origin w (parse checkpath) = origin w (join (split checkpath))) as ->;
    [|reflexivity].
  unfold origin. change (absolute (join _)) with false. cbv iota.
  destruct Hfrom as [->| ->]; [now destruct (absolute _) | reflexivity].
Qed.

End UtilsFacts.

(** ** The dot in the last segment (claim C10) *)

Section UtilsClaims.
Import Utils UtilsSpec UtilsFacts.
Local Close Scope N_scope.




End UtilsClaims.

(** ** More about the codec: layout, pieces, reassembly *)

Module CodecMore.
Import Js JsFacts BufferFacts Signal CodecSpec LengthField CodecFacts.
Local Open Scope N_scope.

Lemma encode_frame signal content note frame :
  exports.encode signal content note = Some frame ->
  frameLength (default [] content) (default [] note) <= MAX_INFO_SIZE /\
  frame = START ++ lengthBytes (frameLength (default [] content) (default [] note))
            ++ signal ++ default [] note ++ BOUNDARY ++ default [] content ++ END.
Proof.
  rewrite encode_eq. cbv zeta.
  destruct (N.ltb_spec MAX_INFO_SIZE
              (frameLength (default [] content) (default [] note))); [discriminate|].
  intros [= <-]. split; [assumption | reflexivity].
Qed.

(** The inner [decode] only looks at what the cache holds after the new
    data has been appended. *)
Lemma decode_appended data zone data' zone' :
  default [] (cache zone) ++ data = default [] (cache zone') ++ data' ->
  decode data zone = decode data' zone'.
Proof. intros H. unfold decode. now rewrite H. Qed.

(** *** The pieces of [split] *)

Lemma take_min {A} (n : nat) (l : list A) : take (Nat.min n (length l)) l = take n l.
Proof.
  destruct (Nat.le_gt_cases n (length l)) as [H|H].
  - now rewrite Nat.min_l.
  - rewrite Nat.min_r by lia. now rewrite !take_ge by lia.
Qed.

Lemma drop_min {A} (n : nat) (l : list A) : drop (Nat.min n (length l)) l = drop n l.
Proof.
  destruct (Nat.le_gt_cases n (length l)) as [H|H].
  - now rewrite Nat.min_l.
  - rewrite Nat.min_r by lia. now rewrite !drop_ge by lia.
Qed.

(** A search that succeeds answers the first position of the pattern. *)
Lemma indexOf_found pat l :
  indexOf pat l <> (-1)%Z ->
  exists k, indexOf pat l = Z.of_nat k /\
    startsWith pat (drop k l) = true /\
    forall j, (j < k)%nat -> startsWith pat (drop j l) = false.
Proof.
  intros Hfound. unfold indexOf in *.
  destruct (indexOf_from_range pat l 0) as [?|Hrange]; [contradiction|].
  exists (Z.to_nat (indexOf_from pat l 0)).
  split; [lia|]. apply (indexOf_from_found pat l 0%Z); lia.
Qed.

Lemma startsWith_length pat l :
  startsWith pat l = true -> (length pat <= length l)%nat.
Proof.
  intros [rest ->]%startsWith_prefix. rewrite length_app. lia.
Qed.

Lemma cut_found fuel data k :
  indexOf JOINT data = Z.of_nat k ->
  cut (S fuel) data = take (k + 3) data :: cut fuel (drop (k + 3) data).
Proof.
  intros H. cbn [cut]. rewrite H.
  destruct (Z.eqb_spec (Z.of_nat k) (-1)); [lia|].
  change (Z.of_N (blen END)) with 3%Z.
  replace (Z.of_nat k + 3)%Z with (Z.of_nat (k + 3)) by lia.
  change 0%Z with (Z.of_nat 0). rewrite slice_nat. unfold slice_from.
  rewrite clamp_nonneg. cbn [Nat.min drop].
  now rewrite Nat.sub_0_r, take_min, drop_min.
Qed.

Lemma cut_whole fuel data :
  indexOf JOINT data = (-1)%Z -> cut fuel data = [data].
Proof. intros H. destruct fuel; cbn [cut]; rewrite H; reflexivity. Qed.

Lemma cut_concat fuel : forall data, concat (cut fuel data) = data.
Proof.
  induction fuel as [|fuel IH]; intros data.
  - cbn [cut]. destruct (_ =? _)%Z; cbn; apply app_nil_r.
  - destruct (Z.eq_dec (indexOf JOINT data) (-1)%Z) as [Hnone|Hfound].
    + rewrite cut_whole by exact Hnone. cbn. apply app_nil_r.
    + destruct (indexOf_found _ _ Hfound) as (k & Hk & _).
      rewrite (cut_found _ _ _ Hk). cbn [concat]. rewrite IH. apply take_drop.
Qed.

(** The length of the data is enough fuel for [cut]. *)
Lemma cut_fuel f1 : forall f2 data,
  (length data <= f1)%nat -> (length data <= f2)%nat ->
  cut f1 data = cut f2 data.
Proof.
  induction f1 as [|f1 IH]; intros f2 data H1 H2.
  - destruct data; [|cbn in H1; lia]. now rewrite !cut_whole.
  - destruct (Z.eq_dec (indexOf JOINT data) (-1)%Z) as [Hnone|Hfound].
    + now rewrite !cut_whole.
    + destruct (indexOf_found _ _ Hfound) as (k & Hk & Hstart & _).
      apply startsWith_length in Hstart. rewrite length_drop in Hstart.
      cbn [JOINT END START app length] in Hstart.
      destruct f2 as [|f2]; [lia|].
      rewrite !(cut_found _ _ _ Hk). f_equal.
      apply IH; rewrite length_drop; lia.
Qed.

Lemma split_whole data : indexOf JOINT data = (-1)%Z -> split data = [data].
Proof. apply cut_whole. Qed.

Lemma split_found data k :
  indexOf JOINT data = Z.of_nat k ->
  split data = take (k + 3) data :: split (drop (k + 3) data).
Proof.
  intros Hk. unfold split.
  assert (indexOf JOINT data <> (-1)%Z) as Hfound by lia.
  destruct (indexOf_found _ _ Hfound) as (k' & Hk' & Hstart & _).
  apply startsWith_length in Hstart. rewrite length_drop in Hstart.
  cbn [JOINT END START app length] in Hstart.
  destruct (length data) as [|n] eqn:Hlen; [lia|].
  rewrite (cut_found _ _ _ Hk). f_equal.
  apply cut_fuel; rewrite length_drop; lia.
Qed.

(** Where the first joint is found: the data up to the end marker holds
    no joint, ends with the end marker, and what follows starts with the
    start marker. *)
Lemma first_joint data k :
  indexOf JOINT data = Z.of_nat k ->
  (k + 6 <= length data)%nat /\
  indexOf JOINT (take (k + 3) data) = (-1)%Z /\
  drop k (take (k + 3) data) = END /\
  take 3 (drop (k + 3) data) = START.
Proof.
  intros Hk.
  assert (indexOf JOINT data <> (-1)%Z) as Hfound by lia.
  destruct (indexOf_found _ _ Hfound) as (k' & Hk' & Hstart & Hfirst).
  assert (k' = k) as -> by lia.
  pose proof (startsWith_length _ _ Hstart) as Hlen. rewrite length_drop in Hlen.
  cbn [JOINT END START app length] in Hlen.
  apply startsWith_prefix in Hstart as [rest Hrest].
  split; [lia|]. split; [|split].
  - apply indexOf_none. intros j.
    destruct (startsWith JOINT (drop j (take (k + 3) data))) eqn:E; [exfalso|reflexivity].
    pose proof (startsWith_length _ _ E) as Hj.
    rewrite length_drop, length_take in Hj. cbn [JOINT END START app length] in Hj.
    apply startsWith_prefix in E as [r Hr].
    assert (startsWith JOINT (drop j data) = true) as Hj'.
    { rewrite <- (take_drop (k + 3) data) at 1.
      rewrite drop_app_le by (rewrite length_take; lia).
      rewrite Hr, <- app_assoc. apply startsWith_app. }
    rewrite Hfirst in Hj' by lia. discriminate.
  - rewrite <- take_drop_commute, Hrest. reflexivity.
  - rewrite <- drop_drop, Hrest. reflexivity.
Qed.

Lemma split_head data :
  exists a rest, split data = a :: rest /\ take 3 a = take 3 data.
Proof.
  destruct (Z.eq_dec (indexOf JOINT data) (-1)%Z) as [Hnone|Hfound].
  - rewrite split_whole by exact Hnone. eauto.
  - destruct (indexOf_found _ _ Hfound) as (k & Hk & _).
    rewrite (split_found _ _ Hk). eexists _, _. split; [reflexivity|].
    rewrite take_take. f_equal. lia.
Qed.

(** *** A cache that cannot become a frame *)

Lemma slice_head {A} (c data : list A) :
  (3 <= length c)%nat -> slice 0 3 (c ++ data) = take 3 c.
Proof.
  intros H. change 0%Z with (Z.of_nat 0). change 3%Z with (Z.of_nat 3).
  rewrite slice_nat, length_app.
  rewrite (Nat.min_l 3) by lia. rewrite Nat.min_0_l, Nat.sub_0_r.
  change (drop 0 (c ++ data)) with (c ++ data). now rewrite take_app_le by lia.
Qed.

Lemma decode_blocked c data :
  (3 <= length c)%nat ->
  take 3 c <> START ->
  decode data {| cache := Some c |} =
    (Some Incomplete, {| cache := Some (c ++ data) |}).
Proof.
  intros Hlen Hstart. unfold decode. cbn [cache default from_option]. unfold id.
  rewrite slice_head by exact Hlen. unfold equals at 1.
  rewrite bool_decide_eq_false_2 by congruence. reflexivity.
Qed.

Lemma decode_each_blocked pieces : forall c,
  (3 <= length c)%nat ->
  take 3 c <> START ->
  decode_each pieces {| cache := Some c |} =
    (Some (replicate (length pieces) Incomplete),
     {| cache := Some (c ++ concat pieces) |}).
Proof.
  induction pieces as [|piece pieces IH]; intros c Hlen Hstart; cbn [decode_each].
  - cbn. now rewrite app_nil_r.
  - rewrite decode_blocked by assumption.
    rewrite IH.
    + cbn. now rewrite <- app_assoc.
    + rewrite length_app. lia.
    + now rewrite take_app_le by lia.
Qed.

Lemma filter_incomplete n :
  filter (fun data => negb (incomplete data)) (replicate n Incomplete) = [].
Proof. induction n as [|n IH]; [reflexivity | exact IH]. Qed.

Lemma decode_blocked_chunk c data :
  (3 <= length c)%nat ->
  take 3 c <> START ->
  exports.decode data {| cache := Some c |} =
    (Some [], {| cache := Some (c ++ data) |}).
Proof.
  intros Hlen Hstart. unfold exports.decode.
  rewrite decode_each_blocked by assumption.
  unfold split. rewrite cut_concat. cbn [fmap option_fmap option_map].
  now rewrite filter_incomplete.
Qed.

(** *** Whole frames *)

(** The inner [decode] gives back what [encode] was given, when the
    cache then holds exactly the frame. *)
Lemma decode_encoded t content note frame data zone :
  exports.encode [t] (Some content) (Some note) = Some frame ->
  indexOf BOUNDARY note = (-1)%Z ->
  default [] (cache zone) ++ data = frame ->
  decode data zone =
    (Some (Frame (Some t) content note), {| cache := Some [] |}).
Proof.
  intros Henc Hnote Hwhole.
  rewrite (decode_appended data zone frame {| cache := None |}) by exact Hwhole.
  destruct (encode_frame _ _ _ _ Henc) as [Hcap ->]. cbn [default from_option] in *.
  unfold id in *. rewrite MAX_INFO_SIZE_value in Hcap.
  destruct (declared_lengthBytes_le (frameLength content note)) as (m & Hdecl & Hm);
    [lia|].
  replace (START ++ lengthBytes (frameLength content note) ++ [t]
            ++ note ++ BOUNDARY ++ content ++ END)
    with (START ++ lengthBytes (frameLength content note) ++ [t]
            ++ (note ++ BOUNDARY ++ content) ++ END)
    by (now rewrite <- !app_assoc).
  assert (emptyZone {| cache := None |}) as Hz by (left; reflexivity).
  rewrite (decode_record _ _ _ _ (Some m) Hz (lengthBytes_length _) Hdecl).
  2:{ cbn [exceeds]. apply N.ltb_ge. rewrite MAX_INFO_SIZE_value. lia. }
  rewrite boundary_first by exact Hnote.
  rewrite slice_prefix.
  replace (Z.of_nat (length note) + 2)%Z
    with (Z.of_nat (length (note ++ BOUNDARY))) by (rewrite length_app; simpl; lia).
  replace (note ++ BOUNDARY ++ content) with ((note ++ BOUNDARY) ++ content)
    by (now rewrite <- app_assoc).
  now rewrite slice_from_prefix.
Qed.

Lemma startsWith_app_l pat : forall a b,
  (length pat <= length a)%nat -> startsWith pat (a ++ b) = startsWith pat a.
Proof.
  induction pat as [|p pat IH]; intros a b H; [reflexivity|].
  destruct a as [|x a]; [cbn in H; lia|].
  cbn [app startsWith]. f_equal. apply IH. cbn in H. lia.
Qed.

Lemma encoded_ends t content note frame :
  exports.encode [t] (Some content) (Some note) = Some frame ->
  exists g, frame = g ++ END /\ (7 <= length g)%nat /\ take 3 frame = START.
Proof.
  intros Henc. destruct (encode_frame _ _ _ _ Henc) as [_ ->].
  exists (START ++ lengthBytes (frameLength (default [] (Some content))
                                  (default [] (Some note)))
            ++ [t] ++ default [] (Some note) ++ BOUNDARY ++ default [] (Some content)).
  split; [now rewrite <- !app_assoc|]. split; [|reflexivity].
  rewrite !length_app, lengthBytes_length. cbn [START length]. lia.
Qed.

(** Between a frame without a joint and data that starts with the start
    marker, the first joint is the one they form. *)
Lemma joint_between g rest :
  indexOf JOINT (g ++ END) = (-1)%Z ->
  take 3 rest = START ->
  indexOf JOINT ((g ++ END) ++ rest) = Z.of_nat (length g).
Proof.
  intros Hnone Hstart.
  assert (rest = START ++ drop 3 rest) as Hrest
    by (rewrite <- Hstart at 1; now rewrite take_drop).
  apply indexOf_first.
  - rewrite <- app_assoc, drop_app_length, Hrest.
    change (END ++ START ++ drop 3 rest) with (JOINT ++ drop 3 rest).
    apply startsWith_app.
  - intros j Hj.
    destruct (Nat.le_gt_cases (j + 3) (length g)) as [Hin|Hout].
    + rewrite drop_app_le by (rewrite length_app; lia).
      rewrite startsWith_app_l.
      * exact (proj1 (indexOf_none _ _) Hnone j).
      * rewrite length_drop, length_app. cbn [JOINT END START app length]. lia.
    + rewrite <- app_assoc, drop_app_le by lia.
      destruct (drop j g) as [|x [|y [|z l]]] eqn:E;
        apply (f_equal length) in E; rewrite length_drop in E; cbn [length] in E;
        try lia.
      * unfold JOINT, END, START. cbn [app startsWith].
        change (byte_eqb xcd xab) with false. now rewrite andb_false_r.
      * unfold JOINT, END, START. cbn [app startsWith].
        change (byte_eqb xef xab) with false. now rewrite !andb_false_r.
Qed.

Lemma decode_each_frames msgs : forall m frame frames zone,
  emptyZone zone ->
  Forall2 (fun m frame =>
             exports.encode [m.1.1] (Some m.1.2) (Some m.2) = Some frame /\
             indexOf BOUNDARY m.2 = (-1)%Z /\
             indexOf JOINT frame = (-1)%Z) (m :: msgs) (frame :: frames) ->
  decode_each (split (concat (frame :: frames))) zone =
    (Some ((fun m => Frame (Some m.1.1) m.1.2 m.2) <$> (m :: msgs)),
     {| cache := Some [] |}).
Proof.
  induction msgs as [|m2 msgs IH]; intros m frame frames zone Hz Hall;
    apply Forall2_cons_1 in Hall as [(Henc & Hnote & Hjoint) Hrest].
  - apply Forall2_nil_inv_l in Hrest as ->.
    cbn [concat]. rewrite app_nil_r, split_whole by exact Hjoint.
    cbn [decode_each].
    rewrite (decode_encoded _ _ _ _ _ _ Henc Hnote); [reflexivity|].
    destruct Hz as [-> | ->]; reflexivity.
  - destruct frames as [|frame2 frames]; [inversion Hrest|].
    pose proof Hrest as Hrest'.
    apply Forall2_cons_1 in Hrest' as [(Henc2 & _ & _) _].
    destruct (encoded_ends _ _ _ _ Henc) as (g & -> & Hg & _).
    destruct (encoded_ends _ _ _ _ Henc2) as (g2 & Hframe2 & Hg2 & Hstart2).
    assert (take 3 (concat (frame2 :: frames)) = START) as Hstart.
    { cbn [concat]. rewrite take_app_le; [exact Hstart2|].
      rewrite Hframe2, length_app. lia. }
    change (concat ((g ++ END) :: frame2 :: frames))
      with ((g ++ END) ++ concat (frame2 :: frames)).
    rewrite (split_found _ _ (joint_between _ _ Hjoint Hstart)).
    replace (length g + 3)%nat with (length (g ++ END))
      by (rewrite length_app; reflexivity).
    rewrite take_app_length, drop_app_length. cbn [decode_each].
    rewrite (decode_encoded _ _ _ _ _ _ Henc Hnote)
      by (destruct Hz as [-> | ->]; reflexivity).
    rewrite (IH m2 frame2 frames {| cache := Some [] |}); [reflexivity | | exact Hrest].
    right. reflexivity.
Qed.

Lemma filter_frames (msgs : list (byte * Buffer * Buffer)) :
  filter (fun data => negb (incomplete data))
    ((fun m => Frame (Some m.1.1) m.1.2 m.2) <$> msgs) =
  (fun m => Frame (Some m.1.1) m.1.2 m.2) <$> msgs.
Proof.
  induction msgs as [|m msgs IH]; [reflexivity|].
  cbn [fmap list_fmap]. rewrite filter_cons_True by (cbn; exact I).
  f_equal. exact IH.
Qed.

(** *** A frame that arrives in parts *)

Section Parts.
Variable frame : Buffer.
Hypothesis end_last :
  forall j, (j + 3 < length frame)%nat -> startsWith END (drop j frame) = false.

Lemma part_whole chunk acc more :
  frame = acc ++ chunk ++ more -> indexOf JOINT chunk = (-1)%Z.
Proof.
  intros Hframe. apply indexOf_none. intros j.
  destruct (startsWith JOINT (drop j chunk)) eqn:E; [exfalso|reflexivity].
  pose proof (startsWith_length _ _ E) as Hj. rewrite length_drop in Hj.
  cbn [JOINT END START app length] in Hj.
  apply startsWith_prefix in E as [r Hr].
  assert (startsWith END (drop (length acc + j) frame) = true) as Hfound.
  { rewrite Hframe, drop_app_ge by lia.
    replace (length acc + j - length acc)%nat with j by lia.
    rewrite drop_app_le by lia. rewrite Hr. unfold JOINT.
    rewrite <- !app_assoc. apply startsWith_app. }
  rewrite end_last in Hfound; [discriminate|].
  rewrite Hframe, !length_app. lia.
Qed.

Lemma decode_partial chunk zone more :
  more <> [] ->
  frame = (default [] (cache zone) ++ chunk) ++ more ->
  decode chunk zone =
    (Some Incomplete, {| cache := Some (default [] (cache zone) ++ chunk) |}).
Proof.
  intros Hmore Hframe. unfold decode. cbv zeta.
  set (c := default [] (cache zone) ++ chunk) in *.
  assert (equals END (slice_from (Z.of_nat (length c) - 3) c) = false) as ->;
    [|now rewrite orb_true_r].
  unfold equals. apply bool_decide_eq_false_2. intros Hend.
  destruct (Nat.le_gt_cases 3 (length c)) as [Hlen|Hlen].
  - replace (Z.of_nat (length c) - 3)%Z with (Z.of_nat (length c - 3)) in Hend by lia.
    unfold slice_from in Hend. rewrite clamp_nonneg, Nat.min_l in Hend by lia.
    assert (startsWith END (drop (length c - 3) frame) = true) as Hfound.
    { rewrite Hframe, drop_app_le by lia. rewrite <- Hend. apply startsWith_app. }
    rewrite end_last in Hfound; [discriminate|].
    rewrite Hframe, length_app. destruct more; [contradiction|]. cbn [length]. lia.
  - apply (f_equal length) in Hend. unfold slice_from in Hend.
    rewrite length_drop in Hend. cbn [END length] in Hend. lia.
Qed.

Lemma decode_chunks_idle chunks :
  concat chunks = [] ->
  decode_chunks chunks {| cache := Some [] |} = (Some [], {| cache := Some [] |}).
Proof.
  induction chunks as [|chunk chunks IH]; intros H; [reflexivity|].
  cbn [concat] in H. apply app_eq_nil in H as [-> H].
  cbn [decode_chunks].
  change (exports.decode [] {| cache := Some [] |})
    with (Some (@nil Decoded), {| cache := Some [] |}).
  cbv beta iota. now rewrite IH.
Qed.

Lemma decode_chunks_parts t content note :
  exports.encode [t] (Some content) (Some note) = Some frame ->
  indexOf BOUNDARY note = (-1)%Z ->
  forall chunks zone,
    default [] (cache zone) ++ concat chunks = frame ->
    (length (default [] (cache zone)) < length frame)%nat ->
    decode_chunks chunks zone =
      (Some [Frame (Some t) content note], {| cache := Some [] |}).
Proof.
  intros Henc Hnote.
  induction chunks as [|chunk chunks IH]; intros zone Hwhole Hshort.
  - cbn [concat] in Hwhole. rewrite app_nil_r in Hwhole. rewrite Hwhole in Hshort. lia.
  - cbn [concat] in Hwhole. cbn [decode_chunks]. unfold exports.decode.
    rewrite (split_whole chunk)
      by (apply (part_whole chunk (default [] (cache zone)) (concat chunks));
          now rewrite Hwhole).
    cbn [decode_each].
    destruct (concat chunks) as [|x more] eqn:Hmore.
    + rewrite app_nil_r in Hwhole.
      rewrite (decode_encoded _ _ _ _ _ _ Henc Hnote Hwhole).
      cbn [fmap option_fmap option_map filter list_filter].
      rewrite decode_chunks_idle by exact Hmore. reflexivity.
    + rewrite (decode_partial chunk zone (x :: more));
        [|discriminate | now rewrite <- app_assoc].
      cbn [fmap option_fmap option_map].
      rewrite filter_cons_False by (cbn; tauto). rewrite filter_nil.
      rewrite IH; [reflexivity | |].
      * change (default [] (cache {| cache := Some ?c |})) with c.
        now rewrite <- app_assoc.
      * change (default [] (cache {| cache := Some ?c |})) with c.
        rewrite <- Hwhole, !length_app. cbn [length]. lia.
Qed.

End Parts.

(** *** What the inner [decode] can answer *)

Lemma decode_answers data zone :
  exists d z,
    decode data zone = (Some d, z) /\
    (d = Incomplete \/ exists t content note, d = Frame (Some t) content note).
Proof.
  unfold decode. cbv zeta.
  generalize (default [] (cache zone) ++ data) as c. intros c.
  destruct (negb (equals START (slice 0 3 c))
            || negb (equals END (slice_from (Z.of_nat (length c) - 3) c))) eqn:E;
    [eauto|].
  apply orb_false_elim in E as [Hs He].
  apply negb_false_iff, bool_decide_eq_true_1 in Hs.
  apply negb_false_iff, bool_decide_eq_true_1 in He.
  destruct c as [|b0 [|b1 [|b2 [|b3 [|b4 [|b5 [|b6 rest]]]]]]];
    try (vm_compute in Hs, He; congruence).
  - (* six bytes: the markers alone, whose middle reads as too long *)
    vm_compute in He. injection He as <- <- <-. vm_compute. eauto.
  - change (slice 3 6 (b0 :: b1 :: b2 :: b3 :: b4 :: b5 :: b6 :: rest))
      with [b3; b4; b5].
    rewrite declared_three. destruct (exceeds _); [eauto|].
    eexists _, _. split; [reflexivity|]. right. cbn. eauto.
Qed.

Lemma decode_each_answers pieces : forall zone,
  exists ds z,
    decode_each pieces zone = (Some ds, z) /\
    Forall (fun d => d = Incomplete \/
                     exists t content note, d = Frame (Some t) content note) ds.
Proof.
  induction pieces as [|piece pieces IH]; intros zone; cbn [decode_each].
  - eexists _, _. split; [reflexivity | constructor].
  - destruct (decode_answers piece zone) as (d & z & -> & Hd).
    destruct (IH z) as (ds & z' & -> & Hds).
    eexists _, _. split; [reflexivity|]. now constructor.
Qed.

End CodecMore.

Section CodecExtras.
Import Js JsFacts BufferFacts Signal CodecSpec LengthField CodecFacts CodecMore.
Local Open Scope N_scope.



(** X2. The decoder never compares the length bytes with the size of
    what it received: between a start and an end marker, any three length
    bytes that read as a value within the limit are accepted, and the frame
    is cut at the markers alone. *)
Theorem length_field_not_checked lb t body zone len :
  emptyZone zone ->
  length lb = 3%nat ->
  declared lb = Some len ->
  exceeds len = false ->
  indexOf JOINT (START ++ lb ++ [t] ++ body ++ END) = (-1)%Z ->
  exports.decode (START ++ lb ++ [t] ++ body ++ END) zone =
    (Some [Frame (Some t)
             (slice_from (indexOf BOUNDARY body + 2) body)
             (slice 0 (indexOf BOUNDARY body) body)],
     {| cache := Some [] |}).
Proof.
  intros Hz Hlb Hdecl Hex Hjoint.
  unfold exports.decode, split. rewrite cut_none by exact Hjoint.
  cbn [decode_each]. now rewrite (decode_record lb t body zone len Hz Hlb Hdecl Hex).
Qed.

Lemma length_field_not_checked_witness :
  exports.decode
    [x12; x23; x33; x00; x00; x01; x03; x61; x10; x03; x68; x69; xab; xcd; xef]
    {| cache := None |} =
  (Some [Frame (Some x03) [x68; x69] [x61]], {| cache := Some [] |}).
Proof.
  apply (length_field_not_checked [x00; x00; x01] x03 [x61; x10; x03; x68; x69]
           {| cache := None |} (Some 1)).
  - left. reflexivity.
  - reflexivity.
  - vm_compute. reflexivity.
  - reflexivity.
  - vm_compute. reflexivity.
Defined.

(** X3. A frame without a boundary marker is not refused: the search
    answers -1, so the note is the body without its last byte and the
    content is the body without its first byte. *)
Theorem missing_boundary_overlaps lb t body zone len :
  emptyZone zone ->
  length lb = 3%nat ->
  declared lb = Some len ->
  exceeds len = false ->
  indexOf JOINT (START ++ lb ++ [t] ++ body ++ END) = (-1)%Z ->
  indexOf BOUNDARY body = (-1)%Z ->
  exports.decode (START ++ lb ++ [t] ++ body ++ END) zone =
    (Some [Frame (Some t) (drop 1 body) (take (length body - 1) body)],
     {| cache := Some [] |}).
Proof.
  intros Hz Hlb Hdecl Hex Hjoint Hnone.
  unfold exports.decode, split. rewrite cut_none by exact Hjoint.
  cbn [decode_each].
  rewrite (decode_record lb t body zone len Hz Hlb Hdecl Hex). cbv zeta.
  rewrite Hnone. cbn [filter list_filter fmap option_fmap option_map].
  do 3 f_equal.
  assert (slice_from (-1 + 2) body = drop 1 body) as ->.
  { unfold slice_from, clamp. cbn. destruct body; reflexivity. }
  assert (slice 0 (-1) body = take (length body - 1) body) as ->; [|reflexivity].
  unfold slice, clamp. cbn [Z.ltb Z.compare Nat.min Z.to_nat drop].
  f_equal. lia.
Qed.

Lemma missing_boundary_overlaps_witness :
  exports.decode [x12; x23; x33; x00; x00; x0d; x03; x61; x62; x63; xab; xcd; xef]
    {| cache := None |} =
  (Some [Frame (Some x03) [x62; x63] [x61; x62]], {| cache := Some [] |}).
Proof.
  apply (missing_boundary_overlaps [x00; x00; x0d] x03 [x61; x62; x63]
           {| cache := None |} (Some 13)).
  - left. reflexivity.
  - reflexivity.
  - vm_compute. reflexivity.
  - reflexivity.
  - vm_compute. reflexivity.
  - vm_compute. reflexivity.
Defined.

(** X4. [split] loses nothing and cuts at the joints only: the pieces
    put together give the data back, no piece holds an end marker followed
    by a start marker, and wherever a piece is followed by another, the first
    ends with the end marker and the second starts with the start marker. *)
Theorem split_pieces data :
  concat (split data) = data /\
  Forall (fun piece => indexOf JOINT piece = (-1)%Z) (split data) /\
  (forall i a b,
     split data !! i = Some a ->
     split data !! S i = Some b ->
     drop (length a - 3) a = END /\ take 3 b = START).
Proof.
  split; [apply cut_concat|].
  remember (length data) as n eqn:Hn.
  assert (length data <= n)%nat as Hle by lia. clear Hn.
  revert data Hle. induction n as [|n IH]; intros data Hle.
  - destruct data; [|cbn in Hle; lia]. rewrite split_whole by reflexivity.
    split; [now repeat constructor|]. intros i a b _ H. now destruct i.
  - destruct (Z.eq_dec (indexOf JOINT data) (-1)%Z) as [Hnone|Hfound].
    + rewrite split_whole by exact Hnone.
      split; [now repeat constructor|]. intros i a b _ H. now destruct i.
    + destruct (indexOf_found _ _ Hfound) as (k & Hk & _).
      destruct (first_joint _ _ Hk) as (Hlen & Hpiece & Hend & Hstart).
      rewrite (split_found _ _ Hk).
      destruct (IH (drop (k + 3) data)) as [Hall Hadj];
        [rewrite length_drop; lia|].
      split; [now constructor|].
      intros [|i] a b Ha Hb; cbn in Ha, Hb.
      * injection Ha as <-.
        destruct (split_head (drop (k + 3) data)) as (a' & rest & Hsplit & Hhead).
        rewrite Hsplit in Hb. injection Hb as <-.
        rewrite length_take. replace (Nat.min (k + 3) (length data) - 3)%nat with k by lia.
        split; [exact Hend | congruence].
      * now apply (Hadj i).
Qed.

(** X5. The decoder never finds its way back: once the cache holds
    three bytes that are not the start marker, every later call appends
    its data to the cache and gives no frame, whatever arrives. *)
Theorem decoder_never_resynchronises c chunks :
  (3 <= length c)%nat ->
  take 3 c <> START ->
  decode_chunks chunks {| cache := Some c |} =
    (Some [], {| cache := Some (c ++ concat chunks) |}).
Proof.
  revert c. induction chunks as [|chunk chunks IH]; intros c Hlen Hstart;
    cbn [decode_chunks].
  - cbn. now rewrite app_nil_r.
  - rewrite decode_blocked_chunk by assumption.
    rewrite IH.
    + cbn. now rewrite <- app_assoc.
    + rewrite length_app. lia.
    + now rewrite take_app_le by lia.
Qed.

Lemma decoder_never_resynchronises_witness :
  decode_chunks
    [ [x12; x23; x33; x00; x00; x0d; x05; x10; x03; x32; xab; xcd; xef] ]
    {| cache := Some [x00; x12; x23] |} =
  (Some [],
   {| cache := Some ([x00; x12; x23] ++
        concat [ [x12; x23; x33; x00; x00; x0d; x05; x10; x03; x32; xab; xcd; xef] ]) |}).
Proof.
  apply (decoder_never_resynchronises [x00; x12; x23]).
  - simpl. lia.
  - discriminate.
Defined.

(** X6. Several frames that arrive in one chunk are all decoded, in
    order, and the cache is left empty: this holds for frames made by
    [encode] whose notes hold no boundary marker and which hold no end
    marker followed by a start marker. *)
Theorem frames_in_one_chunk (msgs : list (byte * Buffer * Buffer)) frames zone :
  emptyZone zone ->
  Forall2 (fun m frame =>
             exports.encode [m.1.1] (Some m.1.2) (Some m.2) = Some frame /\
             indexOf BOUNDARY m.2 = (-1)%Z /\
             indexOf JOINT frame = (-1)%Z) msgs frames ->
  exports.decode (concat frames) zone =
    (Some ((fun m => Frame (Some m.1.1) m.1.2 m.2) <$> msgs),
     {| cache := Some [] |}).
Proof.
  intros Hz Hall. unfold exports.decode.
  destruct msgs as [|m msgs].
  - apply Forall2_nil_inv_l in Hall as ->.
    destruct Hz as [Hz|Hz]; destruct zone as [c]; cbn in Hz; subst c; reflexivity.
  - destruct frames as [|frame frames]; [inversion Hall|].
    rewrite (decode_each_frames msgs m frame frames zone Hz Hall).
    cbn [fmap option_fmap option_map]. now rewrite filter_frames.
Qed.

Lemma frames_in_one_chunk_witness :
  exports.decode
    (concat
       [ [x12; x23; x33; x00; x00; x0d; x05; x10; x03; x32; xab; xcd; xef];
         [x12; x23; x33; x00; x00; x0f; x03; x61; x10; x03; x68; x69; xab; xcd; xef] ])
    {| cache := None |} =
  (Some ((fun m => Frame (Some m.1.1) m.1.2 m.2) <$>
           [ (x05, [x32], []); (x03, [x68; x69], [x61]) ]),
   {| cache := Some [] |}).
Proof.
  apply frames_in_one_chunk.
  - left. reflexivity.
  - repeat constructor; vm_compute; reflexivity.
Defined.

(** X7. A frame that arrives in parts is put together again: however a
    frame made by [encode] is cut into chunks, the calls before the last
    part give nothing and the call that completes it gives the frame and
    empties the cache, as long as the note holds no boundary marker and the
    end marker occurs nowhere in the frame but at its end. *)
Theorem frame_in_chunks t content note frame chunks zone :
  emptyZone zone ->
  exports.encode [t] (Some content) (Some note) = Some frame ->
  indexOf BOUNDARY note = (-1)%Z ->
  indexOf END frame = Z.of_nat (length frame - 3) ->
  concat chunks = frame ->
  decode_chunks chunks zone =
    (Some [Frame (Some t) content note], {| cache := Some [] |}).
Proof.
  intros Hz Henc Hnote Hend Hwhole.
  assert (default [] (cache zone) = []) as Hcache
    by (destruct Hz as [-> | ->]; reflexivity).
  destruct (encoded_ends _ _ _ _ Henc) as (g & Hg & Hlen & _).
  apply (decode_chunks_parts frame) with (t := t) (content := content) (note := note).
  - intros j Hj.
    assert (indexOf END frame <> (-1)%Z) as Hfound by lia.
    destruct (indexOf_found _ _ Hfound) as (k & Hk & _ & Hfirst).
    apply Hfirst. lia.
  - exact Henc.
  - exact Hnote.
  - now rewrite Hcache.
  - rewrite Hcache, Hg, length_app. cbn [length]. lia.
Qed.

Lemma frame_in_chunks_witness :
  decode_chunks
    [ [x12]; [x23; x33; x00; x00; x0f; x03; x61; x10]; [];
      [x03; x68; x69; xab; xcd]; [xef] ]
    {| cache := None |} =
  (Some [Frame (Some x03) [x68; x69] [x61]], {| cache := Some [] |}).
Proof.
  apply (frame_in_chunks x03 [x68; x69] [x61]
           [x12; x23; x33; x00; x00; x0f; x03; x61; x10; x03; x68; x69; xab; xcd; xef]).
  - left. reflexivity.
  - vm_compute. reflexivity.
  - vm_compute. reflexivity.
  - vm_compute. reflexivity.
  - reflexivity.
Defined.

(** X8. Decoding never throws, and every frame it hands on has a type
    byte: a cache that passes the marker tests has at least six bytes, and
    one of exactly six bytes reads as too long and is kept as incomplete. *)
Theorem decode_never_throws data zone :
  exists frames z,
    exports.decode data zone = (Some frames, z) /\
    Forall (fun d => exists t content note, d = Frame (Some t) content note) frames.
Proof.
  unfold exports.decode.
  destruct (decode_each_answers (split data) zone) as (ds & z & -> & Hds).
  eexists _, _. split; [reflexivity|].
  apply Forall_forall. intros d Hd. apply list_elem_of_filter in Hd as [Hcomplete Hin].
  rewrite Forall_forall in Hds. destruct (Hds d Hin) as [->|H]; [|exact H].
  now cbn in Hcomplete.
Qed.

End CodecExtras.

(** ** More about the worker *)

Module WorkerMoreFacts.
Import Signal Worker WorkerSpec WorkerFacts WorkerMore.
Local Close Scope N_scope.

Lemma checkOffs_quiet s s' : Quiet s s' -> checkOffs (out s') = checkOffs (out s).
Proof.
  intros [_ _ _ _ [l [-> Hl]] _ _]. rewrite checkOffs_app.
  unfold checkOffs at 2. rewrite (filter_none _ _ Hl). cbn. lia.
Qed.

Lemma quiet_react_BuildFinished env : quiet (react env BuildFinished).
Proof.
  cbn [react]. apply quiet_bind; [apply quiet_console|]. intros _.
  apply (quiet_write_encode x80 None None). discriminate.
Qed.

(** The promise jobs write no check-off frame when no countdown waits. *)
Lemma settle_no_off env pending : forall done s,
  Forall (fun a => isOff a = true -> all_state a <> Pending) pending ->
  checkOffs (out (settle env pending done s)) = checkOffs (out s).
Proof.
  induction pending as [|a rest IH]; intros done s Hall; cbn [settle]; [reflexivity|].
  apply Forall_cons in Hall as [Ha Hrest].
  destruct (all_state a) eqn:Hstate; try (now apply IH).
  destruct (allOf (promises s) (deps a)); try (now apply IH).
  rewrite IH by exact Hrest.
  destruct (reaction a) eqn:Hr.
  - exfalso. apply Ha; [|reflexivity]. unfold isOff. now rewrite Hr.
  - apply checkOffs_quiet, Quiet_swallow, quiet_react_BuildFinished.
Qed.

Section StalledInvariant.
Variable env : Env.
Variable offs0 : nat.

Lemma Stalled_quiet s s' : Stalled offs0 s -> Quiet s s' -> Stalled offs0 s'.
Proof.
  intros [Hc Ho Ha] Hq. pose proof (checkOffs_quiet _ _ Hq) as Hcount.
  destruct Hq as [Hchecked _ _ [l [Hl Hoff]] _ _ _].
  constructor.
  - now rewrite Hchecked.
  - congruence.
  - rewrite Hl. apply Forall_app. split; [exact Ha|].
    eapply Forall_impl; [exact Hoff|]. intros a H. congruence.
Qed.

Lemma Stalled_checked : preserves (Stalled offs0) checked_.
Proof.
  intros s [Hc Ho Ha]. unfold checked_, bind, get.
  destruct (checked (socket s)) as [total|] eqn:E.
  2:{ constructor; [now rewrite E | exact Ho | exact Ha]. }
  cbn [modify]. destruct total as [z|]; cbn [decrement neverZero] in *.
  - destruct (z - 1)%Z eqn:Ez; try lia.
    constructor; cbn; [lia | exact Ho | exact Ha].
  - constructor; cbn; [exact I | exact Ho | exact Ha].
Qed.

Lemma Stalled_settle s : Stalled offs0 s -> Stalled offs0 (settle env (alls s) [] s).
Proof.
  intros [Hc Ho Ha]. constructor.
  - now rewrite (proj1 (settle_frame env (alls s) [] s)).
  - now rewrite settle_no_off.
  - now apply settle_olds.
Qed.

Lemma Stalled_crash s : Stalled offs0 s -> Stalled offs0 (crash s).
Proof. intros [Hc Ho Ha]. now constructor. Qed.

Lemma Stalled_init info : preserves (Stalled offs0) (init env info).
Proof.
  unfold init. apply preserves_bind.
  - intros s [Hc Ho Ha]. cbn [modify]. now constructor.
  - intros _. apply (preserves_quiet _ Stalled_quiet).
    apply quiet_bind; [|intros _; apply quiet_console].
    apply (quiet_write_encode xff None None). discriminate.
Qed.

End StalledInvariant.

(** *** The socket as reassembly area *)

Lemma init_zone env info s :
  match init env info s with
  | Return _ s' | Throw s' => zone (socket s') = {| cache := Some [] |}
  end.
Proof.
  unfold init, bind. cbn [modify].
  match goal with |- context [write ?d ?s1] =>
    pose proof (write_frame d s1) as Hw; destruct (write d s1) as [[] s2|s2] end.
  - pose proof (console_frame env ConnectionInitialized s2) as Hc.
    destruct (console_ env _ s2) as [[] s3|s3];
      destruct Hc as [-> _]; destruct Hw as [-> _]; reflexivity.
  - destruct Hw as [-> _]. reflexivity.
Qed.

Lemma handle_init env content note info :
  parseInit env (toString env content) = Some info ->
  handle env (Some exports.CLIENT_INIT) content note = init env info.
Proof.
  intros H. unfold handle. destruct (decide _) as [_|Hne]; [|contradiction].
  now rewrite H.
Qed.

(** *** Between two callbacks the promise jobs have nothing to do *)

Lemma settle_idle env pending : forall done s,
  Forall (quiescent (promises s)) pending ->
  settle env pending done s = with_alls (fun _ => done ++ pending) s.
Proof.
  induction pending as [|a rest IH]; intros done s Hq; cbn [settle].
  - now rewrite app_nil_r.
  - apply Forall_cons in Hq as [Ha Hrest].
    replace (done ++ a :: rest) with ((done ++ [a]) ++ rest)
      by now rewrite <- app_assoc.
    destruct (all_state a) eqn:Hstate; try (now apply IH).
    rewrite (Ha Hstate). now apply IH.
Qed.

Lemma settle_settled env s :
  settled s -> forall s',
  alls s' = alls s -> promises s' = promises s ->
  settle env (alls s') [] s' = s'.
Proof.
  intros Hs s' Ha Hp. rewrite settle_idle.
  - destruct s'; cbn in *. now subst.
  - rewrite Ha, Hp. apply Forall_forall. exact Hs.
Qed.

End WorkerMoreFacts.

Section WorkerExtras.
Import Signal Worker WorkerSpec WorkerFacts WorkerMore WorkerMoreFacts.
Local Close Scope N_scope.

(** X9. A count that is zero, negative or not an integer never fires:
    after such a Number-Of-Check-Files message, when no earlier countdown
    is waiting, no check-off frame is written whatever follows, until the
    next count is announced. *)
Theorem stalled_count_never_fires env content note s0 s1 evs s :
  Forall (fun a => isOff a = true -> all_state a <> Pending) (alls s0) ->
  neverZero (toNumber env (toString env content)) ->
  step env (Receive (Some exports.CLIENT_NUMBER_OF_CHECK_FILES) content note) s0
    = Some s1 ->
  Forall (fun ev => ~ isNumberOfCheckFiles ev) evs ->
  run env evs s1 = Some s ->
  checkOffs (out s) = checkOffs (out s0).
Proof.
  intros Holds Hcount Hstep Hevs Hrun.
  assert (crashed s0 = false) as Hlive
    by (unfold step in Hstep; destruct (crashed s0); [discriminate | reflexivity]).
  rewrite step_count in Hstep by exact Hlive. injection Hstep as <-.
  apply (stalled_offs (checkOffs (out s0)) s).
  eapply (run_preserves env (Stalled (checkOffs (out s0)))
            (Stalled_quiet _) (Stalled_checked _) (Stalled_settle env _)
            (Stalled_crash _) evs); [|exact Hrun|].
  - eapply Forall_impl; [exact Hevs|]. intros ev Hev t c n -> [->| ->].
    + unfold handle. destruct (decide _) as [_|Hne]; [|contradiction].
      destruct (parseInit env (toString env c)) as [info|];
        [apply Stalled_init | intros s2 H2; exact H2].
    + exfalso. apply Hev. reflexivity.
  - apply (Stalled_settle env _
             (with_socket
                (set_checked (Some (toNumber env (toString env content)))) s0)).
    constructor; cbn; [exact Hcount | reflexivity | exact Holds].
Qed.

Lemma stalled_count_never_fires_witness :
  checkOffs (out stalled_synced) = checkOffs (out Sample.active).
Proof.
  apply (stalled_count_never_fires Sample.env (Sample.bytes "0") [] Sample.active
           stalled Sample.synced_events stalled_synced).
  - vm_compute. constructor.
  - vm_compute. discriminate.
  - vm_compute. reflexivity.
  - unfold Sample.synced_events.
    repeat (apply Forall_cons; split;
            [intros H; cbn in H; first [discriminate H | exact H]|]).
    apply Forall_nil_2.
  - vm_compute. reflexivity.
Defined.

(** X10. The reassembly buffer is a property of the socket, and [init]
    resets it after the whole chunk has been decoded: when a chunk holds
    an init frame, whatever the decoder had kept of a following frame is
    gone once the init message is handled. *)
Theorem init_clears_pending_bytes env chunk s content note z info :
  exports.decode chunk (zone (socket s)) =
    (Some [Frame (Some exports.CLIENT_INIT) content note], z) ->
  parseInit env (toString env content) = Some info ->
  zone (socket (onData env chunk s)) = {| cache := Some [] |}.
Proof.
  intros Hdecode Hinfo. unfold onData. rewrite Hdecode.
  cbn [handleEach]. unfold bind. rewrite (handle_init env content note info Hinfo).
  pose proof (init_zone env info (with_socket (set_zone z) s)) as Hzone.
  destruct (init env info (with_socket (set_zone z) s)) as [[] s'|s'];
    cbn [ret finish].
  - now rewrite (proj1 (settle_frame env (alls s') [] s')).
  - exact Hzone.
Qed.

Lemma init_clears_pending_bytes_witness :
  zone (socket (onData Sample.env
                  ([x12; x23; x33; x00; x00; x0e; x00; x10; x03; x7b; x7d; xab; xcd; xef]
                     ++ [x12; x23; x33; x00; x00])
                  freshState)) =
  {| cache := Some [] |}.
Proof.
  apply (init_clears_pending_bytes Sample.env _ freshState [x7b; x7d] []
           {| cache := Some [x12; x23; x33; x00; x00] |}
           {| info_uid := Some "u1"; info_project := Some "demo";
              info_builder := Some "sl-builder" |}).
  - vm_compute. reflexivity.
  - vm_compute. reflexivity.
Defined.

(** X12. A File-Check whose file cannot be read, or whose hash differs
    from the one sent, asks the client for the file: one file-update frame
    is written, its note being the path as the client sent it, and the
    countdown is left alone. *)
Theorem check_mismatch_requests_file env s i filepath info answer frame :
  crashed s = false ->
  settled s ->
  ops s !! i = Some (CheckRead filepath info) ->
  answer = Failed \/
    (exists file, answer = Data file /\ Js.equals info (md5 env file) = false) ->
  exports.encode exports.SERVER_FILE_UPDATE None (Some (fromString env filepath))
    = Some frame ->
  exists s',
    step env (Complete i answer) s = Some s' /\
    out s' = out s ++ [frame] /\
    typeOf frame = Some xfe /\
    checked (socket s') = checked (socket s) /\
    calls s' = calls s /\
    crashed s' = false.
Proof.
  intros Hlive Hsettled Hop Hanswer Hframe.
  pose proof (encode_typeOf xfe [] _ _ frame Hframe) as Htype.
  unfold step. rewrite Hlive, Hop.
  assert (complete env (CheckRead filepath info) answer =
            Some (write (Some frame))) as ->.
  { destruct Hanswer as [->|(file & -> & Hdiff)]; cbn [complete].
    - now rewrite Hframe.
    - now rewrite Hdiff, Hframe. }
  cbn [write modify finish].
  rewrite (settle_settled env s Hsettled) by reflexivity.
  eexists. split; [reflexivity|]. now repeat split.
Qed.

Lemma check_mismatch_requests_file_witness :
  exists s',
    step Sample.env (Complete 0 Failed) Sample.checking = Some s' /\
    out s' = out Sample.checking ++
      [ [x12; x23; x33; x00; x00; x11; xfe; x61; x2e; x74; x78; x74; x10; x03;
         xab; xcd; xef] ] /\
    typeOf [x12; x23; x33; x00; x00; x11; xfe; x61; x2e; x74; x78; x74; x10; x03;
            xab; xcd; xef] = Some xfe /\
    checked (socket s') = checked (socket Sample.checking) /\
    calls s' = calls Sample.checking /\
    crashed s' = false.
Proof.
  apply (check_mismatch_requests_file Sample.env Sample.checking 0 "a.txt"
           (md5 Sample.env (Sample.bytes "hi")) Failed).
  - vm_compute. reflexivity.
  - intros a Ha. vm_compute in Ha. now apply elem_of_nil in Ha.
  - vm_compute. reflexivity.
  - left. reflexivity.
  - vm_compute. reflexivity.
Defined.

End WorkerExtras.

(** ** More about the build *)

Module BuildMoreFacts.
Import Signal Worker WorkerSpec WorkerFacts BuildSpec BuildFacts.
Local Close Scope N_scope.

Lemma run_app env evs1 : forall evs2 s,
  run env (evs1 ++ evs2) s =
    match run env evs1 s with
    | Some s' => run env evs2 s'
    | None => None
    end.
Proof.
  induction evs1 as [|ev evs1 IH]; intros evs2 s; [reflexivity|].
  cbn [app run]. destruct (step env ev s); [apply IH | reflexivity].
Qed.

Lemma reads_lookup root buildPath fs : forall start i,
  i < length fs ->
  exists filepath,
    reads root buildPath fs start !! i =
      Some (BuildRead root buildPath filepath (start + i)).
Proof.
  unfold reads. induction fs as [|f fs IH]; intros start i Hi; [cbn in Hi; lia|].
  destruct i as [|i]; cbn.
  - exists f. now rewrite Nat.add_0_r.
  - cbn in Hi. destruct (IH (S start) i ltac:(lia)) as [g Hg].
    exists g. replace (start + S i) with (S start + i) by lia. exact Hg.
Qed.

Lemma settle_nonpending env l :
  Forall (fun a => all_state a <> Pending) l ->
  forall s, settle env l [] s = with_alls (fun _ => l) s.
Proof.
  intros Hl s. pose proof (settle_passed env l Hl [] [] s) as H.
  rewrite app_nil_r in H. exact H.
Qed.

(** The state in which the reads of a build are in flight. *)
Lemma build_reading env files u project b request note waiting s0 :
  crashed s0 = false ->
  uid (socket s0) = Some u ->
  Worker.project (socket s0) = Some project ->
  builder (socket s0) = Some b ->
  loadable env b = true ->
  console (socket s0) = true ->
  ops s0 = [] ->
  Forall (fun a => all_state a <> Pending) (alls s0) ->
  consoleFrame env WaitingForSync = Some waiting ->
  files <> [] ->
  exists s1,
    run env (building files request note) s0 = Some s1 /\
    crashed s1 = false /\
    socket s1 = socket s0 /\
    out s1 = out s0 ++ [waiting] /\
    promises s1 = promises s0 ++ replicate (length files) Pending /\
    ops s1 = reads (resolve env u project "")
               (path_join env (resolve env u project "") "dist")
               files (length (promises s0)).
Proof.
  intros Hlive Hu Hp Hb Hl Hcons Hops Halls Hwait Hfiles.
  unfold building. cbn [run]. unfold step at 1.
  rewrite Hlive, handle_build, (build_starts env u project b s0 Hu Hp Hb Hl).
  cbn [finish].
  change (alls (with_ops _ s0)) with (alls s0).
  rewrite (settle_nonpending env (alls s0) Halls).
  unfold step.
  change (crashed (with_alls _ (with_ops _ s0))) with (crashed s0). rewrite Hlive.
  change (ops (with_alls _ (with_ops ?f s0))) with (f (ops s0)).
  cbv beta. rewrite Hops. cbn [app lookup list_lookup complete].
  unfold catch, built, bind.
  match goal with
  | |- context [console_ env WaitingForSync ?st] =>
      rewrite (console_written env WaitingForSync st waiting Hcons Hwait)
  end.
  rewrite readEach_spec. unfold modify. cbn [finish].
  change (length (promises (with_out _ (with_ops _ (with_alls _ (with_ops _ s0))))))
    with (length (promises s0)).
  match goal with
  | |- context [settle env (alls ?st) [] ?st] => set (s3 := st)
  end.
  assert (ops s3 = reads (resolve env u project "")
                     (path_join env (resolve env u project "") "dist")
                     files (length (promises s0))) as Hops3.
  { subst s3. unfold with_alls, with_ops, with_promises, with_out. cbn [ops].
    now rewrite Hops. }
  assert (promises s3 = promises s0 ++ replicate (length files) Pending) as Hprom3
    by reflexivity.
  assert (alls s3 = alls s0 ++
            [ {| deps := seq (length (promises s0)) (length files);
                 reaction := BuildFinished; all_state := Pending |} ]) as Halls3
    by reflexivity.
  assert (socket s3 = socket s0) as Hsock3 by reflexivity.
  assert (crashed s3 = false) as Hlive3 by exact Hlive.
  assert (out s3 = out s0 ++ [waiting]) as Hout3 by reflexivity.
  clearbody s3. eexists. split; [reflexivity|].
  rewrite Halls3, (settle_passed env (alls s0) Halls).
  cbn [settle all_state deps reaction].
  assert (allOf (promises s3) (seq (length (promises s0)) (length files)) = Pending)
    as ->.
  { assert (forall x, x ∈ seq (length (promises s0)) (length files) ->
                      promises s3 !! x = Some Pending) as Hpending.
    { intros x Hx. apply elem_of_seq in Hx.
      rewrite Hprom3, lookup_app_r by lia. apply lookup_replicate_2. lia. }
    apply (allOf_pending _ _ (length (promises s0))).
    - intros x Hx. unfold rejected. now rewrite (Hpending x Hx).
    - apply elem_of_seq. destruct files; [contradiction | cbn; lia].
    - apply Hpending, elem_of_seq. destruct files; [contradiction | cbn; lia]. }
  cbn [settle]. repeat split; assumption.
Qed.

End BuildMoreFacts.

Section BuildExtras.
Import Signal Worker WorkerSpec WorkerFacts BuildSpec BuildFacts BuildMoreFacts.
Local Close Scope N_scope.

(** X11. A build on a session that was never sent a hash set ends the
    process: the first file read that completes looks the hash up in an
    undefined [socket.distIgnore], which throws in the callback of
    [fs.readFile].  Only the waiting notice has been written by then. *)
Theorem build_without_hash_set_crashes env files u project b request note waiting
    s0 i data :
  crashed s0 = false ->
  uid (socket s0) = Some u ->
  Worker.project (socket s0) = Some project ->
  builder (socket s0) = Some b ->
  loadable env b = true ->
  console (socket s0) = true ->
  distIgnore (socket s0) = None ->
  ops s0 = [] ->
  Forall (fun a => all_state a <> Pending) (alls s0) ->
  consoleFrame env WaitingForSync = Some waiting ->
  i < length files ->
  exists s,
    run env (building files request note ++ [Complete i (Data data)]) s0 = Some s /\
    crashed s = true /\
    out s = out s0 ++ [waiting].
Proof.
  intros Hlive Hu Hp Hb Hl Hcons Hign Hops Halls Hwait Hi.
  destruct (build_reading env files u project b request note waiting s0
              Hlive Hu Hp Hb Hl Hcons Hops Halls Hwait)
    as (s1 & Hrun & Hlive1 & Hsock1 & Hout1 & _ & Hops1);
    [intros ->; cbn in Hi; lia|].
  destruct (reads_lookup (resolve env u project "")
              (path_join env (resolve env u project "") "dist")
              files (length (promises s0)) i Hi) as [filepath Hop].
  rewrite <- Hops1 in Hop.
  rewrite run_app, Hrun. cbn [run]. unfold step. rewrite Hlive1, Hop.
  cbn [complete]. unfold buildFile, bind, get. cbv beta iota.
  change (socket (with_ops (delete i) s1)) with (socket s1).
  rewrite Hsock1, Hign. cbn [throw finish].
  eexists. split; [reflexivity|]. split; [reflexivity | exact Hout1].
Qed.

Lemma build_without_hash_set_crashes_witness :
  exists s,
    run Sample.env
      (building BuildSample.files [] [] ++
         [Complete 1 (Data (BuildSample.content "/srv/u1/demo/dist/b.js"))])
      Sample.active = Some s /\
    crashed s = true /\
    out s = out Sample.active ++ [BuildSample.waiting].
Proof.
  apply (build_without_hash_set_crashes Sample.env BuildSample.files
           "u1" "demo" "sl-builder" [] [] BuildSample.waiting Sample.active 1).
  - vm_compute. reflexivity.
  - vm_compute. reflexivity.
  - vm_compute. reflexivity.
  - vm_compute. reflexivity.
  - vm_compute. reflexivity.
  - vm_compute. reflexivity.
  - vm_compute. reflexivity.
  - vm_compute. reflexivity.
  - vm_compute. constructor.
  - vm_compute. reflexivity.
  - vm_compute. lia.
Defined.

End BuildExtras.

(** ** More about the directory check *)

Module UtilsMoreFacts.
Import Utils UtilsSpec UtilsFacts UtilsMore.
Local Close Scope N_scope.

(** *** The segments of a path *)

Lemma hasSeparator_app a b :
  hasSeparator (a +:+ b) = hasSeparator a || hasSeparator b.
Proof.
  induction a as [|c a IH]; [reflexivity|].
  rewrite str_app_cons. cbn [hasSeparator]. now rewrite IH, orb_assoc.
Qed.

Lemma splitOn_clean text : forall run piece,
  hasSeparator piece = false ->
  Forall (fun segment => hasSeparator segment = false)
         (splitOn isSeparator text run piece).
Proof.
  induction text as [|c text IH]; intros run piece Hpiece; cbn [splitOn].
  - now repeat constructor.
  - destruct (isSeparator c) eqn:Hc.
    + destruct run as [r|]; [destruct (Ascii.eqb r c)|];
        try (constructor; [exact Hpiece|]); now apply IH.
    + apply IH. rewrite hasSeparator_app, Hpiece. cbn. now rewrite Hc.
Qed.

(** *** What the directory check leaves as it is *)

Lemma mkdir_keeps p w :
  (forall loc n, nodes w !! loc = Some n -> nodes (mkdir p w).2 !! loc = Some n) /\
  (forall loc n, nodes (mkdir p w).2 !! loc = Some n ->
                 nodes w !! loc = Some n \/ (nodes w !! loc = None /\ n = Dir)).
Proof.
  unfold mkdir. cbv zeta.
  destruct (last (names p)) as [name|]; [|now split; auto].
  destruct (walk _ _ _) as [e|dir]; [now split; auto|].
  destruct (special name); [now split; auto|].
  destruct (nodes (logged p w) !! (dir ++ [name])) as [n0|] eqn:E; [now split; auto|].
  change (nodes (logged p w)) with (nodes w) in E.
  cbn [snd]. change (nodes (with_nodes _ (logged p w)))
    with (<[dir ++ [name] := Dir]> (nodes w)).
  split; intros loc n H.
  - rewrite lookup_insert_ne; [exact H|]. intros <-. congruence.
  - destruct (decide (dir ++ [name] = loc)) as [<-|Hne].
    + rewrite lookup_insert_eq in H. injection H as <-. now right.
    + rewrite lookup_insert_ne in H by exact Hne. now left.
Qed.

Lemma checkAndCreate_keeps fuel : forall dirs w r w',
  checkAndCreate fuel dirs w = Some (r, w') ->
  (forall loc n, nodes w !! loc = Some n -> nodes w' !! loc = Some n) /\
  (forall loc n, nodes w' !! loc = Some n ->
                 nodes w !! loc = Some n \/ (nodes w !! loc = None /\ n = Dir)).
Proof.
  induction fuel as [|fuel IH]; intros dirs w r w' H; [discriminate|].
  cbn [checkAndCreate] in H.
  destruct (mkdir_keeps (join dirs) w) as [Hkeep Hnew].
  destruct (mkdir (join dirs) w) as [[e|] w1]; cbn [snd] in Hkeep, Hnew.
  2:{ injection H as <- <-. now split. }
  destruct e; try (injection H as <- <-; now split).
  destruct (checkAndCreate fuel (removelast dirs) w1) as [[r1 w2]|] eqn:E1; [|discriminate].
  destruct (IH _ _ _ _ E1) as [Hkeep1 Hnew1].
  destruct (IH _ _ _ _ H) as [Hkeep2 Hnew2].
  split.
  - intros loc n Hn. auto.
  - intros loc n Hn.
    destruct (Hnew2 loc n Hn) as [H2|[H2 ->]].
    + destruct (Hnew1 loc n H2) as [H1|[H1 ->]]; [now apply Hnew|].
      destruct (nodes w !! loc) as [n0|] eqn:E0; [|now right].
      rewrite (Hkeep loc n0 E0) in H1. discriminate.
    + destruct (nodes w !! loc) as [n0|] eqn:E0; [|now right].
      rewrite (Hkeep1 loc n0 (Hkeep loc n0 E0)) in H2. discriminate.
Qed.

(** *** Walking down plain names *)

Lemma walk_plain_inr m rest : forall at_ dir,
  Forall plain rest ->
  walk m at_ rest = inr dir ->
  dir = at_ ++ rest /\
  forall k, 1 <= k <= length rest -> m !! (at_ ++ take k rest) = Some Dir.
Proof.
  induction rest as [|name rest IH]; intros at_ dir Hplain H; cbn [walk] in H.
  - injection H as <-. split; [now rewrite app_nil_r | cbn; lia].
  - apply Forall_cons in Hplain as [Hname Hrest].
    destruct (plain_names name Hname) as [E1 E2]. rewrite E1, E2 in H.
    destruct (m !! (at_ ++ [name])) as [[|c]|] eqn:E; try discriminate.
    destruct (IH _ _ Hrest H) as [-> Hdirs].
    split; [now rewrite <- app_assoc|].
    intros [|[|k]] Hk; [lia | exact E |].
    cbn [take]. cbn [length] in Hk.
    replace (at_ ++ name :: take (S k) rest) with ((at_ ++ [name]) ++ take (S k) rest)
      by now rewrite <- app_assoc.
    apply Hdirs. lia.
Qed.

Lemma walk_plain_blocked m rest : forall at_ e,
  Forall plain rest ->
  walk m at_ rest = inl e ->
  e = ENOENT \/
  exists k content, k <= length rest /\ m !! (at_ ++ take k rest) = Some (File content).
Proof.
  induction rest as [|name rest IH]; intros at_ e Hplain H; cbn [walk] in H;
    [discriminate|].
  apply Forall_cons in Hplain as [Hname Hrest].
  destruct (plain_names name Hname) as [E1 E2]. rewrite E1, E2 in H.
  destruct (m !! (at_ ++ [name])) as [[|c]|] eqn:E.
  - destruct (IH _ _ Hrest H) as [->|(k & c & Hk & Hfile)]; [now left|].
    right. exists (S k), c. split; [cbn; lia|].
    cbn [take]. now rewrite <- app_assoc in Hfile.
  - right. exists 1, c. split; [cbn; lia | exact E].
  - injection H as <-. now left.
Qed.

Lemma mkdir_enoent p w :
  walk (nodes w) (origin w p) (removelast (names p)) = inl ENOENT ->
  (mkdir p w).1 = Some ENOENT.
Proof.
  intros H. unfold mkdir. cbv zeta.
  change (nodes (logged p w)) with (nodes w).
  change (origin (logged p w) p) with (origin w p).
  destruct (last (names p)) as [name|] eqn:E.
  - now rewrite H.
  - apply last_None in E. rewrite E in H. discriminate.
Qed.

Lemma clearWay_prefix w names more : clearWay w (names ++ more) -> clearWay w names.
Proof.
  intros H k c Hk. rewrite <- (take_app_le names more) by exact Hk.
  apply H. rewrite length_app. lia.
Qed.

(** *** The directory check where all the directories above exist *)

Lemma checkAndCreate_reached fuel dirs w :
  Forall plain dirs ->
  clearWay w (List.filter nonempty dirs) ->
  walk (nodes w) (cwd w) (removelast (List.filter nonempty dirs)) <> inl ENOENT ->
  exists w',
    checkAndCreate (S fuel) dirs w = Some (None, w') /\
    cwd w' = cwd w /\
    walk (nodes w') (cwd w) (List.filter nonempty dirs)
      = inr (cwd w ++ List.filter nonempty dirs) /\
    (forall loc,
       (forall k, k <= length (List.filter nonempty dirs) ->
                  loc <> cwd w ++ take k (List.filter nonempty dirs)) ->
       nodes w' !! loc = nodes w !! loc).
Proof.
  intros Hplain Hclear Hwalk.
  pose proof (filter_plain dirs Hplain) as Hnames.
  cbn [checkAndCreate]. unfold mkdir. cbv zeta.
  rewrite join_plain by exact Hplain.
  change (nodes (logged (join dirs) w)) with (nodes w).
  change (origin (logged (join dirs) w) (join dirs)) with (cwd w).
  destruct (last (List.filter nonempty dirs)) as [name|] eqn:Hlast.
  2:{ apply last_None in Hlast. rewrite Hlast. eexists. split; [reflexivity|].
      split; [reflexivity|]. split; [cbn; now rewrite app_nil_r | reflexivity]. }
  apply last_Some in Hlast as [init Hinit]. rewrite Hinit in *.
  rewrite removelast_last in *.
  apply Forall_app in Hnames as [Hinit_plain Hname].
  apply Forall_cons in Hname as [Hname _].
  destruct (walk (nodes w) (cwd w) init) as [e|dir] eqn:Hdown.
  { exfalso. destruct (walk_plain_blocked _ _ _ _ Hinit_plain Hdown)
      as [->|(k & c & Hk & Hfile)]; [now apply Hwalk|].
    apply (Hclear k c); [rewrite length_app; lia|].
    now rewrite take_app_le by exact Hk. }
  destruct (walk_plain_inr _ _ _ _ Hinit_plain Hdown) as [-> _].
  rewrite Hname.
  assert (forall m : gmap (list string) Node,
            walk m (cwd w) init = inr (cwd w ++ init) ->
            m !! ((cwd w ++ init) ++ [name]) = Some Dir ->
            walk m (cwd w) (init ++ [name]) = inr (cwd w ++ init ++ [name])) as Hfull.
  { intros m Hm Hdir. rewrite walk_app, Hm. cbn [walk].
    destruct (plain_names name Hname) as [-> ->]. rewrite Hdir.
    now rewrite <- app_assoc. }
  destruct (nodes w !! ((cwd w ++ init) ++ [name])) as [[|c]|] eqn:Hnode.
  - eexists. split; [reflexivity|]. split; [reflexivity|].
    split; [now apply Hfull | reflexivity].
  - exfalso. apply (Hclear (length (init ++ [name])) c); [lia|].
    now rewrite firstn_all, app_assoc.
  - eexists. split; [reflexivity|]. split; [reflexivity|]. split.
    + apply Hfull; [now apply walk_insert | apply lookup_insert_eq].
    + intros loc Hloc. apply lookup_insert_ne. intros <-.
      apply (Hloc (length (init ++ [name]))); [lia|].
      now rewrite firstn_all, app_assoc.
Qed.

Lemma clearWay_kept w w' names :
  cwd w' = cwd w ->
  (forall loc n, nodes w' !! loc = Some n ->
                 nodes w !! loc = Some n \/ (nodes w !! loc = None /\ n = Dir)) ->
  clearWay w names -> clearWay w' names.
Proof.
  intros Hcwd Hnew Hclear k c Hk Hfile. rewrite Hcwd in Hfile.
  destruct (Hnew _ _ Hfile) as [H|[_ H]]; [|discriminate].
  exact (Hclear k c Hk H).
Qed.

(** With no regular file in the way, the directory check makes every
    directory that is missing and changes nothing else. *)
Lemma checkAndCreate_clear fuel : forall dirs w,
  Forall plain dirs ->
  length dirs < fuel ->
  clearWay w (List.filter nonempty dirs) ->
  exists w',
    checkAndCreate fuel dirs w = Some (None, w') /\
    cwd w' = cwd w /\
    walk (nodes w') (cwd w) (List.filter nonempty dirs)
      = inr (cwd w ++ List.filter nonempty dirs) /\
    (forall loc,
       (forall k, k <= length (List.filter nonempty dirs) ->
                  loc <> cwd w ++ take k (List.filter nonempty dirs)) ->
       nodes w' !! loc = nodes w !! loc).
Proof.
  induction fuel as [|fuel IH]; intros dirs w Hplain Hfuel Hclear; [lia|].
  destruct (walk (nodes w) (cwd w) (removelast (List.filter nonempty dirs)))
    as [e|dir] eqn:Hwalk.
  2:{ apply checkAndCreate_reached; try assumption. now rewrite Hwalk. }
  destruct e; try (apply checkAndCreate_reached; try assumption; now rewrite Hwalk).
  assert ((mkdir (join dirs) w).1 = Some ENOENT) as Hmiss.
  { apply mkdir_enoent. rewrite join_plain by exact Hplain. exact Hwalk. }
  destruct (mkdir_missing _ _ Hmiss) as [Hnodes _].
  destruct (mkdir_made (join dirs) w) as [_ Hcwd].
  destruct dirs as [|d dirs' _] using rev_ind; [discriminate|].
  rewrite length_app in Hfuel. cbn [length] in Hfuel.
  apply Forall_app in Hplain as [Hplain' Hd].
  destruct fuel as [|fuel']; [lia|].
  rewrite (checkAndCreate_missing _ _ _ Hmiss), removelast_last.
  destruct (mkdir (join (dirs' ++ [d])) w) as [r0 w1]; cbn [fst snd] in *. subst r0.
  rewrite List.filter_app in *.
  assert (clearWay w1 (List.filter nonempty dirs')) as Hclear1.
  { apply clearWay_prefix in Hclear. intros k c Hk. rewrite Hcwd, Hnodes.
    now apply Hclear. }
  destruct (IH dirs' w1 Hplain' ltac:(lia) Hclear1)
    as (w2 & E1 & Hcwd2 & Hwalk2 & Hsame2).
  rewrite E1.
  destruct (checkAndCreate_keeps _ _ _ _ _ E1) as [_ Hnew2].
  assert (clearWay w2 (List.filter nonempty (dirs' ++ [d]))) as Hclear2.
  { rewrite List.filter_app.
    apply (clearWay_kept w w2); [congruence | | exact Hclear].
    intros loc n Hn. rewrite <- Hnodes. now apply Hnew2. }
  destruct (checkAndCreate_reached fuel' (dirs' ++ [d]) w2)
    as (w' & E & Hcwd' & Hwalk' & Hsame').
  - apply Forall_app. now split.
  - exact Hclear2.
  - rewrite List.filter_app, Hcwd2, Hcwd. cbn [List.filter].
    destruct (nonempty d).
    + rewrite removelast_last, <- Hcwd, Hwalk2. discriminate.
    + rewrite app_nil_r. intros Eno. apply walk_removelast in Eno.
      rewrite <- Hcwd, Hwalk2 in Eno. discriminate.
  - exists w'. rewrite List.filter_app in *. rewrite Hcwd2, Hcwd in *.
    split; [exact E|]. split; [congruence|]. split; [exact Hwalk'|].
    intros loc Hloc. rewrite Hsame' by exact Hloc. rewrite <- Hnodes.
    apply Hsame2. intros k Hk.
    rewrite <- (take_app_le _ (List.filter nonempty [d])) by exact Hk.
    apply Hloc. rewrite length_app. lia.
Qed.

Lemma nonempty_dotted name : hasDot name = true -> nonempty name = true.
Proof. now destruct name. Qed.

(** A walk ends with [ENOENT] at the first name that is missing. *)
Lemma walk_enoent m rest : forall j at_,
  Forall plain rest ->
  j < length rest ->
  (forall i, 1 <= i <= j -> m !! (at_ ++ take i rest) = Some Dir) ->
  m !! (at_ ++ take (S j) rest) = None ->
  walk m at_ rest = inl ENOENT.
Proof.
  induction rest as [|name rest IH]; intros j at_ Hplain Hj Habove Hmiss;
    [cbn in Hj; lia|].
  apply Forall_cons in Hplain as [Hname Hrest]. cbn [length] in Hj.
  cbn [walk]. destruct (plain_names name Hname) as [-> ->].
  assert (take 1 (name :: rest) = [name]) as Hone by (cbn; now rewrite take_0).
  destruct j as [|j].
  - rewrite Hone in Hmiss. now rewrite Hmiss.
  - pose proof (Habove 1 ltac:(lia)) as Hfirst. rewrite Hone in Hfirst.
    rewrite Hfirst.
    apply (IH j); [exact Hrest | lia | |].
    + intros i Hi. rewrite <- app_assoc. apply (Habove (S i)). lia.
    + now rewrite <- app_assoc.
Qed.

End UtilsMoreFacts.

Section UtilsExtras.
Import Utils UtilsSpec UtilsFacts UtilsMore UtilsMoreFacts.
Local Close Scope N_scope.

(** X13. No segment that [dirCheck] obtains from a path holds a slash
    or a backslash, so joining segments never makes more names than
    segments. *)
Theorem segments_hold_no_separator checkpath :
  Forall (fun segment => hasSeparator segment = false) (split checkpath).
Proof. apply splitOn_clean. reflexivity. Qed.

(** X14. The directory check never removes or replaces what is on the
    disk: whatever it answers, every node that was there is still there,
    and every node that is new is a directory; the working directory is
    the same. *)
Theorem dirCheck_only_adds_directories fuel checkpath w r w' :
  dirCheck fuel checkpath w = Some (r, w') ->
  cwd w' = cwd w /\
  (forall loc n, nodes w !! loc = Some n -> nodes w' !! loc = Some n) /\
  (forall loc n, nodes w' !! loc = Some n ->
                 nodes w !! loc = Some n \/ (nodes w !! loc = None /\ n = Dir)).
Proof.
  unfold dirCheck. intros H. split.
  - exact (proj1 (checkAndCreate_made _ _ _ _ _ H)).
  - exact (checkAndCreate_keeps _ _ _ _ _ H).
Qed.

Lemma dirCheck_only_adds_directories_witness :
  nodes grown !! ["srv"; "u1"; "demo"; "Makefile"] = Some (File (Sample.bytes "all:")).
Proof.
  assert (dirCheck 4 "/srv/u1/demo/src/lib/a.txt" project = Some (None, grown)) as Hrun
    by (vm_compute; reflexivity).
  apply (proj1 (proj2 (dirCheck_only_adds_directories 4 "/srv/u1/demo/src/lib/a.txt"
                         project None grown Hrun))).
  reflexivity.
Defined.

(** X15. Covering a file whose name holds a dot, on a path of plain
    segments without backslashes that is relative or read from the root:
    when no regular file is in the way and no directory is where the file
    goes, the directories above are made where missing, the file is written
    with the content given, and nothing else on the disk changes. *)
Theorem fileCover_makes_directories_and_writes checkpath content w name :
  hasBackslash checkpath = false ->
  Forall plain (split checkpath) ->
  cwd w = [] \/ absolute (parse checkpath) = false ->
  last (split checkpath) = Some name ->
  hasDot name = true ->
  clearWay w (parents checkpath) ->
  nodes w !! (cwd w ++ parents checkpath ++ [name]) <> Some Dir ->
  exists w',
    fileCover (S (length (split checkpath))) checkpath content w
      = Some (FileWritten, w') /\
    nodes w' !! (cwd w ++ parents checkpath ++ [name]) = Some (File content) /\
    (forall k, 1 <= k <= length (parents checkpath) ->
               nodes w' !! (cwd w ++ take k (parents checkpath)) = Some Dir) /\
    (forall loc n, nodes w !! loc = Some n ->
                   loc <> cwd w ++ parents checkpath ++ [name] ->
                   nodes w' !! loc = Some n).
Proof.
  intros Hback Hplain Hfrom Hlast Hdot Hclear Hfree.
  pose proof Hlast as Hsegs. apply last_Some in Hsegs as [above Habove].
  assert (lastHasDot checkpath = true) as Hdotted
    by (unfold lastHasDot; now rewrite Hlast).
  destruct (directories_dotted checkpath Hdotted) as [Hdirs _].
  assert (removelast (split checkpath) = above) as Hremove
    by (rewrite Habove; apply removelast_last).
  unfold parents in *. rewrite Hremove in *.
  assert (Forall plain above /\ plain name) as [Habove_plain Hname].
  { rewrite Habove in Hplain. apply Forall_app in Hplain as [H1 H2].
    apply Forall_cons in H2 as [H2 _]. now split. }
  destruct (checkAndCreate_clear (S (length (split checkpath))) above w Habove_plain)
    as (w1 & Hcheck & Hcwd1 & Hwalk1 & Hsame1);
    [rewrite Habove, length_app; cbn [length]; lia | exact Hclear |].
  destruct (checkAndCreate_keeps _ _ _ _ _ Hcheck) as [Hkeep1 _].
  destruct (walk_plain_inr _ _ _ _ (filter_plain _ Habove_plain) Hwalk1) as [_ Hdirs1].
  assert (names (parse checkpath) = List.filter nonempty above ++ [name]) as Hnames.
  { unfold parse. cbn [names]. rewrite <- splitOn_slash by exact Hback.
    fold (split checkpath). rewrite Habove, List.filter_app. cbn [List.filter].
    now rewrite (nonempty_dotted name Hdot). }
  assert (origin w1 (parse checkpath) = cwd w) as Horigin.
  { unfold origin. rewrite Hcwd1. destruct Hfrom as [->| ->];
      [now destruct (absolute _) | reflexivity]. }
  assert (forall k, k <= length (List.filter nonempty above) ->
            cwd w ++ List.filter nonempty above ++ [name]
              <> cwd w ++ take k (List.filter nonempty above)) as Hapart.
  { intros k Hk E. apply (f_equal length) in E.
    rewrite !length_app, length_take in E. cbn [length] in E. lia. }
  assert (nodes w1 !! (cwd w ++ List.filter nonempty above ++ [name]) <> Some Dir)
    as Hfree1 by (rewrite Hsame1 by exact Hapart; exact Hfree).
  assert (writeFile (parse checkpath) content w1 =
            (None, with_nodes
                     (insert (cwd w ++ List.filter nonempty above ++ [name])
                             (File content)) w1)) as Hwrite.
  { unfold writeFile. rewrite Hnames, last_snoc, removelast_last, Horigin, Hwalk1.
    rewrite Hname, <- app_assoc.
    destruct (nodes w1 !! (cwd w ++ List.filter nonempty above ++ [name]))
      as [[|c]|]; [contradiction | reflexivity | reflexivity]. }
  eexists. split.
  - unfold fileCover, dirCheck. now rewrite Hdirs, Hcheck, Hwrite.
  - cbn [nodes with_nodes]. split; [apply lookup_insert_eq|]. split.
    + intros k Hk. rewrite lookup_insert_ne by (apply Hapart; lia).
      now apply Hdirs1.
    + intros loc n Hn Hloc. rewrite lookup_insert_ne by congruence.
      now apply Hkeep1.
Qed.

Lemma fileCover_makes_directories_and_writes_witness :
  exists w',
    fileCover 6 "/srv/u1/demo/src/a.txt" (Sample.bytes "hi") project
      = Some (FileWritten, w') /\
    nodes w' !! ["srv"; "u1"; "demo"; "src"; "a.txt"] = Some (File (Sample.bytes "hi")) /\
    nodes w' !! ["srv"; "u1"; "demo"; "src"] = Some Dir /\
    nodes w' !! ["srv"; "u1"; "demo"; "Makefile"] = Some (File (Sample.bytes "all:")).
Proof.
  assert (split "/srv/u1/demo/src/a.txt" = [""; "srv"; "u1"; "demo"; "src"; "a.txt"])
    as Hsplit by (vm_compute; reflexivity).
  assert (parents "/srv/u1/demo/src/a.txt" = ["srv"; "u1"; "demo"; "src"])
    as Hparents by (vm_compute; reflexivity).
  destruct (fileCover_makes_directories_and_writes "/srv/u1/demo/src/a.txt"
              (Sample.bytes "hi") project "a.txt")
    as (w' & Hcover & Hfile & Hdirs & Hkept).
  - vm_compute. reflexivity.
  - rewrite Hsplit. repeat (apply Forall_cons; split; [reflexivity|]).
    apply Forall_nil_2.
  - left. reflexivity.
  - rewrite Hsplit. reflexivity.
  - vm_compute. reflexivity.
  - rewrite Hparents. intros k c Hk. cbn [length] in Hk.
    do 5 (destruct k as [|k]; [vm_compute; discriminate|]). lia.
  - rewrite Hparents. vm_compute. discriminate.
  - rewrite Hsplit, Hparents in *. exists w'.
    split; [exact Hcover|]. split; [exact Hfile|]. split.
    + apply (Hdirs 4). cbn [length]. lia.
    + apply Hkept; [vm_compute; reflexivity | discriminate].
Defined.

(** X16. The worker always gives an absolute path, and the directory
    check loses the leading slash when it joins the segments: the
    directories are made below the working directory.  So when a directory
    above the file is missing at the absolute place and is not one of those
    made, the check succeeds and the write that follows fails with
    [ENOENT]. *)
Theorem absolute_path_directories_go_below_cwd checkpath content w name j :
  hasBackslash checkpath = false ->
  Forall plain (split checkpath) ->
  absolute (parse checkpath) = true ->
  last (split checkpath) = Some name ->
  hasDot name = true ->
  clearWay w (parents checkpath) ->
  j < length (parents checkpath) ->
  (forall i, 1 <= i <= j -> nodes w !! take i (parents checkpath) = Some Dir) ->
  nodes w !! take (S j) (parents checkpath) = None ->
  (forall k, k <= length (parents checkpath) ->
             take (S j) (parents checkpath) <> cwd w ++ take k (parents checkpath)) ->
  exists w',
    fileCover (S (length (split checkpath))) checkpath content w
      = Some (FileWriteFailed ENOENT, w') /\
    (forall k, 1 <= k <= length (parents checkpath) ->
               nodes w' !! (cwd w ++ take k (parents checkpath)) = Some Dir).
Proof.
  intros Hback Hplain Habsolute Hlast Hdot Hclear Hj Habove Hmissing Hapart.
  pose proof Hlast as Hsegs. apply last_Some in Hsegs as [above Habove_eq].
  assert (lastHasDot checkpath = true) as Hdotted
    by (unfold lastHasDot; now rewrite Hlast).
  destruct (directories_dotted checkpath Hdotted) as [Hdirs _].
  assert (removelast (split checkpath) = above) as Hremove
    by (rewrite Habove_eq; apply removelast_last).
  unfold parents in *. rewrite Hremove in *.
  assert (Forall plain above) as Habove_plain.
  { rewrite Habove_eq in Hplain. now apply Forall_app in Hplain as [H1 _]. }
  destruct (checkAndCreate_clear (S (length (split checkpath))) above w Habove_plain)
    as (w1 & Hcheck & Hcwd1 & Hwalk1 & Hsame1);
    [rewrite Habove_eq, length_app; cbn [length]; lia | exact Hclear |].
  destruct (checkAndCreate_keeps _ _ _ _ _ Hcheck) as [Hkeep1 _].
  destruct (walk_plain_inr _ _ _ _ (filter_plain _ Habove_plain) Hwalk1) as [_ Hdirs1].
  assert (names (parse checkpath) = List.filter nonempty above ++ [name]) as Hnames.
  { unfold parse. cbn [names]. rewrite <- splitOn_slash by exact Hback.
    fold (split checkpath). rewrite Habove_eq, List.filter_app. cbn [List.filter].
    now rewrite (nonempty_dotted name Hdot). }
  assert (walk (nodes w1) [] (List.filter nonempty above) = inl ENOENT) as Hdown.
  { apply (walk_enoent _ _ j); [exact (filter_plain _ Habove_plain) | exact Hj | |].
    - intros i Hi. apply Hkeep1. now apply Habove.
    - cbn [app]. rewrite Hsame1 by exact Hapart. exact Hmissing. }
  assert (writeFile (parse checkpath) content w1 = (Some ENOENT, w1)) as Hwrite.
  { unfold writeFile, origin. rewrite Hnames, last_snoc, removelast_last, Habsolute.
    now rewrite Hdown. }
  exists w1. split.
  - unfold fileCover, dirCheck. now rewrite Hdirs, Hcheck, Hwrite.
  - exact Hdirs1.
Qed.

Lemma absolute_path_directories_go_below_cwd_witness :
  exists w',
    fileCover 4 "/srv/u1/a.txt" (Sample.bytes "hi") served
      = Some (FileWriteFailed ENOENT, w') /\
    nodes w' !! ["home"; "app"; "srv"; "u1"] = Some Dir.
Proof.
  assert (split "/srv/u1/a.txt" = [""; "srv"; "u1"; "a.txt"])
    as Hsplit by (vm_compute; reflexivity).
  assert (parents "/srv/u1/a.txt" = ["srv"; "u1"])
    as Hparents by (vm_compute; reflexivity).
  destruct (absolute_path_directories_go_below_cwd "/srv/u1/a.txt"
              (Sample.bytes "hi") served "a.txt" 0)
    as (w' & Hcover & Hdirs).
  - vm_compute. reflexivity.
  - rewrite Hsplit. repeat (apply Forall_cons; split; [reflexivity|]).
    apply Forall_nil_2.
  - reflexivity.
  - rewrite Hsplit. reflexivity.
  - vm_compute. reflexivity.
  - rewrite Hparents. intros k c Hk. cbn [length] in Hk.
    do 3 (destruct k as [|k]; [vm_compute; discriminate|]). lia.
  - rewrite Hparents. cbn [length]. lia.
  - intros i Hi. lia.
  - rewrite Hparents. vm_compute. reflexivity.
  - rewrite Hparents. intros k _ E. cbn in E. discriminate E.
  - rewrite Hsplit, Hparents in *. exists w'. split; [exact Hcover|].
    apply (Hdirs 2). cbn [length]. lia.
Defined.

End UtilsExtras.

(** ** The files below a directory *)

Module FilesFacts.
Import Files FilesSpec.
Local Close Scope N_scope.

Lemma visit_leads stats : forall namePath path,
  In path (visit namePath stats) <->
  exists names content, path = namePath ++ names /\ leads stats names content.
Proof.
  induction stats as [content|list_ IH] using Tree_each; intros namePath path.
  - cbn. split.
    + intros [<-|[]]. exists [], content. rewrite app_nil_r. split; [reflexivity|constructor].
    + intros (names & c & -> & H). inversion H; subst. left. now rewrite app_nil_r.
  - cbn [visit]. rewrite in_flat_map. split.
    + intros ([name stats] & Hin & Hpath). cbn in Hpath.
      rewrite Forall_forall in IH.
      apply (IH (name, stats)) in Hpath; [|now apply list_elem_of_In].
      destruct Hpath as (names & c & -> & Hleads).
      exists (name :: names), c. split; [now rewrite <- app_assoc|].
      now apply (leads_down list_ name stats).
    + intros (names & c & -> & H). inversion H as [|l name stats names' c' Hin Hleads]; subst.
      exists (name, stats). split; [exact Hin|]. cbn.
      rewrite Forall_forall in IH.
      apply (IH (name, stats)); [now apply list_elem_of_In|].
      exists names', c. split; [now rewrite <- app_assoc | exact Hleads].
Qed.

End FilesFacts.

Section FilesExtras.
Import Files FilesSpec FilesFacts.
Local Close Scope N_scope.

(** X17. [readFiles] lists the regular files below a directory, and
    nothing else: a path is in the list exactly when it leads from the
    directory down to a regular file and its first name is let through by
    the pattern.  The pattern is tried on the names of the directory itself
    only, never on a name further down; where there is no directory the
    list is empty. *)
Theorem readFiles_lists_files dir stats ignore path :
  In path (readFiles dir stats ignore) <->
  exists list_ name names content,
    stats = Some (Folder list_) /\
    path = dir ++ name :: names /\
    ignored ignore name = false /\
    leads (Folder list_) (name :: names) content.
Proof.
  destruct stats as [[c|list_]|]; cbn [readFiles];
    try (split; [intros [] | intros (l & ? & ? & ? & H & _); discriminate H]).
  unfold readDir. rewrite in_flat_map. split.
  - intros ([name stats] & Hin & Hpath). cbn [fst snd] in Hpath.
    destruct (ignored ignore name) eqn:Hname; [destruct Hpath|].
    apply visit_leads in Hpath as (names & content & -> & Hleads).
    exists list_, name, names, content. rewrite <- app_assoc.
    repeat split; [exact Hname|]. now apply (leads_down list_ name stats).
  - intros (l & name & names & content & Hl & -> & Hname & Hleads).
    injection Hl as <-.
    inversion Hleads as [|l name' stats names' content' Hin Hdown]; subst.
    exists (name, stats). split; [exact Hin|]. cbn [fst snd]. rewrite Hname.
    apply visit_leads. exists names, content. now rewrite <- app_assoc.
Qed.

End FilesExtras.

(** ** Where a client path leads *)

Module ResolveFacts.
Import Utils UtilsSpec Resolve.
Local Close Scope N_scope.

Lemma normalizeAbsolute_plain rest : forall stack,
  Forall plain rest -> normalizeAbsolute stack rest = rev stack ++ rest.
Proof.
  induction rest as [|name rest IH]; intros stack Hplain; cbn [normalizeAbsolute].
  - now rewrite app_nil_r.
  - apply Forall_cons in Hplain as [Hname Hrest].
    unfold plain, special in Hname. apply orb_false_iff in Hname as [-> ->].
    rewrite IH by exact Hrest. cbn [rev]. now rewrite <- app_assoc.
Qed.

Lemma normalizeAbsolute_app front rest : forall stack,
  Forall plain rest ->
  normalizeAbsolute stack (front ++ rest) = normalizeAbsolute stack front ++ rest.
Proof.
  induction front as [|name front IH]; intros stack Hplain.
  - cbn [app normalizeAbsolute]. now apply normalizeAbsolute_plain.
  - cbn [app normalizeAbsolute].
    destruct (String.eqb name "."); [now apply IH|].
    destruct (String.eqb name ".."); now apply IH.
Qed.

Lemma gather_resolved args : forall resolved,
  gather args resolved = (fun r => (r.1, r.2 ++ resolved)) <$> gather args [].
Proof.
  induction args as [|[path|] args IH]; intros resolved; cbn [gather];
    [reflexivity | | reflexivity].
  destruct (String.eqb path ""); [apply IH|].
  destruct (absolute (parse path)).
  - cbn. now rewrite app_nil_r.
  - rewrite IH, (IH (names (parse path) ++ [])), app_nil_r.
    destruct (gather args []) as [[b r]|]; cbn; [|reflexivity].
    now rewrite <- app_assoc.
Qed.

End ResolveFacts.

Section ResolveExtras.
Import Utils UtilsSpec Resolve ResolveFacts.
Local Close Scope N_scope.

(** X18. A client path that is not absolute and has no [.] or [..]
    among its names stays in the project directory: it resolves to the
    directory [relativeToAbsolute] gives for the project, followed by the
    names of the path; and it throws exactly when that would. *)
Theorem plain_path_stays_in_project cwd projectsDir uid project relative :
  absolute (parse relative) = false ->
  Forall plain (names (parse relative)) ->
  relativeToAbsolute cwd projectsDir uid project relative =
    (fun root => root ++ names (parse relative)) <$>
      relativeToAbsolute cwd projectsDir uid project "".
Proof.
  intros Hrelative Hplain. unfold relativeToAbsolute, resolve.
  change (rev [Some projectsDir; uid; project; Some relative])
    with (Some relative :: [project; uid; Some projectsDir]).
  change (rev [Some projectsDir; uid; project; Some ""])
    with (Some "" :: [project; uid; Some projectsDir]).
  generalize [project; uid; Some projectsDir]. intros before.
  cbn [gather String.eqb]. rewrite Hrelative.
  destruct (String.eqb relative "") eqn:Hempty.
  - apply String.eqb_eq in Hempty as ->.
    destruct (gather before []) as [[[] r]|]; cbn; now rewrite ?app_nil_r.
  - rewrite gather_resolved, app_nil_r.
    destruct (gather before []) as [[[] r]|]; cbn; [| |reflexivity]; f_equal.
    + now apply normalizeAbsolute_app.
    + rewrite app_assoc. now apply normalizeAbsolute_app.
Qed.

Lemma plain_path_stays_in_project_witness :
  relativeToAbsolute ["home"; "app"] "projects" (Some "u1") (Some "demo") "src/a.txt" =
    Some ["home"; "app"; "projects"; "u1"; "demo"; "src"; "a.txt"].
Proof.
  rewrite (plain_path_stays_in_project ["home"; "app"] "projects" (Some "u1")
             (Some "demo") "src/a.txt").
  - reflexivity.
  - reflexivity.
  - vm_compute. repeat constructor.
Defined.

(** X19. A client path that starts with a slash is taken as it is: the
    projects directory, the user and the project play no part in the
    result, and are not even read, so nothing throws on a socket that has
    no user or project yet. *)
Theorem absolute_path_overrides_project cwd projectsDir uid project relative :
  absolute (parse relative) = true ->
  relativeToAbsolute cwd projectsDir uid project relative =
    Some (normalizeAbsolute [] (names (parse relative))).
Proof.
  intros Habsolute. unfold relativeToAbsolute, resolve.
  change (rev [Some projectsDir; uid; project; Some relative])
    with (Some relative :: [project; uid; Some projectsDir]).
  generalize [project; uid; Some projectsDir]. intros before.
  destruct relative as [|c relative]; [discriminate|].
  cbn [gather String.eqb]. rewrite Habsolute. now rewrite app_nil_r.
Qed.

Lemma absolute_path_overrides_project_witness :
  relativeToAbsolute ["home"; "app"] "projects" None None "/etc/../etc/passwd" =
    Some ["etc"; "passwd"].
Proof.
  rewrite (absolute_path_overrides_project ["home"; "app"] "projects" None None
             "/etc/../etc/passwd").
  - reflexivity.
  - reflexivity.
Defined.

End ResolveExtras.
